(** * URL Preview for Obsidian: hover controller, link locator, bounds and URL
    extraction, embedded from the plugin's [main.ts] (modifier-key version).

    Modelling conventions.
    - A JavaScript string is a [string]; each [ascii] stands for one code unit
      below 256, so the white space that [trim] removes is TAB, LF, VT, FF, CR,
      SPACE and NBSP.
    - Pixel coordinates, sizes and milliseconds are integers ([Z]).
    - [window.setTimeout] handles are [positive]: a handle is never falsy, as
      in the browser.
    - The plugin instance, the window's timer queue and the part of the
      document the plugin writes to (preview popups, [mouseleave] listeners)
      form one [World]; handlers are functions [World -> World].
    - What the browser and Obsidian decide (layout, hit testing, the editor's
      text, the URL parser) is an input: the [Env] record and the section
      variable [URL_href]. *)

From Stdlib Require Import ZArith List Bool String Ascii PArith Lia.
Import ListNotations.

Local Open Scope string_scope.
Local Open Scope Z_scope.

(* ================================================================== *)
(** ** JavaScript string primitives *)

Module JsString.

Definition isWhiteSpace (c : ascii) : bool :=
  let n := nat_of_ascii c in
  (Nat.leb 9 n && Nat.leb n 13) || Nat.eqb n 32 || Nat.eqb n 160.

Fixpoint trimStart (s : string) : string :=
  match s with
  | EmptyString => EmptyString
  | String c r => if isWhiteSpace c then trimStart r else s
  end.

(** [trimEnd] keeps a character when it is not white space or when something
    that is kept follows it. *)
Fixpoint trimEnd (s : string) : string :=
  match s with
  | EmptyString => EmptyString
  | String c r =>
      match trimEnd r with
      | EmptyString => if isWhiteSpace c then EmptyString else String c EmptyString
      | r' => String c r'
      end
  end.

Definition trim (s : string) : string := trimEnd (trimStart s).

Definition isEmpty (s : string) : bool :=
  match s with EmptyString => true | _ => false end.

(** [s.startsWith(p)] *)
Fixpoint startsWith (p s : string) : bool :=
  match p, s with
  | EmptyString, _ => true
  | String a p', String b s' => Ascii.eqb a b && startsWith p' s'
  | String _ _, EmptyString => false
  end.

(** [s.includes(sub)] *)
Fixpoint includes (sub s : string) : bool :=
  startsWith sub s ||
  match s with
  | EmptyString => false
  | String _ r => includes sub r
  end.

(** Case folding of the ASCII letters, as the [i] flag of a RegExp does for
    a pattern made of ASCII letters. *)
Definition foldCase (c : ascii) : ascii :=
  let n := nat_of_ascii c in
  if Nat.leb 65 n && Nat.leb n 90 then ascii_of_nat (n + 32) else c.

Fixpoint startsWithIgnoreCase (p s : string) : bool :=
  match p, s with
  | EmptyString, _ => true
  | String a p', String b s' =>
      Ascii.eqb (foldCase a) (foldCase b) && startsWithIgnoreCase p' s'
  | String _ _, EmptyString => false
  end.

Fixpoint drop (n : nat) (s : string) : string :=
  match n, s with
  | O, _ => s
  | S k, String _ r => drop k r
  | S _, EmptyString => EmptyString
  end.

(** Truthiness of a [string | null] value: [null] and the empty string are
    falsy. *)
Definition truthy (o : option string) : bool :=
  match o with
  | Some s => negb (isEmpty s)
  | None => false
  end.

End JsString.
Import JsString.

(* ================================================================== *)
(** ** Settings *)

Inductive ModifierKeyType := meta | ctrl | alt | shift.

Record LinkPreviewSettings := mkSettings {
  maxPreviewHeight : Z;
  maxPreviewWidth : Z;
  hoverDelay : Z;
  requireModifierKey : bool;
  modifierKey : ModifierKeyType;
  closeOnModifierRelease : bool
}.

(** [DEFAULT_SETTINGS], completed with the platform's default modifier. *)
Definition DEFAULT_SETTINGS (platformDefault : ModifierKeyType) : LinkPreviewSettings :=
  {| maxPreviewHeight := 960;
     maxPreviewWidth := 720;
     hoverDelay := 500;
     requireModifierKey := true;
     modifierKey := platformDefault;
     closeOnModifierRelease := true |}.

(* ================================================================== *)
(** ** Bounds calculator *)

Record DOMRect := mkRect {
  rect_left : Z;
  rect_top : Z;
  rect_right : Z;
  rect_bottom : Z
}.

Record PreviewBounds := mkBounds {
  left : Z;
  top : Z;
  width : Z;
  height : Z;
  showAbove : bool
}.

Definition margin : Z := 5.

(** [calculatePreviewBounds(rect, windowSize)] *)
Definition calculatePreviewBounds (settings : LinkPreviewSettings)
    (rect : DOMRect) (windowWidth windowHeight : Z) : PreviewBounds :=
  let maxWidth := Z.min (maxPreviewWidth settings) (windowWidth - margin * 2) in
  let maxHeight := Z.min (maxPreviewHeight settings) (windowHeight - margin * 2) in
  let spaceBelow := windowHeight - rect_bottom rect - margin in
  let spaceAbove := rect_top rect - margin in
  let showAbove := (spaceBelow <? maxHeight) && (spaceAbove >? spaceBelow) in
  let top :=
    if showAbove
    then Z.max margin (rect_top rect - maxHeight - margin)
    else Z.min (rect_bottom rect + margin) (windowHeight - maxHeight - margin) in
  let left0 := rect_left rect in
  let left1 :=
    if left0 + maxWidth >? windowWidth - margin
    then windowWidth - maxWidth - margin
    else left0 in
  let left := Z.max margin left1 in
  {| left := left; top := top; width := maxWidth; height := maxHeight;
     showAbove := showAbove |}.

(* ================================================================== *)
(** ** Document model *)

(** Identity of a DOM element: an element of some document, or the root
    [div.hover-popup] of the [p]-th preview the plugin created. *)
Inductive NodeId :=
| DocNode (n : nat)
| PopupNode (p : nat).

Definition NodeId_eqb (a b : NodeId) : bool :=
  match a, b with
  | DocNode n, DocNode m => Nat.eqb n m
  | PopupNode p, PopupNode q => Nat.eqb p q
  | _, _ => false
  end.

(** What [querySelector] needs to know of a descendant. *)
Record ElementInfo := mkInfo {
  info_isHTMLElement : bool;
  info_localName : string;
  info_attributes : list (string * string);
  info_href : string
}.

Record Element := mkElement {
  nodeId : NodeId;
  isHTMLElement : bool;            (* [instanceof HTMLElement] *)
  localName : string;              (* lower-case tag name *)
  classList : list string;
  attributes : list (string * string);
  href : string;                   (* the resolved [.href] of an anchor, empty when it has none *)
  textContent : string;
  isDocumentBody : bool;           (* [=== document.body] *)
  descendants : list ElementInfo   (* proper descendants, in document order *)
}.

(** An element together with its ancestors, nearest first: what following
    [parentElement] from it visits. *)
Definition Path := list Element.

Definition hasClass (cls : string) (el : Element) : bool :=
  existsb (String.eqb cls) (classList el).

Fixpoint lookupAttribute (name : string) (attrs : list (string * string)) : option string :=
  match attrs with
  | [] => None
  | (k, v) :: rest => if String.eqb k name then Some v else lookupAttribute name rest
  end.

(** [el.getAttribute(name)] *)
Definition getAttribute (name : string) (el : Element) : option string :=
  lookupAttribute name (attributes el).

Definition hasAttribute (name : string) (el : Element) : bool :=
  match getAttribute name el with Some _ => true | None => false end.

(** [el instanceof HTMLAnchorElement] *)
Definition isHTMLAnchorElement (el : Element) : bool :=
  isHTMLElement el && String.eqb (localName el) "a".

Definition info_isHTMLAnchorElement (d : ElementInfo) : bool :=
  info_isHTMLElement d && String.eqb (info_localName d) "a".

(** [el.querySelector('a[href]')]: the first descendant, in document order,
    that is an [a] element carrying an [href] attribute. *)
Definition querySelector_a_href (el : Element) : option ElementInfo :=
  find (fun d => String.eqb (info_localName d) "a" &&
                 match lookupAttribute "href" (info_attributes d) with
                 | Some _ => true
                 | None => false
                 end)
       (descendants el).

(** [a.contains(x)], for [x] given with its ancestors. *)
Definition contains (a : NodeId) (x : Path) : bool :=
  existsb (fun e => NodeId_eqb a (nodeId e)) x.

(** [el.closest('.cm-editor')], as a truth value; [chain] is [el] followed by
    its ancestors. *)
Definition closest_cm_editor (chain : Path) : bool :=
  existsb (hasClass "cm-editor") chain.

(** [el.matches(LINK_SELECTOR)] for
    [a.external-link, a[href^="http"], span.external-link,
     .cm-hmd-external-link, .cm-link .cm-underline, .cm-url, [data-href],
     [data-url]]. *)
Definition matchesLinkSelector (el : Element) (ancestors : Path) : bool :=
  (String.eqb (localName el) "a" && hasClass "external-link" el)
  || (String.eqb (localName el) "a" &&
      match getAttribute "href" el with
      | Some v => startsWith "http" v
      | None => false
      end)
  || (String.eqb (localName el) "span" && hasClass "external-link" el)
  || hasClass "cm-hmd-external-link" el
  || (hasClass "cm-underline" el && existsb (hasClass "cm-link") ancestors)
  || hasClass "cm-url" el
  || hasAttribute "data-href" el
  || hasAttribute "data-url" el.

(* ------------------------------------------------------------------ *)
(** *** The inline-link pattern of [getUrlFromEditorByText]

    [/\[([^\]]+)\]\((https?:\/\/[^)]+)\)/g].  Both character classes are
    followed by the character they exclude, so a match starting at a given
    [\[] is unique: the label runs to the first [\]], the URL to the first
    [)]. *)

Definition ch_lbracket : ascii := "["%char.
Definition ch_rbracket : ascii := "]"%char.
Definition ch_lparen : ascii := "("%char.
Definition ch_rparen : ascii := ")"%char.

(** Splits [s] at the first occurrence of [stop]: the run before it and what
    follows it; [None] when [stop] does not occur. *)
Fixpoint splitAtFirst (stop : ascii) (s : string) : option (string * string) :=
  match s with
  | EmptyString => None
  | String c r =>
      if Ascii.eqb c stop then Some (EmptyString, r)
      else match splitAtFirst stop r with
           | Some (run, after) => Some (String c run, after)
           | None => None
           end
  end.

(** The scheme of the second group, [https?:\/\/]: returns it with the rest. *)
Definition matchScheme (s : string) : option (string * string) :=
  if startsWith "https://" s then Some ("https://", drop 8 s)
  else if startsWith "http://" s then Some ("http://", drop 7 s)
  else None.

(** A match of the whole pattern starting at the first character of [s]:
    label, URL and the number of characters matched. *)
Definition matchLinkAt (s : string) : option (string * string * nat) :=
  match s with
  | String c r =>
      if Ascii.eqb c ch_lbracket then
        match splitAtFirst ch_rbracket r with
        | Some (label, after) =>
            if isEmpty label then None else
            match after with
            | String p after' =>
                if Ascii.eqb p ch_lparen then
                  match matchScheme after' with
                  | Some (scheme, rest) =>
                      match splitAtFirst ch_rparen rest with
                      | Some (tail, _) =>
                          if isEmpty tail then None
                          else Some (label, scheme ++ tail,
                                     (String.length label + String.length scheme
                                      + String.length tail + 4)%nat)
                      | None => None
                      end
                  | None => None
                  end
                else None
            | EmptyString => None
            end
        | None => None
        end
      else None
  | EmptyString => None
  end.

(** The successive results of [linkRegex.exec(content)]: after a match the
    search resumes behind it ([skip] counts the characters still covered by
    the last match). *)
Fixpoint execAll (skip : nat) (content : string) : list (string * string) :=
  match content with
  | EmptyString => []
  | String _ r =>
      match skip with
      | S k => execAll k r
      | O =>
          match matchLinkAt content with
          | Some (label, url, len) => (label, url) :: execAll (Nat.pred len) r
          | None => execAll O r
          end
      end
  end.

(* ================================================================== *)
(** ** Environment, events and the world *)

Record Env := mkEnv {
  innerWidth : Z;                                  (* [window.innerWidth] *)
  innerHeight : Z;                                 (* [window.innerHeight] *)
  getBoundingClientRect : NodeId -> DOMRect;       (* current layout *)
  elementFromPoint : Z -> Z -> option Path;        (* [document.elementFromPoint] *)
  editorValue : option string                      (* text of the active Markdown editor, if any *)
}.

Record MouseEvent := mkMouseEvent {
  target : option Path;          (* [None]: the target is not an [Element] *)
  relatedTarget : option Path;
  metaKey : bool;
  ctrlKey : bool;
  altKey : bool;
  shiftKey : bool
}.

(** What [activePreview] holds; its [cleanup] closure is [runCleanup] below at
    [element]. *)
Record ActivePreview := mkActive {
  element : nat;                 (* the popup, by its number *)
  link : NodeId
}.

(** A [div.hover-popup] built by [showPreview], with what hangs below it. *)
Record Popup := mkPopup {
  popupId : nat;
  geometry : PreviewBounds;      (* the inline left/top/width/height *)
  githubPreview : bool;          (* the wrapper carries [github-preview] *)
  iframeSrc : string;
  iframeIsLoaded : bool;         (* the iframe carries [is-loaded] *)
  loadingText : string;          (* [textContent] of the loading indicator *)
  loadingAttached : bool;        (* the indicator is still in the popup *)
  attached : bool                (* the popup is a child of [document.body] *)
}.

Inductive Callback :=
| CbShowPreview (linkElement : NodeId) (url : string)   (* armed by the hover and key-down handlers *)
| CbCleanup                                             (* armed by [startCleanupTimer] *)
| CbSettle (p : nat).                                   (* the 50 ms delay after the iframe's load *)

Record Timer := mkTimer {
  tid : positive;
  due : Z;
  callback : Callback
}.

Record World := mkWorld {
  (* the plugin instance *)
  settings : LinkPreviewSettings;
  activePreview : option ActivePreview;
  hoverTimeout : option positive;
  cleanupTimeout : option positive;
  lastMouseX : Z;
  lastMouseY : Z;
  (* the window *)
  now : Z;
  timers : list Timer;
  nextTimerId : positive;
  (* the document *)
  popups : list Popup;
  mouseleaveListeners : list NodeId;   (* one entry per [handleMouseLeave] closure, by its link *)
  env : Env
}.

Definition initialWorld (s : LinkPreviewSettings) (e : Env) : World :=
  {| settings := s; activePreview := None; hoverTimeout := None;
     cleanupTimeout := None; lastMouseX := 0; lastMouseY := 0;
     now := 0; timers := []; nextTimerId := 1%positive;
     popups := []; mouseleaveListeners := []; env := e |}.

(** Field updates. *)
Definition set_settings (v : LinkPreviewSettings) (w : World) : World :=
  mkWorld v (activePreview w) (hoverTimeout w) (cleanupTimeout w) (lastMouseX w)
    (lastMouseY w) (now w) (timers w) (nextTimerId w) (popups w)
    (mouseleaveListeners w) (env w).

Definition set_activePreview (v : option ActivePreview) (w : World) : World :=
  mkWorld (settings w) v (hoverTimeout w) (cleanupTimeout w) (lastMouseX w)
    (lastMouseY w) (now w) (timers w) (nextTimerId w) (popups w)
    (mouseleaveListeners w) (env w).

Definition set_hoverTimeout (v : option positive) (w : World) : World :=
  mkWorld (settings w) (activePreview w) v (cleanupTimeout w) (lastMouseX w)
    (lastMouseY w) (now w) (timers w) (nextTimerId w) (popups w)
    (mouseleaveListeners w) (env w).

Definition set_cleanupTimeout (v : option positive) (w : World) : World :=
  mkWorld (settings w) (activePreview w) (hoverTimeout w) v (lastMouseX w)
    (lastMouseY w) (now w) (timers w) (nextTimerId w) (popups w)
    (mouseleaveListeners w) (env w).

Definition set_lastMouse (x y : Z) (w : World) : World :=
  mkWorld (settings w) (activePreview w) (hoverTimeout w) (cleanupTimeout w) x y
    (now w) (timers w) (nextTimerId w) (popups w) (mouseleaveListeners w) (env w).

Definition set_now (v : Z) (w : World) : World :=
  mkWorld (settings w) (activePreview w) (hoverTimeout w) (cleanupTimeout w)
    (lastMouseX w) (lastMouseY w) v (timers w) (nextTimerId w) (popups w)
    (mouseleaveListeners w) (env w).

Definition set_timers (v : list Timer) (w : World) : World :=
  mkWorld (settings w) (activePreview w) (hoverTimeout w) (cleanupTimeout w)
    (lastMouseX w) (lastMouseY w) (now w) v (nextTimerId w) (popups w)
    (mouseleaveListeners w) (env w).

Definition set_nextTimerId (v : positive) (w : World) : World :=
  mkWorld (settings w) (activePreview w) (hoverTimeout w) (cleanupTimeout w)
    (lastMouseX w) (lastMouseY w) (now w) (timers w) v (popups w)
    (mouseleaveListeners w) (env w).

Definition set_popups (v : list Popup) (w : World) : World :=
  mkWorld (settings w) (activePreview w) (hoverTimeout w) (cleanupTimeout w)
    (lastMouseX w) (lastMouseY w) (now w) (timers w) (nextTimerId w) v
    (mouseleaveListeners w) (env w).

Definition set_mouseleaveListeners (v : list NodeId) (w : World) : World :=
  mkWorld (settings w) (activePreview w) (hoverTimeout w) (cleanupTimeout w)
    (lastMouseX w) (lastMouseY w) (now w) (timers w) (nextTimerId w) (popups w)
    v (env w).

Definition set_env (v : Env) (w : World) : World :=
  mkWorld (settings w) (activePreview w) (hoverTimeout w) (cleanupTimeout w)
    (lastMouseX w) (lastMouseY w) (now w) (timers w) (nextTimerId w) (popups w)
    (mouseleaveListeners w) v.

(* ------------------------------------------------------------------ *)
(** *** Timers *)

(** [window.setTimeout(cb, delay)]: the handle and the new world. *)
Definition setTimeout (cb : Callback) (delay : Z) (w : World) : positive * World :=
  let id := nextTimerId w in
  (id,
   set_nextTimerId (Pos.succ id)
     (set_timers (timers w ++ [mkTimer id (now w + Z.max 0 delay) cb]) w)).

(** [window.clearTimeout(id)] *)
Definition clearTimeout (id : positive) (w : World) : World :=
  set_timers (filter (fun t => negb (Pos.eqb (tid t) id)) (timers w)) w.

(** [if (handle) window.clearTimeout(handle)] *)
Definition clearIfSet (handle : option positive) (w : World) : World :=
  match handle with
  | Some id => clearTimeout id w
  | None => w
  end.

Definition isShowTimer (t : Timer) : bool :=
  match callback t with CbShowPreview _ _ => true | _ => false end.

Definition isCleanupTimer (t : Timer) : bool :=
  match callback t with CbCleanup => true | _ => false end.

(* ------------------------------------------------------------------ *)
(** *** Popups *)

Definition updatePopup (p : nat) (f : Popup -> Popup) (ps : list Popup) : list Popup :=
  map (fun q => if Nat.eqb (popupId q) p then f q else q) ps.

Definition detach (q : Popup) : Popup :=
  mkPopup (popupId q) (geometry q) (githubPreview q) (iframeSrc q)
    (iframeIsLoaded q) (loadingText q) (loadingAttached q) false.

Definition setLoadingText (txt : string) (q : Popup) : Popup :=
  mkPopup (popupId q) (geometry q) (githubPreview q) (iframeSrc q)
    (iframeIsLoaded q) txt (loadingAttached q) (attached q).

Definition markLoaded (q : Popup) : Popup :=
  mkPopup (popupId q) (geometry q) (githubPreview q) (iframeSrc q)
    true (loadingText q) false (attached q).

(** The popups that are children of [document.body]. *)
Definition attachedPopups (w : World) : list nat :=
  map popupId (filter attached (popups w)).

(** The popup the controller holds, as a list of at most one. *)
Definition heldPopups (w : World) : list nat :=
  match activePreview w with
  | Some ap => [element ap]
  | None => []
  end.

Definition isSome {A : Type} (o : option A) : bool :=
  match o with Some _ => true | None => false end.

Definition inRect (x y : Z) (r : DOMRect) : bool :=
  (x >=? rect_left r) && (x <=? rect_right r) &&
  (y >=? rect_top r) && (y <=? rect_bottom r).

(** Removes one [handleMouseLeave] closure registered on [l]. *)
Fixpoint removeListener (l : NodeId) (ls : list NodeId) : list NodeId :=
  match ls with
  | [] => []
  | x :: r => if NodeId_eqb x l then r else x :: removeListener l r
  end.

(* ================================================================== *)
(** ** The plugin

    [URL_href s] stands for [new URL(s).href], [None] when the constructor
    throws. *)

Section Plugin.

Variable URL_href : string -> option string.

(** The test [/^https?:\/\//i]. *)
Definition hasHttpPrefix (s : string) : bool :=
  startsWithIgnoreCase "http://" s || startsWithIgnoreCase "https://" s.

(** [normalizeUrl(candidate)] *)
Definition normalizeUrl (candidate : string) : option string :=
  let trimmed := trim candidate in
  if negb (hasHttpPrefix trimmed) then None
  else URL_href trimmed.

(* ------------------------------------------------------------------ *)
(** *** URL extractor *)

Definition attributeNames : list string :=
  ["data-href"; "data-url"; "href"; "aria-label"; "title"].

(** The value the attribute loop computes for one name:
    [value ? this.normalizeUrl(value) : null]. *)
Definition attributeUrl (attr : string) (el : Element) : option string :=
  match getAttribute attr el with
  | Some value => if isEmpty value then None else normalizeUrl value
  | None => None
  end.

(** The loop over the element's own attributes, for any list of names. *)
Fixpoint firstAttributeUrl (names : list string) (el : Element) : option string :=
  match names with
  | [] => None
  | attr :: rest =>
      let url := attributeUrl attr el in
      if truthy url then url else firstAttributeUrl rest el
  end.

(** The walk over [element] and its ancestors; [Some r] when the loop returns
    [r], [None] when it runs to its end. *)
Fixpoint ancestorUrl (chain : Path) : option (option string) :=
  match chain with
  | [] => None
  | ancestor :: rest =>
      if isDocumentBody ancestor then None
      else if isHTMLAnchorElement ancestor && negb (isEmpty (href ancestor))
      then Some (normalizeUrl (href ancestor))
      else if hasClass "external-link" ancestor || hasClass "cm-link" ancestor
      then match querySelector_a_href ancestor with
           | Some anchor =>
               if info_isHTMLAnchorElement anchor && negb (isEmpty (info_href anchor))
               then Some (normalizeUrl (info_href anchor))
               else ancestorUrl rest
           | None => ancestorUrl rest
           end
      else ancestorUrl rest
  end.

(** [extractUrlFromElement(element)], [ancestors] being what [parentElement]
    reaches from [element]. *)
Definition extractUrlFromElement (element : Element) (ancestors : Path) : option string :=
  if isHTMLAnchorElement element then Some (href element)
  else
    match firstAttributeUrl attributeNames element with
    | Some url => Some url
    | None =>
        match ancestorUrl (element :: ancestors) with
        | Some r => r
        | None =>
            let text := trim (textContent element) in
            if isEmpty text then None else normalizeUrl text
        end
    end.

(* ------------------------------------------------------------------ *)
(** *** Link locator *)

(** [getUrlFromEditorByText(element)] *)
Definition getUrlFromEditorByText (e : Env) (element : Element) : option string :=
  match editorValue e with
  | None => None
  | Some content =>
      let displayText := trim (textContent element) in
      if isEmpty displayText then None
      else
        match find (fun m : string * string =>
                      let (linkText, _) := m in
                      String.eqb linkText displayText
                      || includes displayText linkText
                      || includes linkText displayText)
                   (execAll O content) with
        | Some (_, url) => Some url
        | None =>
            if startsWith "http" displayText then normalizeUrl displayText
            else None
        end
  end.

(** [findLinkElement(target, relatedTarget)], [chain] being [target] followed
    by its ancestors. *)
Fixpoint findLinkElement (e : Env) (chain : Path) (related : option Path)
  : option (Element * string) :=
  match chain with
  | [] => None
  | el :: rest =>
      if isDocumentBody el then None
      else if negb (isHTMLElement el) then findLinkElement e rest related
      else if negb (matchesLinkSelector el rest) then findLinkElement e rest related
      else if match related with
              | Some r => contains (nodeId el) r
              | None => false
              end
      then None
      else
        let url0 := if closest_cm_editor chain then getUrlFromEditorByText e el else None in
        let url := if negb (truthy url0) then extractUrlFromElement el rest else url0 in
        match url with
        | Some u => if isEmpty u then findLinkElement e rest related else Some (el, u)
        | None => findLinkElement e rest related
        end
  end.

(* ------------------------------------------------------------------ *)
(** *** Panel lifecycle controller *)

(** [showPreview(link, url)] *)
Definition showPreview (linkElement : NodeId) (url : string) (w : World) : World :=
  let rect := getBoundingClientRect (env w) linkElement in
  let bounds := calculatePreviewBounds (settings w) rect
                  (innerWidth (env w)) (innerHeight (env w)) in
  let p := List.length (popups w) in
  let previewEl :=
    {| popupId := p; geometry := bounds;
       githubPreview := includes "github.com" url;
       iframeSrc := url; iframeIsLoaded := false;
       loadingText := ""; loadingAttached := true; attached := true |} in
  set_activePreview (Some {| element := p; link := linkElement |})
    (set_popups (popups w ++ [previewEl]) w).

(** The [cleanup] closure of the popup [p]. *)
Definition runCleanup (p : nat) (w : World) : World :=
  set_activePreview None (set_popups (updatePopup p detach (popups w)) w).

(** [cleanupActivePreview()] *)
Definition cleanupActivePreview (w : World) : World :=
  let w1 :=
    match activePreview w with
    | Some ap => set_activePreview None (runCleanup (element ap) w)
    | None => w
    end in
  let w2 :=
    match hoverTimeout w1 with
    | Some h => set_hoverTimeout None (clearTimeout h w1)
    | None => w1
    end in
  match cleanupTimeout w2 with
  | Some c => set_cleanupTimeout None (clearTimeout c w2)
  | None => w2
  end.

(** [startCleanupTimer()] *)
Definition startCleanupTimer (w : World) : World :=
  let w1 := clearIfSet (cleanupTimeout w) w in
  let (id, w2) := setTimeout CbCleanup 300 w1 in
  set_cleanupTimeout (Some id) w2.

(** [isMouseOverPreviewOrLink()] *)
Definition isMouseOverPreviewOrLink (w : World) : bool :=
  match activePreview w with
  | None => false
  | Some ap =>
      let previewRect := getBoundingClientRect (env w) (PopupNode (element ap)) in
      if inRect (lastMouseX w) (lastMouseY w) previewRect then true
      else
        let linkRect := getBoundingClientRect (env w) (link ap) in
        if inRect (lastMouseX w) (lastMouseY w) linkRect then true
        else false
  end.

(** The callback armed by [startCleanupTimer]. *)
Definition cleanupTimerFired (w : World) : World :=
  if isSome (activePreview w) && isMouseOverPreviewOrLink w
  then set_cleanupTimeout None w
  else set_cleanupTimeout None (cleanupActivePreview w).

(** [isModifierKeyPressed(event)] *)
Definition isModifierKeyPressed (s : LinkPreviewSettings) (e : MouseEvent) : bool :=
  match modifierKey s with
  | meta => metaKey e
  | ctrl => ctrlKey e
  | alt => altKey e
  | shift => shiftKey e
  end.

(** [isModifierKeyEvent(event)], on the event's [key]. *)
Definition isModifierKeyEvent (s : LinkPreviewSettings) (key : string) : bool :=
  String.eqb key
    match modifierKey s with
    | meta => "Meta"
    | ctrl => "Control"
    | alt => "Alt"
    | shift => "Shift"
    end.

(** The first part of [handleLinkHover(event)], up to the link it locates:
    [None] stands for each of its early returns. *)
Definition locateHover (e : MouseEvent) (w : World) : option (Element * string) :=
  match target e with
  | None => None
  | Some t =>
      if match activePreview w with
         | Some ap => contains (PopupNode (element ap)) t
         | None => false
         end
      then None
      else if requireModifierKey (settings w) && negb (isModifierKeyPressed (settings w) e)
      then None
      else findLinkElement (env w) t (relatedTarget e)
  end.

(** Whether [activePreview?.link === linkElement]. *)
Definition ownsActivePreview (linkElement : NodeId) (w : World) : bool :=
  match activePreview w with
  | Some ap => NodeId_eqb (link ap) linkElement
  | None => false
  end.

(** [if (this.cleanupTimeout) { clearTimeout(...); this.cleanupTimeout = undefined }] *)
Definition cancelCleanupTimer (w : World) : World :=
  match cleanupTimeout w with
  | Some c => set_cleanupTimeout None (clearTimeout c w)
  | None => w
  end.

(** Arms the show timer and records its handle in [hoverTimeout]. *)
Definition armShowTimer (linkElement : NodeId) (url : string) (w : World) : World :=
  let (id, w') := setTimeout (CbShowPreview linkElement url) (hoverDelay (settings w)) w in
  set_hoverTimeout (Some id) w'.

(** The second part of [handleLinkHover(event)], from the located link on. *)
Definition hoverLink (linkElement : NodeId) (url : string) (w : World) : World :=
  let w1 := clearIfSet (hoverTimeout w) w in
  if ownsActivePreview linkElement w1 then cancelCleanupTimer w1
  else
    let w2 := cleanupActivePreview w1 in
    let w3 := armShowTimer linkElement url w2 in
    set_mouseleaveListeners (mouseleaveListeners w3 ++ [linkElement]) w3.

(** [handleLinkHover(event)] *)
Definition handleLinkHover (e : MouseEvent) (w : World) : World :=
  match locateHover e w with
  | None => w
  | Some (linkElement, url) => hoverLink (nodeId linkElement) url w
  end.

(** The [handleMouseLeave] closure registered on [linkElement]. *)
Definition handleMouseLeave (linkElement : NodeId) (toElement : option Path) (w : World) : World :=
  if match toElement, activePreview w with
     | Some t, Some ap => contains (PopupNode (element ap)) t
     | _, _ => false
     end
  then w
  else
    let w1 := startCleanupTimer w in
    set_mouseleaveListeners (removeListener linkElement (mouseleaveListeners w1)) w1.

(** A [mouseleave] event on the element [l]: every closure registered on it
    when the event is dispatched runs, in registration order. *)
Definition dispatchMouseleave (l : NodeId) (toElement : option Path) (w : World) : World :=
  fold_left
    (fun w' l' => if NodeId_eqb l' l then handleMouseLeave l toElement w' else w')
    (mouseleaveListeners w) w.

(** [handleModifierKeyDown()] *)
Definition handleModifierKeyDown (w : World) : World :=
  if isSome (activePreview w) then w
  else
    match elementFromPoint (env w) (lastMouseX w) (lastMouseY w) with
    | None => w
    | Some elementUnderCursor =>
        match findLinkElement (env w) elementUnderCursor None with
        | Some (el, url) =>
            armShowTimer (nodeId el) url (clearIfSet (hoverTimeout w) w)
        | None => w
        end
    end.

(** [handleModifierKeyUp()] *)
Definition handleModifierKeyUp (w : World) : World :=
  if closeOnModifierRelease (settings w) then cleanupActivePreview w else w.

(** The [keydown] listener. *)
Definition onKeydown (key : string) (w : World) : World :=
  let w1 :=
    if String.eqb key "Escape" && isSome (activePreview w)
    then cleanupActivePreview w else w in
  if requireModifierKey (settings w1) && isModifierKeyEvent (settings w1) key
  then handleModifierKeyDown w1 else w1.

(** The [keyup] listener. *)
Definition onKeyup (key : string) (w : World) : World :=
  if requireModifierKey (settings w) && isModifierKeyEvent (settings w) key
  then handleModifierKeyUp w else w.

(** The [mousemove] listener. *)
Definition onMousemove (x y : Z) (w : World) : World := set_lastMouse x y w.

(** The popup's [mouseenter] and [mouseleave] listeners. *)
Definition onPopupMouseenter (w : World) : World := cancelCleanupTimer w.

Definition onPopupMouseleave (w : World) : World := startCleanupTimer w.

(** [iframe.onload] of the popup [p]: arms the 50 ms settle delay. *)
Definition onIframeLoad (p : nat) (w : World) : World :=
  snd (setTimeout (CbSettle p) 50 w).

Definition failureNotice : string := "Failed to load preview".

(** [iframe.onerror] of the popup [p]. *)
Definition onIframeError (p : nat) (w : World) : World :=
  set_popups (updatePopup p (setLoadingText failureNotice) (popups w)) w.

(** [onunload()] *)
Definition onunload (w : World) : World := cleanupActivePreview w.

(* ------------------------------------------------------------------ *)
(** *** The event loop *)

(** A pending timer fires: it leaves the queue and its callback runs. *)
Definition fireTimer (t : Timer) (w : World) : World :=
  let w1 := set_now (Z.max (now w) (due t)) (clearTimeout (tid t) w) in
  match callback t with
  | CbShowPreview linkElement url => showPreview linkElement url w1
  | CbCleanup => cleanupTimerFired w1
  | CbSettle p => set_popups (updatePopup p markLoaded (popups w1)) w1
  end.

(** The timer of least due time, the earliest armed among equals. *)
Fixpoint earliest (ts : list Timer) : option Timer :=
  match ts with
  | [] => None
  | t :: r =>
      match earliest r with
      | Some u => if due u <? due t then Some u else Some t
      | None => Some t
      end
  end.

Definition nextDue (T : Z) (ts : list Timer) : option Timer :=
  earliest (filter (fun t => due t <=? T) ts).

Fixpoint runDue (fuel : nat) (T : Z) (w : World) : World :=
  match fuel with
  | O => w
  | S f =>
      match nextDue T (timers w) with
      | Some t => runDue f T (fireTimer t w)
      | None => w
      end
  end.

(** Time passes until [T] with no input event: the timers due by then fire in
    order.  No callback arms a timer, so one round per pending timer is
    enough ([advanceTo_complete]). *)
Definition advanceTo (T : Z) (w : World) : World :=
  set_now (Z.max (now w) T) (runDue (List.length (timers w)) T w).

Inductive Action :=
| Mouseover (e : MouseEvent)
| Mousemove (x y : Z)
| Keydown (key : string)
| Keyup (key : string)
| LinkMouseleave (l : NodeId) (toElement : option Path)
| PopupMouseenter (p : nat)
| PopupMouseleave (p : nat)
| IframeLoad (p : nat)
| IframeError (p : nat)
| TimerFires (id : positive)
| TimePasses (T : Z)
| SettingsChanged (s : LinkPreviewSettings)
| EnvChanged (e : Env)
| Unload.

Definition popupExists (p : nat) (w : World) : bool :=
  Nat.ltb p (List.length (popups w)).

Definition step (a : Action) (w : World) : World :=
  match a with
  | Mouseover e => handleLinkHover e w
  | Mousemove x y => onMousemove x y w
  | Keydown key => onKeydown key w
  | Keyup key => onKeyup key w
  | LinkMouseleave l toElement => dispatchMouseleave l toElement w
  | PopupMouseenter p => if popupExists p w then onPopupMouseenter w else w
  | PopupMouseleave p => if popupExists p w then onPopupMouseleave w else w
  | IframeLoad p => if popupExists p w then onIframeLoad p w else w
  | IframeError p => if popupExists p w then onIframeError p w else w
  | TimerFires id =>
      match find (fun t => Pos.eqb (tid t) id) (timers w) with
      | Some t => fireTimer t w
      | None => w
      end
  | TimePasses T => advanceTo T w
  | SettingsChanged s => set_settings s w
  | EnvChanged e => set_env e w
  | Unload => onunload w
  end.

Definition run (acts : list Action) (w : World) : World :=
  fold_left (fun w' a => step a w') acts w.

(** The worlds the plugin can be in: from a fresh instance, any sequence of
    events, timer firings and changes of settings or layout. *)
Inductive reachable : World -> Prop :=
| reachable_init : forall s e, reachable (initialWorld s e)
| reachable_step : forall a w, reachable w -> reachable (step a w).

(** The states of the lifecycle. *)
Definition showTimerPending (w : World) : bool := existsb isShowTimer (timers w).
Definition cleanupTimerPending (w : World) : bool := existsb isCleanupTimer (timers w).

Definition Idle (w : World) : Prop :=
  activePreview w = None /\ showTimerPending w = false
  /\ cleanupTimerPending w = false /\ attachedPopups w = [].

Definition ShowPending (w : World) : Prop :=
  activePreview w = None /\ showTimerPending w = true.

Definition Visible (w : World) : Prop :=
  isSome (activePreview w) = true /\ cleanupTimerPending w = false.

Definition HidePending (w : World) : Prop :=
  isSome (activePreview w) = true /\ cleanupTimerPending w = true.

End Plugin.

Arguments reachable URL_href w : clear implicits.

(* ================================================================== *)
(** ** A concrete platform for the worked examples *)

Fixpoint hasWhiteSpace (s : string) : bool :=
  match s with
  | EmptyString => false
  | String c r => isWhiteSpace c || hasWhiteSpace r
  end.

Fixpoint hasSlash (s : string) : bool :=
  match s with
  | EmptyString => false
  | String c r => Ascii.eqb c "/"%char || hasSlash r
  end.

Definition withPath (rest : string) : string :=
  if hasSlash rest then rest else rest ++ "/".

(** A small stand-in for [new URL(s).href], used by the worked examples
    only: the properties of the plugin are stated for every parser.  On an
    http(s) input the scheme is lower-cased, an empty path becomes [/], and an
    input with white space or an empty host is rejected.  It is not the
    browser's parser: it keeps the case of the host, it rejects white space
    inside a path or a query where the browser percent-encodes it, and it
    puts no [/] before a query or fragment that follows the host directly.
    The examples apply it only to URLs with a lower-case host, no white space
    and no query or fragment, or to strings that normalization rejects before
    parsing. *)
Definition URL_href_simple (s : string) : option string :=
  if hasWhiteSpace s then None
  else if startsWithIgnoreCase "https://" s
  then (if isEmpty (drop 8 s) then None else Some ("https://" ++ withPath (drop 8 s)))
  else if startsWithIgnoreCase "http://" s
  then (if isEmpty (drop 7 s) then None else Some ("http://" ++ withPath (drop 7 s)))
  else None.

(** A reading-view document: [body > p > a.external-link]. *)
Definition exampleLink : Element :=
  {| nodeId := DocNode 1; isHTMLElement := true; localName := "a";
     classList := ["external-link"];
     attributes := [("href", "https://example.com"); ("target", "_blank")];
     href := "https://example.com/"; textContent := "Example";
     isDocumentBody := false; descendants := [] |}.

Definition exampleParagraph : Element :=
  {| nodeId := DocNode 2; isHTMLElement := true; localName := "p";
     classList := []; attributes := []; href := "";
     textContent := "See Example for more."; isDocumentBody := false;
     descendants := [mkInfo true "a" [("href", "https://example.com")] "https://example.com/"] |}.

Definition exampleBody : Element :=
  {| nodeId := DocNode 0; isHTMLElement := true; localName := "body";
     classList := []; attributes := []; href := "";
     textContent := "See Example for more."; isDocumentBody := true;
     descendants := [] |}.

Definition examplePath : Path := [exampleLink; exampleParagraph; exampleBody].

Definition exampleLinkRect : DOMRect :=
  {| rect_left := 100; rect_top := 200; rect_right := 180; rect_bottom := 220 |}.

(** Where the stylesheet lays out a popup for [exampleLinkRect] in a
    1280 x 800 window with the default maxima. *)
Definition examplePopupRect : DOMRect :=
  {| rect_left := 100; rect_top := 5; rect_right := 820; rect_bottom := 795 |}.

Definition exampleEnv : Env :=
  {| innerWidth := 1280; innerHeight := 800;
     getBoundingClientRect := fun n =>
       match n with
       | DocNode 1 => exampleLinkRect
       | PopupNode _ => examplePopupRect
       | _ => mkRect 0 0 1280 800
       end;
     elementFromPoint := fun x y =>
       if inRect x y exampleLinkRect then Some examplePath else Some [exampleBody];
     editorValue := None |}.

(** The pointer enters [exampleLink] with Control held. *)
Definition exampleHover : MouseEvent :=
  {| target := Some examplePath; relatedTarget := Some [exampleParagraph; exampleBody];
     metaKey := false; ctrlKey := true; altKey := false; shiftKey := false |}.

Definition exampleSettings : LinkPreviewSettings := DEFAULT_SETTINGS ctrl.

Definition exampleWorld : World := initialWorld exampleSettings exampleEnv.

(** A second link of the same document. *)
Definition otherLink : Element :=
  {| nodeId := DocNode 3; isHTMLElement := true; localName := "a";
     classList := ["external-link"];
     attributes := [("href", "https://github.com/ovitrif")];
     href := "https://github.com/ovitrif"; textContent := "repo";
     isDocumentBody := false; descendants := [] |}.

Definition otherHover : MouseEvent :=
  {| target := Some [otherLink; exampleParagraph; exampleBody];
     relatedTarget := Some [exampleParagraph; exampleBody];
     metaKey := false; ctrlKey := true; altKey := false; shiftKey := false |}.

(* ================================================================== *)
(** ** Notions used to state the properties *)

(** The placement rectangle lies inside the viewport shrunk by the margin and
    respects the configured maxima. *)
Definition withinViewport (s : LinkPreviewSettings) (windowWidth windowHeight : Z)
    (b : PreviewBounds) : Prop :=
  margin <= left b /\ margin <= top b
  /\ left b + width b <= windowWidth - margin
  /\ top b + height b <= windowHeight - margin
  /\ width b <= maxPreviewWidth s /\ height b <= maxPreviewHeight s.

(** What the URL parser guarantees of the serialization of an http(s) URL: it
    carries no surrounding white space, keeps an http(s) scheme, and parses
    to itself. *)
Definition serializationStable (U : string -> option string) : Prop :=
  forall s h, hasHttpPrefix s = true -> U s = Some h ->
    trim h = h /\ hasHttpPrefix h = true /\ U h = Some h.

(** The attribute order as the specification lists it. *)
Definition specAttributeNames : list string :=
  ["link-destination"; "data-href"; "data-url"; "href"; "aria-label"; "title"].

(** Host of an absolute URL without user information: what stands between
    [://] and the next [/], [?], [#] or [:]. *)
Fixpoint afterSchemeSeparator (s : string) : string :=
  match s with
  | EmptyString => EmptyString
  | String _ r => if startsWith "://" s then drop 3 s else afterSchemeSeparator r
  end.

Fixpoint takeUntil (stop : ascii -> bool) (s : string) : string :=
  match s with
  | EmptyString => EmptyString
  | String c r => if stop c then EmptyString else String c (takeUntil stop r)
  end.

Definition hostOfUrl (url : string) : string :=
  takeUntil (fun c => Ascii.eqb c "/" || Ascii.eqb c "?" || Ascii.eqb c "#"
                      || Ascii.eqb c ":")%char
            (afterSchemeSeparator url).

Fixpoint endsWith (suffix s : string) : bool :=
  String.eqb suffix s ||
  match s with
  | EmptyString => false
  | String _ r => endsWith suffix r
  end.

(** The host is the known site or one of its subdomains. *)
Definition hostIsGithub (url : string) : bool :=
  String.eqb (hostOfUrl url) "github.com" || endsWith ".github.com" (hostOfUrl url).

(** An anchor below the bottom edge of a 1280 x 800 window, and one above its
    top edge. *)
Definition rectBelowViewport : DOMRect :=
  {| rect_left := 100; rect_top := 900; rect_right := 180; rect_bottom := 920 |}.

Definition rectAboveViewport : DOMRect :=
  {| rect_left := 100; rect_top := -70; rect_right := 180; rect_bottom := -50 |}.

(** A span carrying both a [link-destination] and a [data-href] attribute. *)
Definition twoAttributeSpan : Element :=
  {| nodeId := DocNode 7; isHTMLElement := true; localName := "span";
     classList := []; 
     attributes := [("link-destination", "https://first.example/");
                    ("data-href", "https://second.example/")];
     href := ""; textContent := "label"; isDocumentBody := false;
     descendants := [] |}.

(** A span whose [title] is a URL in capitals and whose [aria-label] is not
    a URL. *)
Definition titledSpan : Element :=
  {| nodeId := DocNode 8; isHTMLElement := true; localName := "span";
     classList := ["cm-url"];
     attributes := [("aria-label", "Example site"); ("title", " HTTPS://example.com ")];
     href := ""; textContent := "Example"; isDocumentBody := false;
     descendants := [] |}.

(** A URL that names the known site in its path only. *)
Definition mirrorUrl : string := "https://example.com/mirror/github.com/readme".

(** The plugin with the modifier requirement switched off (close-on-release
    left on), showing a preview of [exampleLink]. *)
Definition settingsWithoutModifier : LinkPreviewSettings :=
  {| maxPreviewHeight := 960; maxPreviewWidth := 720; hoverDelay := 500;
     requireModifierKey := false; modifierKey := ctrl;
     closeOnModifierRelease := true |}.

Definition visibleWithoutModifier : World :=
  run URL_href_simple [Mouseover exampleHover; TimePasses 600]
    (initialWorld settingsWithoutModifier exampleEnv).

(** No timer of the given kind is pending. *)
Definition noShowTimer (w : World) : Prop :=
  forall t, In t (timers w) -> isShowTimer t = false.

Definition noCleanupTimer (w : World) : Prop :=
  forall t, In t (timers w) -> isCleanupTimer t = false.

(** The controller's invariant: the popups in the document are exactly the
    one the controller holds; a pending show timer is the one [hoverTimeout]
    names and excludes an active preview; a pending cleanup timer is the one
    [cleanupTimeout] names; handles are below the next handle. *)
Record Inv (w : World) : Prop := mkInv {
  inv_panels : attachedPopups w = heldPopups w;
  inv_show : forall t, In t (timers w) -> isShowTimer t = true ->
             hoverTimeout w = Some (tid t) /\ activePreview w = None;
  inv_cleanup : forall t, In t (timers w) -> isCleanupTimer t = true ->
                cleanupTimeout w = Some (tid t);
  inv_hover_kind : forall t, In t (timers w) -> hoverTimeout w = Some (tid t) ->
                   isShowTimer t = true;
  inv_fresh_timers : forall t, In t (timers w) -> (tid t < nextTimerId w)%positive;
  inv_fresh_hover : forall h, hoverTimeout w = Some h -> (h < nextTimerId w)%positive;
  inv_cleanup_kind : forall t, In t (timers w) -> cleanupTimeout w = Some (tid t) ->
                     isCleanupTimer t = true;
  inv_fresh_cleanup : forall c, cleanupTimeout w = Some c -> (c < nextTimerId w)%positive
}.

(** The hover-delay scenarios.  The pointer enters a link ([Mouseover e]) of
    a fresh plugin and stays until [T]; or it stays until [a], moves to
    [(x, y)] leaving the link [l] for [toElement], and nothing else happens
    until [T]. *)
Definition hoverThenStay (U : string -> option string) (e : MouseEvent) (T : Z)
    (w : World) : World :=
  run U [Mouseover e; TimePasses T] w.

Definition hoverThenLeave (U : string -> option string) (e : MouseEvent)
    (l : NodeId) (toElement : option Path) (x y a T : Z) (w : World) : World :=
  run U [Mouseover e; TimePasses a; Mousemove x y; LinkMouseleave l toElement;
         TimePasses T] w.

(** The popup [showPreview] builds first, for the link [l] and [url]. *)
Definition firstPanel (s : LinkPreviewSettings) (ev : Env) (l : NodeId) (url : string)
  : Popup :=
  {| popupId := 0;
     geometry := calculatePreviewBounds s (getBoundingClientRect ev l)
                   (innerWidth ev) (innerHeight ev);
     githubPreview := includes "github.com" url;
     iframeSrc := url; iframeIsLoaded := false;
     loadingText := ""; loadingAttached := true; attached := true |}.

(** The two timers of the scenarios: the show timer armed at time 0 with a
    delay of 500 ms, and the grace timer armed when the pointer leaves at
    time [a]. *)
Definition scenarioShowTimer (l : NodeId) (url : string) : Timer :=
  mkTimer 1 500 (CbShowPreview l url).

Definition scenarioGraceTimer (a : Z) : Timer := mkTimer 2 (a + 300) CbCleanup.

(** The world once the hover armed the show timer, and the world once the
    pointer left at time [a]. *)
Definition armedWorld (s : LinkPreviewSettings) (ev : Env) (l : NodeId) (url : string)
  : World :=
  {| settings := s; activePreview := None; hoverTimeout := Some 1%positive;
     cleanupTimeout := None; lastMouseX := 0; lastMouseY := 0; now := 0;
     timers := [scenarioShowTimer l url]; nextTimerId := 2%positive;
     popups := []; mouseleaveListeners := [l]; env := ev |}.

Definition departedWorld (s : LinkPreviewSettings) (ev : Env) (l : NodeId) (url : string)
    (x y a : Z) : World :=
  {| settings := s; activePreview := None; hoverTimeout := Some 1%positive;
     cleanupTimeout := Some 2%positive; lastMouseX := x; lastMouseY := y; now := a;
     timers := [scenarioShowTimer l url; scenarioGraceTimer a];
     nextTimerId := 3%positive;
     popups := []; mouseleaveListeners := []; env := ev |}.

(** Worked worlds: the show timer armed for [exampleLink]; its preview
    visible; the pointer gone from the link with the preview still up. *)
Definition showPendingWorld : World :=
  step URL_href_simple (Mouseover exampleHover) exampleWorld.

Definition visibleWorld : World :=
  run URL_href_simple [Mouseover exampleHover; TimePasses 600] exampleWorld.

Definition hidePendingWorld : World :=
  run URL_href_simple
    [Mouseover exampleHover; TimePasses 600; LinkMouseleave (DocNode 1) None]
    exampleWorld.

(* ------------------------------------------------------------------ *)
(** *** Further notions *)

Fixpoint hasChar (c : ascii) (s : string) : bool :=
  match s with
  | EmptyString => false
  | String d r => Ascii.eqb d c || hasChar c r
  end.

Fixpoint allWhiteSpace (s : string) : bool :=
  match s with
  | EmptyString => true
  | String c r => isWhiteSpace c && allWhiteSpace r
  end.

(** The text of an inline Markdown link. *)
Definition inlineLink (label url : string) : string :=
  "[" ++ label ++ "](" ++ url ++ ")".

(** A label and a URL that the pattern of [getUrlFromEditorByText] accepts:
    a non-empty label without a closing bracket, a URL made of [http://] or
    [https://] and a non-empty rest without a closing parenthesis. *)
Definition linkWellFormed (label url : string) : Prop :=
  isEmpty label = false /\ hasChar ch_rbracket label = false
  /\ exists tail, (url = "https://" ++ tail \/ url = "http://" ++ tail)
                  /\ isEmpty tail = false /\ hasChar ch_rparen tail = false.

(** What [findLinkElement] walks past without looking for a URL: an element
    below [document.body] that is not an [HTMLElement] or does not match the
    link selector. *)
Definition walkedPast (x : Element) (ancestors : Path) : bool :=
  negb (isDocumentBody x)
  && (negb (isHTMLElement x) || negb (matchesLinkSelector x ancestors)).

Fixpoint allWalkedPast (pre rest : Path) : bool :=
  match pre with
  | [] => true
  | x :: pre' => walkedPast x (pre' ++ rest)%list && allWalkedPast pre' rest
  end.

(** Handles in the queue are pairwise distinct and below the next handle. *)
Definition timersOk (ts : list Timer) (next : positive) : Prop :=
  NoDup (map tid ts) /\ forall t, In t ts -> (tid t < next)%positive.

(** The actions in which a timer callback may run. *)
Definition isTimerAction (a : Action) : bool :=
  match a with
  | TimerFires _ | TimePasses _ => true
  | _ => false
  end.

(** A 1280 x 2000 window, tall enough for a popup of the default height
    below [exampleLinkRect]. *)
Definition tallWindowHeight : Z := 2000.

(** A link three levels above the hovered node: [a > strong > svg]. *)
Definition iconInLink : Element :=
  {| nodeId := DocNode 11; isHTMLElement := false; localName := "svg";
     classList := ["external-link"]; attributes := []; href := "";
     textContent := ""; isDocumentBody := false; descendants := [] |}.

Definition strongInLink : Element :=
  {| nodeId := DocNode 10; isHTMLElement := true; localName := "strong";
     classList := []; attributes := []; href := "";
     textContent := "Example"; isDocumentBody := false; descendants := [] |}.

Definition nestedPath : Path :=
  [iconInLink; strongInLink; exampleLink; exampleParagraph; exampleBody].

(** A live-preview line [See [Example](https://example.org) now] and the
    span CodeMirror renders for the label. *)
Definition editorEnv : Env :=
  {| innerWidth := 1280; innerHeight := 800;
     getBoundingClientRect := getBoundingClientRect exampleEnv;
     elementFromPoint := elementFromPoint exampleEnv;
     editorValue := Some ("See " ++ inlineLink "Example" "https://example.org" ++ " now") |}.

Definition editorSpan : Element :=
  {| nodeId := DocNode 20; isHTMLElement := true; localName := "span";
     classList := ["cm-underline"]; attributes := []; href := "";
     textContent := " Example "; isDocumentBody := false; descendants := [] |}.

(** A span whose [data-href] is not an http(s) URL and whose text is one. *)
Definition mailtoSpan : Element :=
  {| nodeId := DocNode 30; isHTMLElement := true; localName := "span";
     classList := []; attributes := [("data-href", "mailto:someone@example.com")];
     href := ""; textContent := "https://example.com/page"; isDocumentBody := false;
     descendants := [] |}.

(** The pointer rests on [exampleLink] (no modifier held, so no hover was
    handled); then Control goes down. *)
Definition keydownRun (T : Z) : World :=
  run URL_href_simple
    [Mousemove 120 210; Keydown "Control"; TimePasses 500;
     LinkMouseleave (DocNode 1) None; TimePasses T]
    exampleWorld.

(** While the grace timer [t] armed in [w] is still pending in [w']: the
    preview, the layout and the pointer are those of [w]. *)
Definition gracePending (w : World) (t : Timer) (w' : World) : Prop :=
  Inv w' /\ timersOk (timers w') (nextTimerId w')
  /\ activePreview w' = activePreview w /\ env w' = env w
  /\ lastMouseX w' = lastMouseX w /\ lastMouseY w' = lastMouseY w
  /\ In t (timers w').

(** Once it has fired: the preview survived if the pointer was over the
    popup or the link, and is gone otherwise. *)
Definition graceOutcome (w w' : World) : Prop :=
  noShowTimer w' /\ noCleanupTimer w'
  /\ if isMouseOverPreviewOrLink w
     then activePreview w' = activePreview w /\ attachedPopups w' = attachedPopups w
     else activePreview w' = None /\ attachedPopups w' = [].

(** The targets of the popups built so far, oldest first. *)
Definition popupUrls (w : World) : list string := map iframeSrc (popups w).

(** The popup [p] shows its content: its iframe carries [is-loaded] and the
    loading indicator is gone. *)
Definition popupLoaded (p : nat) (w : World) : Prop :=
  forall q, In q (popups w) -> popupId q = p ->
    iframeIsLoaded q = true /\ loadingAttached q = false.

(** The pointer moves from a link into the popup of the active preview. *)
Definition movesIntoPopup (toElement : option Path) (w : World) : bool :=
  match toElement, activePreview w with
  | Some t, Some ap => contains (PopupNode (element ap)) t
  | _, _ => false
  end.

(** An element the ancestor walk of [extractUrlFromElement] passes without a
    candidate: below [document.body], not an anchor with an [href], and
    without the [external-link] and [cm-link] classes. *)
Definition plainAncestor (x : Element) : bool :=
  negb (isDocumentBody x)
  && negb (isHTMLAnchorElement x && negb (isEmpty (href x)))
  && negb (hasClass "external-link" x || hasClass "cm-link" x).

(* ================================================================== *)
(** ** String facts *)

Lemma startsWith_app (p b : string) : startsWith p (p ++ b) = true.
Proof.
  induction p as [|c p IH]; simpl.
  - reflexivity.
  - rewrite Ascii.eqb_refl. exact IH.
Qed.

Lemma startsWith_inv (p s : string) :
  startsWith p s = true -> exists b, s = p ++ b.
Proof.
  revert s. induction p as [|c p IH]; intros s H.
  - exists s. reflexivity.
  - destruct s as [|d s]; simpl in H; [discriminate|].
    apply andb_true_iff in H. destruct H as [Hc Hp].
    apply Ascii.eqb_eq in Hc. subst d.
    destruct (IH _ Hp) as [b ->]. exists b. reflexivity.
Qed.

(** [includes] is the substring relation. *)
Lemma includes_spec (sub s : string) :
  includes sub s = true <-> exists a b, s = a ++ sub ++ b.
Proof.
  split.
  - induction s as [|c s IH]; simpl; intros H.
    + rewrite orb_false_r in H. apply startsWith_inv in H.
      destruct H as [b Hb]. exists EmptyString, b. exact Hb.
    + apply orb_true_iff in H. destruct H as [H|H].
      * apply startsWith_inv in H. destruct H as [b Hb].
        exists EmptyString, b. exact Hb.
      * destruct (IH H) as [a [b ->]]. exists (String c a), b. reflexivity.
  - intros [a [b ->]]. induction a as [|c a IH].
    + simpl. destruct (sub ++ b) eqn:E; simpl; rewrite <- E, startsWith_app; reflexivity.
    + simpl. rewrite IH. apply orb_true_r.
Qed.

Lemma trimEnd_noWhiteSpace (s : string) :
  hasWhiteSpace s = false -> trimEnd s = s.
Proof.
  induction s as [|c s IH]; simpl; intros H.
  - reflexivity.
  - apply orb_false_iff in H. destruct H as [Hc Hs].
    rewrite (IH Hs), Hc. destruct s; reflexivity.
Qed.

Lemma trim_noWhiteSpace (s : string) :
  hasWhiteSpace s = false -> trim s = s.
Proof.
  intros H. unfold trim.
  assert (E : trimStart s = s).
  { destruct s as [|c s]; simpl in *; [reflexivity|].
    apply orb_false_iff in H. destruct H as [Hc _]. rewrite Hc. reflexivity. }
  rewrite E. apply trimEnd_noWhiteSpace. exact H.
Qed.

Lemma hasWhiteSpace_app (a b : string) :
  hasWhiteSpace (a ++ b) = hasWhiteSpace a || hasWhiteSpace b.
Proof.
  induction a as [|c a IH]; simpl.
  - reflexivity.
  - rewrite IH. apply orb_assoc.
Qed.

Lemma hasWhiteSpace_drop (n : nat) (s : string) :
  hasWhiteSpace s = false -> hasWhiteSpace (drop n s) = false.
Proof.
  revert s. induction n as [|n IH]; intros s H; simpl.
  - exact H.
  - destruct s as [|c s]; [reflexivity|].
    simpl in H. apply orb_false_iff in H. apply IH. apply H.
Qed.

Lemma hasSlash_app_slash (a : string) : hasSlash (a ++ "/") = true.
Proof.
  induction a as [|c a IH]; simpl.
  - reflexivity.
  - rewrite IH. apply orb_true_r.
Qed.

Lemma withPath_fixed (r : string) : withPath (withPath r) = withPath r.
Proof.
  unfold withPath. destruct (hasSlash r) eqn:E.
  - rewrite E. reflexivity.
  - rewrite hasSlash_app_slash. reflexivity.
Qed.

Lemma withPath_noWhiteSpace (r : string) :
  hasWhiteSpace r = false -> hasWhiteSpace (withPath r) = false.
Proof.
  intros H. unfold withPath. destruct (hasSlash r); [exact H|].
  rewrite hasWhiteSpace_app, H. reflexivity.
Qed.

Lemma withPath_nonEmpty (r : string) : isEmpty (withPath r) = false.
Proof.
  unfold withPath. destruct (hasSlash r) eqn:E.
  - destruct r; [discriminate E | reflexivity].
  - destruct r; reflexivity.
Qed.

Lemma URL_href_simple_https (r : string) :
  hasWhiteSpace r = false ->
  URL_href_simple ("https://" ++ withPath r) = Some ("https://" ++ withPath r).
Proof.
  intros H. pose proof (withPath_noWhiteSpace r H) as Hn.
  pose proof (withPath_nonEmpty r) as He. pose proof (withPath_fixed r) as Hf.
  remember (withPath r) as p. unfold URL_href_simple.
  change (hasWhiteSpace ("https://" ++ p)) with (hasWhiteSpace p).
  rewrite Hn.
  change (startsWithIgnoreCase "https://" ("https://" ++ p)) with true.
  change (drop 8 ("https://" ++ p)) with p.
  cbv iota. rewrite He, Hf. reflexivity.
Qed.

Lemma URL_href_simple_http (r : string) :
  hasWhiteSpace r = false ->
  URL_href_simple ("http://" ++ withPath r) = Some ("http://" ++ withPath r).
Proof.
  intros H. pose proof (withPath_noWhiteSpace r H) as Hn.
  pose proof (withPath_nonEmpty r) as He. pose proof (withPath_fixed r) as Hf.
  remember (withPath r) as p. unfold URL_href_simple.
  change (hasWhiteSpace ("http://" ++ p)) with (hasWhiteSpace p).
  rewrite Hn.
  change (startsWithIgnoreCase "https://" ("http://" ++ p)) with false.
  change (startsWithIgnoreCase "http://" ("http://" ++ p)) with true.
  change (drop 7 ("http://" ++ p)) with p.
  cbv iota. rewrite He, Hf. reflexivity.
Qed.

(** The stand-in parser has the three properties asked of the platform's. *)
Lemma URL_href_simple_stable : serializationStable URL_href_simple.
Proof.
  intros s h _ H. unfold URL_href_simple in H.
  destruct (hasWhiteSpace s) eqn:Hws; [discriminate|].
  pose proof (hasWhiteSpace_drop 8 s Hws) as Hd8.
  pose proof (hasWhiteSpace_drop 7 s Hws) as Hd7.
  remember (drop 8 s) as r8. remember (drop 7 s) as r7.
  destruct (startsWithIgnoreCase "https://" s).
  - destruct (isEmpty r8); [discriminate|].
    assert (E : h = "https://" ++ withPath r8) by congruence. subst h.
    pose proof (withPath_noWhiteSpace r8 Hd8) as Hn.
    split; [|split].
    + apply trim_noWhiteSpace.
      change (hasWhiteSpace ("https://" ++ withPath r8)) with (hasWhiteSpace (withPath r8)).
      exact Hn.
    + reflexivity.
    + apply URL_href_simple_https. exact Hd8.
  - destruct (startsWithIgnoreCase "http://" s); [|discriminate].
    destruct (isEmpty r7); [discriminate|].
    assert (E : h = "http://" ++ withPath r7) by congruence. subst h.
    pose proof (withPath_noWhiteSpace r7 Hd7) as Hn.
    split; [|split].
    + apply trim_noWhiteSpace.
      change (hasWhiteSpace ("http://" ++ withPath r7)) with (hasWhiteSpace (withPath r7)).
      exact Hn.
    + reflexivity.
    + apply URL_href_simple_http. exact Hd7.
Qed.

(* ================================================================== *)
(** ** Bounds calculator: containment *)

(** C3 (amended). For every anchor rectangle, viewport size and settings, the
    rectangle computed by [calculatePreviewBounds] has [left >= margin],
    [left + width <= viewportWidth - margin], [width <= maxPreviewWidth] and
    [height <= maxPreviewHeight]; [top >= margin] holds when the anchor's
    bottom edge is not above the viewport ([rect.bottom >= 0]) and
    [top + height <= viewportHeight - margin] holds when the anchor's top edge
    is not below it ([rect.top <= viewportHeight]). *)
Theorem calculatePreviewBounds_contained :
  forall (s : LinkPreviewSettings) (r : DOMRect) (vw vh : Z),
    let b := calculatePreviewBounds s r vw vh in
    margin <= left b
    /\ left b + width b <= vw - margin
    /\ width b <= maxPreviewWidth s
    /\ height b <= maxPreviewHeight s
    /\ (0 <= rect_bottom r -> margin <= top b)
    /\ (rect_top r <= vh -> top b + height b <= vh - margin).
Proof.
  intros s r vw vh. unfold calculatePreviewBounds, margin. cbn zeta. cbn [left top width height].
  repeat split.
  - lia.
  - destruct (Z.gtb_spec (rect_left r + Z.min (maxPreviewWidth s) (vw - 5 * 2)) (vw - 5)); lia.
  - lia.
  - lia.
  - intros Hb.
    destruct ((vh - rect_bottom r - 5 <? Z.min (maxPreviewHeight s) (vh - 5 * 2))
              && (rect_top r - 5 >? vh - rect_bottom r - 5)); lia.
  - intros Ht.
    destruct ((vh - rect_bottom r - 5 <? Z.min (maxPreviewHeight s) (vh - 5 * 2))
              && (rect_top r - 5 >? vh - rect_bottom r - 5)); lia.
Qed.

(** With both side conditions the six bounds of the claim hold together. *)
Lemma calculatePreviewBounds_contained_witness :
  withinViewport exampleSettings 1280 800
    (calculatePreviewBounds exampleSettings exampleLinkRect 1280 800).
Proof.
  pose proof (calculatePreviewBounds_contained exampleSettings exampleLinkRect 1280 800)
    as [H1 [H2 [H3 [H4 [H5 H6]]]]].
  unfold withinViewport.
  repeat split; [exact H1 | apply H5; simpl; lia | exact H2 | apply H6; simpl; lia
                | exact H3 | exact H4].
Defined.

(** C3 as stated fails for an anchor that lies below the viewport: the popup
    is placed above the anchor and ends below [viewportHeight - margin]. *)
Lemma calculatePreviewBounds_escapes_below :
  ~ withinViewport exampleSettings 1280 800
      (calculatePreviewBounds exampleSettings rectBelowViewport 1280 800).
Proof.
  unfold withinViewport. cbn. intros [_ [_ [_ [H _]]]]. lia.
Qed.

(** The same failure at the top edge: an anchor above the viewport puts the
    popup's top above [margin]. *)
Lemma calculatePreviewBounds_escapes_above :
  top (calculatePreviewBounds exampleSettings rectAboveViewport 1280 800) = -45.
Proof. reflexivity. Qed.

(* ================================================================== *)
(** ** URL extractor *)

Section Extractor.

Variable URL_href : string -> option string.

Lemma normalizeUrl_prefix (u v : string) :
  normalizeUrl URL_href u = Some v ->
  hasHttpPrefix (trim u) = true /\ URL_href (trim u) = Some v.
Proof.
  unfold normalizeUrl. destruct (hasHttpPrefix (trim u)); simpl; intros H.
  - split; [reflexivity | exact H].
  - discriminate.
Qed.

(** C6. Provided the platform's URL parser serializes stably
    ([serializationStable]), normalization is idempotent: whenever
    [normalizeUrl u] succeeds with [v], [normalizeUrl v] is [v] again; and
    [normalizeUrl] is absent for every input whose trimmed form lacks the
    case-insensitive [http://] or [https://] prefix or does not parse. *)
Theorem normalizeUrl_idempotent :
  serializationStable URL_href ->
  (forall u v, normalizeUrl URL_href u = Some v -> normalizeUrl URL_href v = Some v)
  /\ (forall u, hasHttpPrefix (trim u) = false -> normalizeUrl URL_href u = None)
  /\ (forall u, URL_href (trim u) = None -> normalizeUrl URL_href u = None).
Proof.
  intros Hstable. split; [|split].
  - intros u v H. apply normalizeUrl_prefix in H. destruct H as [Hp Hu].
    destruct (Hstable _ _ Hp Hu) as [Ht [Hp' Hv]].
    unfold normalizeUrl. rewrite Ht, Hp'. exact Hv.
  - intros u H. unfold normalizeUrl. rewrite H. reflexivity.
  - intros u H. unfold normalizeUrl. rewrite H.
    destruct (hasHttpPrefix (trim u)); reflexivity.
Qed.

Lemma firstAttributeUrl_app (pre post : list string) (el : Element) :
  (forall b, In b pre -> truthy (attributeUrl URL_href b el) = false) ->
  firstAttributeUrl URL_href (pre ++ post) el = firstAttributeUrl URL_href post el.
Proof.
  induction pre as [|b pre IH]; intros H; simpl.
  - reflexivity.
  - rewrite (H b (or_introl eq_refl)). apply IH.
    intros c Hc. apply H. right. exact Hc.
Qed.

(** C7 (amended). For a native anchor, [extractUrlFromElement] returns its
    resolved [href] verbatim, before any attribute is looked at.  For every
    other element it inspects the element's own attributes in the fixed
    order data-href, data-url, href, aria-label, title (there is no
    link-destination attribute in the list) and returns the normalized URL of
    the first one whose value normalizes to a non-empty URL. *)
Theorem extractUrlFromElement_priority :
  forall (el : Element) (ancestors : Path),
    attributeNames = ["data-href"; "data-url"; "href"; "aria-label"; "title"]
    /\ (isHTMLAnchorElement el = true ->
        extractUrlFromElement URL_href el ancestors = Some (href el))
    /\ (isHTMLAnchorElement el = false ->
        forall (pre : list string) (attr : string) (post : list string) (u : string),
          attributeNames = (pre ++ attr :: post)%list ->
          (forall b, In b pre -> truthy (attributeUrl URL_href b el) = false) ->
          attributeUrl URL_href attr el = Some u -> isEmpty u = false ->
          extractUrlFromElement URL_href el ancestors = Some u).
Proof.
  intros el ancestors. split; [reflexivity|]. split.
  - intros Ha. unfold extractUrlFromElement. rewrite Ha. reflexivity.
  - intros Ha pre attr post u Hnames Hpre Hattr Hu.
    unfold extractUrlFromElement. rewrite Ha, Hnames.
    rewrite (firstAttributeUrl_app pre (attr :: post) el Hpre).
    simpl. rewrite Hattr. simpl. rewrite Hu. reflexivity.
Qed.

End Extractor.

(** The stable stand-in parser makes [normalizeUrl] idempotent, here on an
    input with surrounding blanks and a scheme in capitals. *)
Lemma normalizeUrl_idempotent_witness :
  normalizeUrl URL_href_simple "  HTTPS://example.com " = Some "https://example.com/"
  /\ normalizeUrl URL_href_simple "https://example.com/" = Some "https://example.com/".
Proof.
  split; [reflexivity|].
  apply (proj1 (normalizeUrl_idempotent URL_href_simple URL_href_simple_stable)
           "  HTTPS://example.com ").
  reflexivity.
Defined.

(** On [titledSpan] the aria-label does not normalize and the title does: the
    title's normalized URL is returned. *)
Lemma extractUrlFromElement_priority_witness :
  extractUrlFromElement URL_href_simple titledSpan [] = Some "https://example.com/".
Proof.
  apply (proj2 (proj2 (extractUrlFromElement_priority URL_href_simple titledSpan []))
           eq_refl ["data-href"; "data-url"; "href"; "aria-label"] "title" []).
  - reflexivity.
  - intros b Hb. simpl in Hb.
    destruct Hb as [<-|[<-|[<-|[<-|[]]]]]; reflexivity.
  - reflexivity.
  - reflexivity.
Defined.

(** C7 as stated fails: with the attribute order of the specification the
    [link-destination] value of [twoAttributeSpan] would win, but the code
    never reads that attribute and returns the [data-href] value. *)
Lemma extractUrlFromElement_ignores_link_destination :
  firstAttributeUrl URL_href_simple specAttributeNames twoAttributeSpan
    = Some "https://first.example/"
  /\ extractUrlFromElement URL_href_simple twoAttributeSpan []
    = Some "https://second.example/"
  /\ extractUrlFromElement URL_href_simple twoAttributeSpan []
    <> firstAttributeUrl URL_href_simple specAttributeNames twoAttributeSpan.
Proof.
  split; [reflexivity|]. split; [reflexivity|]. discriminate.
Qed.

(* ================================================================== *)
(** ** Panel construction and the embedded content's failure *)

Lemma attachedPopups_update (p : nat) (f : Popup -> Popup) (ps : list Popup) :
  (forall q, attached (f q) = attached q) ->
  (forall q, popupId (f q) = popupId q) ->
  map popupId (filter attached (updatePopup p f ps)) = map popupId (filter attached ps).
Proof.
  intros Ha Hi. induction ps as [|q ps IH]; simpl.
  - reflexivity.
  - destruct (Nat.eqb (popupId q) p).
    + rewrite Ha. destruct (attached q); simpl; [rewrite Hi|]; rewrite IH; reflexivity.
    + destruct (attached q); simpl; rewrite IH; reflexivity.
Qed.

(** C8 (amended). [showPreview] appends exactly one popup, whose iframe
    targets the given URL, and its wrapper carries the cropping class
    [github-preview] if and only if the URL string contains [github.com] as a
    substring, wherever in the URL that is. *)
Theorem showPreview_github_class :
  forall (linkElement : NodeId) (url : string) (w : World),
  exists p : Popup,
    popups (showPreview linkElement url w) = (popups w ++ [p])%list
    /\ iframeSrc p = url
    /\ attached p = true
    /\ (githubPreview p = true <-> exists a b : string, url = a ++ "github.com" ++ b).
Proof.
  intros l url w. eexists. split; [reflexivity|]. cbn.
  split; [reflexivity|]. split; [reflexivity|]. apply includes_spec.
Qed.

(** C8 as stated fails: [mirrorUrl] has the host [example.com], which is not
    the known site, and its popup still receives the cropping class. *)
Lemma showPreview_github_class_by_substring :
  hostOfUrl mirrorUrl = "example.com"
  /\ hostIsGithub mirrorUrl = false
  /\ map githubPreview (popups (showPreview (DocNode 1) mirrorUrl exampleWorld)) = [true].
Proof. repeat split. Qed.

(** C9. When the iframe of a popup reports a load failure, the world changes
    in its popups only, and there only in the text of that popup's loading
    indicator, which becomes the failure notice: the active preview, both
    timer handles, the timer queue, the listeners and the set of attached
    popups are what they were. *)
Theorem iframe_error_only_replaces_text :
  forall (p : nat) (w : World),
    let w' := onIframeError p w in
    w' = set_popups (popups w') w
    /\ activePreview w' = activePreview w
    /\ hoverTimeout w' = hoverTimeout w
    /\ cleanupTimeout w' = cleanupTimeout w
    /\ timers w' = timers w
    /\ attachedPopups w' = attachedPopups w
    /\ popups w' =
       map (fun q => if Nat.eqb (popupId q) p
                     then mkPopup (popupId q) (geometry q) (githubPreview q) (iframeSrc q)
                            (iframeIsLoaded q) failureNotice (loadingAttached q) (attached q)
                     else q)
           (popups w).
Proof.
  intros p w. cbn zeta. unfold onIframeError. destruct w. cbn.
  repeat split. apply attachedPopups_update; reflexivity.
Qed.

(* ================================================================== *)
(** ** The controller's invariant *)

(** Splits conjunctions only (an [Inv] stays whole). *)
Ltac split_and := repeat match goal with |- _ /\ _ => split end.

Lemma isShow_not_cleanup (t : Timer) : isShowTimer t = true -> isCleanupTimer t = false.
Proof. unfold isShowTimer, isCleanupTimer. destruct (callback t); congruence. Qed.

Lemma In_cleared (id : positive) (ts : list Timer) (t : Timer) :
  In t (filter (fun t => negb (Pos.eqb (tid t) id)) ts) -> In t ts /\ tid t <> id.
Proof.
  intros H. apply filter_In in H. destruct H as [H1 H2]. split; [exact H1|].
  apply negb_true_iff in H2. apply Pos.eqb_neq in H2. exact H2.
Qed.

(** Dropping timers from the queue keeps the invariant. *)
Lemma Inv_fewer_timers (w : World) (ts : list Timer) :
  Inv w -> (forall t, In t ts -> In t (timers w)) -> Inv (set_timers ts w).
Proof.
  intros [Hp Hs Hc Hk Hft Hfh Hck Hfc] Hsub. destruct w. cbn in *.
  constructor; cbn; intros; eauto.
Qed.

Lemma Inv_clearTimeout (id : positive) (w : World) : Inv w -> Inv (clearTimeout id w).
Proof.
  intros H. apply Inv_fewer_timers; [exact H|].
  intros t Ht. apply In_cleared in Ht. apply Ht.
Qed.

Lemma Inv_clearIfSet (h : option positive) (w : World) : Inv w -> Inv (clearIfSet h w).
Proof. destruct h; simpl; [apply Inv_clearTimeout | trivial]. Qed.

(** After [clearTimeout] of the handle in [hoverTimeout] no show timer is
    left, after that of [cleanupTimeout] no cleanup timer. *)
Lemma noShowTimer_cleared (w : World) (h : positive) :
  Inv w -> hoverTimeout w = Some h -> noShowTimer (clearTimeout h w).
Proof.
  intros [Hp Hs Hc Hk Hft Hfh Hck Hfc] Hh t Ht. destruct w. cbn in *.
  apply In_cleared in Ht. destruct Ht as [Hin Hne].
  destruct (isShowTimer t) eqn:E; [|reflexivity].
  destruct (Hs t Hin E) as [Heq _]. congruence.
Qed.

Lemma noShowTimer_unset (w : World) :
  Inv w -> hoverTimeout w = None -> noShowTimer w.
Proof.
  intros [Hp Hs Hc Hk Hft Hfh Hck Hfc] Hh t Ht.
  destruct (isShowTimer t) eqn:E; [|reflexivity].
  destruct (Hs t Ht E) as [Heq _]. congruence.
Qed.

Lemma noShowTimer_active (w : World) :
  Inv w -> isSome (activePreview w) = true -> noShowTimer w.
Proof.
  intros [Hp Hs Hc Hk Hft Hfh Hck Hfc] Ha t Ht.
  destruct (isShowTimer t) eqn:E; [|reflexivity].
  destruct (Hs t Ht E) as [_ Hn]. rewrite Hn in Ha. discriminate.
Qed.

Lemma noCleanupTimer_cleared (w : World) (c : positive) :
  Inv w -> cleanupTimeout w = Some c -> noCleanupTimer (clearTimeout c w).
Proof.
  intros [Hp Hs Hc Hk Hft Hfh Hck Hfc] Hh t Ht. destruct w. cbn in *.
  apply In_cleared in Ht. destruct Ht as [Hin Hne].
  destruct (isCleanupTimer t) eqn:E; [|reflexivity].
  specialize (Hc t Hin E). congruence.
Qed.

Lemma noCleanupTimer_unset (w : World) :
  Inv w -> cleanupTimeout w = None -> noCleanupTimer w.
Proof.
  intros [Hp Hs Hc Hk Hft Hfh Hck Hfc] Hh t Ht.
  destruct (isCleanupTimer t) eqn:E; [|reflexivity].
  specialize (Hc t Ht E). congruence.
Qed.

Lemma noShowTimer_clearIfSet (w : World) :
  Inv w -> noShowTimer (clearIfSet (hoverTimeout w) w).
Proof.
  intros H. destruct (hoverTimeout w) eqn:E; simpl.
  - apply noShowTimer_cleared; assumption.
  - apply noShowTimer_unset; assumption.
Qed.

(** Forgetting a handle is sound once its timers are gone. *)
Lemma Inv_unset_hover (w : World) :
  Inv w -> noShowTimer w -> Inv (set_hoverTimeout None w).
Proof.
  intros [Hp Hs Hc Hk Hft Hfh Hck Hfc] Hno. destruct w. cbn in *.
  constructor; cbn; intros; eauto; try discriminate.
  rewrite (Hno t H) in H0. discriminate.
Qed.

Lemma Inv_unset_cleanup (w : World) :
  Inv w -> noCleanupTimer w -> Inv (set_cleanupTimeout None w).
Proof.
  intros [Hp Hs Hc Hk Hft Hfh Hck Hfc] Hno. destruct w. cbn in *.
  constructor; cbn; intros; eauto; try discriminate.
  rewrite (Hno t H) in H0. discriminate.
Qed.

Lemma Inv_cancelCleanupTimer (w : World) : Inv w -> Inv (cancelCleanupTimer w).
Proof.
  intros H. unfold cancelCleanupTimer. destruct (cleanupTimeout w) eqn:E; [|exact H].
  apply Inv_unset_cleanup.
  - apply Inv_clearTimeout. exact H.
  - apply noCleanupTimer_cleared; assumption.
Qed.

Lemma attachedPopups_detach (p : nat) (ps : list Popup) :
  map popupId (filter attached (updatePopup p detach ps))
  = filter (fun i => negb (Nat.eqb i p)) (map popupId (filter attached ps)).
Proof.
  induction ps as [|q ps IH]; simpl.
  - reflexivity.
  - destruct (Nat.eqb (popupId q) p) eqn:E; simpl.
    + destruct (attached q); simpl; [rewrite E; simpl|]; exact IH.
    + destruct (attached q); simpl; [rewrite E; simpl; rewrite IH; reflexivity | exact IH].
Qed.

(** The first step of [cleanupActivePreview]: the popup held, if any, leaves
    the document and the controller. *)
Lemma Inv_release (w : World) :
  Inv w ->
  let w1 := match activePreview w with
            | Some ap => set_activePreview None (runCleanup (element ap) w)
            | None => w
            end in
  Inv w1 /\ activePreview w1 = None /\ attachedPopups w1 = []
  /\ timers w1 = timers w /\ hoverTimeout w1 = hoverTimeout w
  /\ cleanupTimeout w1 = cleanupTimeout w.
Proof.
  intros HI. pose proof HI as [Hp Hs Hc Hk Hft Hfh Hck Hfc]. cbn zeta.
  destruct (activePreview w) as [ap|] eqn:Ea.
  - assert (Hatt : attachedPopups (set_activePreview None (runCleanup (element ap) w)) = []).
    { unfold attachedPopups, heldPopups in *. rewrite Ea in Hp.
      change (popups (set_activePreview None (runCleanup (element ap) w)))
        with (updatePopup (element ap) detach (popups w)).
      rewrite attachedPopups_detach, Hp. simpl. rewrite Nat.eqb_refl. reflexivity. }
    split; [|destruct w; cbn in *; repeat split; exact Hatt].
    constructor.
    + rewrite Hatt. destruct w; reflexivity.
    + intros t Ht Hshow. destruct w; cbn in *.
      destruct (Hs t Ht Hshow) as [_ Hn]. congruence.
    + destruct w; cbn in *. exact Hc.
    + destruct w; cbn in *. exact Hk.
    + destruct w; cbn in *. exact Hft.
    + destruct w; cbn in *. exact Hfh.
    + destruct w; cbn in *. exact Hck.
    + destruct w; cbn in *. exact Hfc.
  - unfold heldPopups in Hp. rewrite Ea in Hp.
    split; [exact HI|]. split; [exact Ea|]. split; [exact Hp|]. repeat split.
Qed.

(** [cleanupActivePreview] leaves the controller idle. *)
Lemma cleanupActivePreview_idle (w : World) :
  Inv w ->
  Inv (cleanupActivePreview w)
  /\ activePreview (cleanupActivePreview w) = None
  /\ hoverTimeout (cleanupActivePreview w) = None
  /\ cleanupTimeout (cleanupActivePreview w) = None
  /\ noShowTimer (cleanupActivePreview w)
  /\ noCleanupTimer (cleanupActivePreview w)
  /\ attachedPopups (cleanupActivePreview w) = [].
Proof.
  intros HI. unfold cleanupActivePreview.
  destruct (Inv_release w HI) as [H1 [Ha1 [Hatt1 _]]].
  set (w1 := match activePreview w with
             | Some ap => set_activePreview None (runCleanup (element ap) w)
             | None => w
             end) in *.
  clearbody w1. cbv zeta.
  assert (H2 : let w2 := match hoverTimeout w1 with
                         | Some h => set_hoverTimeout None (clearTimeout h w1)
                         | None => w1
                         end in
               Inv w2 /\ activePreview w2 = None /\ hoverTimeout w2 = None
               /\ noShowTimer w2 /\ attachedPopups w2 = []).
  { cbv zeta. destruct (hoverTimeout w1) as [h|] eqn:Eh.
    - pose proof (noShowTimer_cleared w1 h H1 Eh) as Hno.
      split; [apply Inv_unset_hover; [apply Inv_clearTimeout; exact H1 | exact Hno]|].
      destruct w1; cbn in *. split_and; first [assumption | reflexivity | exact Hno].
    - split_and; try assumption. apply noShowTimer_unset; assumption. }
  set (w2 := match hoverTimeout w1 with
             | Some h => set_hoverTimeout None (clearTimeout h w1)
             | None => w1
             end) in *.
  clearbody w2. cbv zeta in H2. destruct H2 as [HI2 [Ha2 [Hh2 [Hno2 Hatt2]]]].
  destruct (cleanupTimeout w2) as [c|] eqn:Ec.
  - pose proof (noCleanupTimer_cleared w2 c HI2 Ec) as Hnc.
    split; [apply Inv_unset_cleanup; [apply Inv_clearTimeout; exact HI2 | exact Hnc]|].
    destruct w2; cbn in *. split_and; try assumption; try reflexivity.
    intros t Ht. apply In_cleared in Ht. apply Hno2. apply Ht.
  - split_and; try assumption. apply noCleanupTimer_unset; assumption.
Qed.

Lemma Inv_cleanupActivePreview (w : World) : Inv w -> Inv (cleanupActivePreview w).
Proof. intros H. apply (cleanupActivePreview_idle w H). Qed.

(** Arming a timer that is neither a show nor a cleanup timer. *)
Lemma Inv_setTimeout_settle (p : nat) (delay : Z) (w : World) :
  Inv w -> Inv (snd (setTimeout (CbSettle p) delay w)).
Proof.
  intros [Hp Hs Hc Hk Hft Hfh Hck Hfc]. destruct w. cbn in *.
  constructor; cbn.
  - exact Hp.
  - intros t Ht Hshow. apply in_app_or in Ht. destruct Ht as [Ht|[<-|[]]]; eauto.
    discriminate.
  - intros t Ht Hcl. apply in_app_or in Ht. destruct Ht as [Ht|[<-|[]]]; eauto.
    discriminate.
  - intros t Ht Hh. apply in_app_or in Ht. destruct Ht as [Ht|[<-|[]]]; eauto.
    cbn in Hh. specialize (Hfh _ Hh). lia.
  - intros t Ht. apply in_app_or in Ht. destruct Ht as [Ht|[<-|[]]].
    + specialize (Hft t Ht). lia.
    + cbn. lia.
  - intros h Hh. specialize (Hfh h Hh). lia.
  - intros t Ht Hh. apply in_app_or in Ht. destruct Ht as [Ht|[<-|[]]]; eauto.
    cbn in Hh. specialize (Hfc _ Hh). lia.
  - intros c Hh. specialize (Hfc c Hh). lia.
Qed.

Lemma Inv_startCleanupTimer (w : World) : Inv w -> Inv (startCleanupTimer w).
Proof.
  intros HI. unfold startCleanupTimer.
  assert (H1 : Inv (clearIfSet (cleanupTimeout w) w)) by (apply Inv_clearIfSet; exact HI).
  assert (Hno : noCleanupTimer (clearIfSet (cleanupTimeout w) w)).
  { destruct (cleanupTimeout w) eqn:E; simpl.
    - apply noCleanupTimer_cleared; assumption.
    - apply noCleanupTimer_unset; assumption. }
  set (w1 := clearIfSet (cleanupTimeout w) w) in *.
  destruct H1 as [Hp Hs Hc Hk Hft Hfh Hck Hfc]. destruct w1. cbn in *.
  constructor; cbn.
  - exact Hp.
  - intros t Ht Hshow. apply in_app_or in Ht. destruct Ht as [Ht|[<-|[]]]; eauto.
    discriminate.
  - intros t Ht Hcl. apply in_app_or in Ht. destruct Ht as [Ht|[<-|[]]].
    + rewrite (Hno t Ht) in Hcl. discriminate.
    + reflexivity.
  - intros t Ht Hh. apply in_app_or in Ht. destruct Ht as [Ht|[<-|[]]]; eauto.
    cbn in Hh. specialize (Hfh _ Hh). lia.
  - intros t Ht. apply in_app_or in Ht. destruct Ht as [Ht|[<-|[]]].
    + specialize (Hft t Ht). lia.
    + cbn. lia.
  - intros h Hh. specialize (Hfh h Hh). lia.
  - intros t Ht Hh. apply in_app_or in Ht. destruct Ht as [Ht|[<-|[]]].
    + injection Hh as Hh. specialize (Hft t Ht). lia.
    + reflexivity.
  - intros c Hh. injection Hh as <-. lia.
Qed.

(** Arming the show timer needs an idle controller: no active preview and no
    show timer left. *)
Lemma Inv_armShowTimer (l : NodeId) (url : string) (w : World) :
  Inv w -> activePreview w = None -> noShowTimer w -> Inv (armShowTimer l url w).
Proof.
  intros [Hp Hs Hc Hk Hft Hfh Hck Hfc] Ha Hno. unfold armShowTimer. destruct w. cbn in *.
  constructor; cbn.
  - exact Hp.
  - intros t Ht Hshow. apply in_app_or in Ht. destruct Ht as [Ht|[<-|[]]].
    + rewrite (Hno t Ht) in Hshow. discriminate.
    + split; [reflexivity | exact Ha].
  - intros t Ht Hcl. apply in_app_or in Ht. destruct Ht as [Ht|[<-|[]]]; eauto.
    discriminate.
  - intros t Ht Hh. apply in_app_or in Ht. destruct Ht as [Ht|[<-|[]]].
    + injection Hh as Hh. specialize (Hft t Ht). lia.
    + reflexivity.
  - intros t Ht. apply in_app_or in Ht. destruct Ht as [Ht|[<-|[]]].
    + specialize (Hft t Ht). lia.
    + cbn. lia.
  - intros h Hh. injection Hh as <-. lia.
  - intros t Ht Hh. apply in_app_or in Ht. destruct Ht as [Ht|[<-|[]]]; eauto.
    cbn in Hh. specialize (Hfc _ Hh). lia.
  - intros c Hh. specialize (Hfc c Hh). lia.
Qed.

(** [showPreview] needs the same: it does not look at [activePreview]. *)
Lemma Inv_showPreview (l : NodeId) (url : string) (w : World) :
  Inv w -> activePreview w = None -> noShowTimer w -> Inv (showPreview l url w).
Proof.
  intros [Hp Hs Hc Hk Hft Hfh Hck Hfc] Ha Hno.
  unfold attachedPopups, heldPopups in Hp. rewrite Ha in Hp.
  unfold showPreview. destruct w. cbn in *.
  constructor; cbn; eauto.
  - unfold attachedPopups, heldPopups. cbn.
    rewrite filter_app, map_app, Hp. reflexivity.
  - intros t Ht Hshow. rewrite (Hno t Ht) in Hshow. discriminate.
Qed.

(** The invariant reads six fields only. *)
Lemma Inv_same (w w' : World) :
  popups w' = popups w -> activePreview w' = activePreview w ->
  hoverTimeout w' = hoverTimeout w -> cleanupTimeout w' = cleanupTimeout w ->
  timers w' = timers w -> nextTimerId w' = nextTimerId w ->
  Inv w -> Inv w'.
Proof.
  intros E1 E2 E3 E4 E5 E6 [Hp Hs Hc Hk Hft Hfh Hck Hfc].
  unfold attachedPopups, heldPopups in Hp.
  constructor; unfold attachedPopups, heldPopups;
    rewrite ?E1, ?E2, ?E3, ?E4, ?E5, ?E6; assumption.
Qed.

Lemma Inv_set_listeners (ls : list NodeId) (w : World) :
  Inv w -> Inv (set_mouseleaveListeners ls w).
Proof. apply Inv_same; reflexivity. Qed.

Lemma Inv_set_now (T : Z) (w : World) : Inv w -> Inv (set_now T w).
Proof. apply Inv_same; reflexivity. Qed.

Lemma Inv_initialWorld (s : LinkPreviewSettings) (e : Env) : Inv (initialWorld s e).
Proof. constructor; cbn; intros; try contradiction; try discriminate; reflexivity. Qed.

Lemma Inv_settle (p : nat) (w : World) :
  Inv w -> Inv (set_popups (updatePopup p markLoaded (popups w)) w).
Proof.
  intros [Hp Hs Hc Hk Hft Hfh Hck Hfc].
  constructor; try assumption.
  unfold attachedPopups, heldPopups in *. cbn.
  rewrite attachedPopups_update by reflexivity. exact Hp.
Qed.

Lemma Inv_onIframeError (p : nat) (w : World) : Inv w -> Inv (onIframeError p w).
Proof.
  intros [Hp Hs Hc Hk Hft Hfh Hck Hfc].
  constructor; try assumption.
  unfold attachedPopups, heldPopups in *. cbn.
  rewrite attachedPopups_update by reflexivity. exact Hp.
Qed.

Lemma activePreview_clearIfSet (h : option positive) (w : World) :
  activePreview (clearIfSet h w) = activePreview w.
Proof. destruct h; reflexivity. Qed.

Lemma Inv_hoverLink (l : NodeId) (url : string) (w : World) :
  Inv w -> Inv (hoverLink l url w).
Proof.
  intros HI. unfold hoverLink. cbv zeta.
  pose proof (Inv_clearIfSet (hoverTimeout w) w HI) as H1.
  destruct (ownsActivePreview l (clearIfSet (hoverTimeout w) w)).
  - apply Inv_cancelCleanupTimer. exact H1.
  - apply Inv_set_listeners.
    destruct (cleanupActivePreview_idle _ H1) as [H2 [Ha [_ [_ [Hno _]]]]].
    apply Inv_armShowTimer; assumption.
Qed.

Lemma Inv_handleModifierKeyDown (U : string -> option string) (w : World) :
  Inv w -> Inv (handleModifierKeyDown U w).
Proof.
  intros HI. unfold handleModifierKeyDown.
  destruct (activePreview w) eqn:Ea; simpl; [exact HI|].
  destruct (elementFromPoint (env w) (lastMouseX w) (lastMouseY w)); [|exact HI].
  destruct (findLinkElement U (env w) p None) as [[el url]|]; [|exact HI].
  apply Inv_armShowTimer.
  - apply Inv_clearIfSet. exact HI.
  - rewrite activePreview_clearIfSet. exact Ea.
  - apply noShowTimer_clearIfSet. exact HI.
Qed.

Lemma Inv_handleMouseLeave (l : NodeId) (toElement : option Path) (w : World) :
  Inv w -> Inv (handleMouseLeave l toElement w).
Proof.
  intros HI. unfold handleMouseLeave.
  destruct (match toElement with
            | Some t => match activePreview w with
                        | Some ap => contains (PopupNode (element ap)) t
                        | None => false
                        end
            | None => false
            end); [exact HI|].
  apply Inv_set_listeners. apply Inv_startCleanupTimer. exact HI.
Qed.

Lemma Inv_dispatchMouseleave (l : NodeId) (toElement : option Path) (w : World) :
  Inv w -> Inv (dispatchMouseleave l toElement w).
Proof.
  unfold dispatchMouseleave. generalize (mouseleaveListeners w) as ls. intros ls.
  revert w. induction ls as [|x ls IH]; intros w HI; simpl.
  - exact HI.
  - apply IH. destruct (NodeId_eqb x l); [apply Inv_handleMouseLeave|]; exact HI.
Qed.

Lemma Inv_cleanupTimerFired (w : World) :
  Inv w -> noCleanupTimer w -> Inv (cleanupTimerFired w).
Proof.
  intros HI Hno. unfold cleanupTimerFired.
  destruct (isSome (activePreview w) && isMouseOverPreviewOrLink w).
  - apply Inv_unset_cleanup; assumption.
  - destruct (cleanupActivePreview_idle w HI) as [H2 [_ [_ [_ [_ [Hnc _]]]]]].
    apply Inv_unset_cleanup; assumption.
Qed.

Lemma Inv_fireTimer (t : Timer) (w : World) :
  Inv w -> In t (timers w) -> Inv (fireTimer t w).
Proof.
  intros HI Hin. unfold fireTimer. cbv zeta.
  pose proof (Inv_set_now (Z.max (now w) (due t)) _ (Inv_clearTimeout (tid t) w HI)) as H1.
  destruct (callback t) as [l url| |p] eqn:Ecb.
  - assert (Hshow : isShowTimer t = true) by (unfold isShowTimer; rewrite Ecb; reflexivity).
    destruct (inv_show w HI t Hin Hshow) as [Hh Ha].
    apply Inv_showPreview; [exact H1 | exact Ha |].
    exact (noShowTimer_cleared w (tid t) HI Hh).
  - assert (Hcl : isCleanupTimer t = true) by (unfold isCleanupTimer; rewrite Ecb; reflexivity).
    pose proof (inv_cleanup w HI t Hin Hcl) as Hc.
    apply Inv_cleanupTimerFired; [exact H1|].
    exact (noCleanupTimer_cleared w (tid t) HI Hc).
  - apply Inv_settle. exact H1.
Qed.

Lemma earliest_In (ts : list Timer) (t : Timer) : earliest ts = Some t -> In t ts.
Proof.
  revert t. induction ts as [|a ts IH]; intros t H; simpl in H.
  - discriminate.
  - destruct (earliest ts) as [u|].
    + destruct (due u <? due a); injection H as <-;
        [right; apply IH; reflexivity | left; reflexivity].
    + injection H as <-. left. reflexivity.
Qed.

Lemma nextDue_In (T : Z) (ts : list Timer) (t : Timer) :
  nextDue T ts = Some t -> In t ts /\ due t <= T.
Proof.
  intros H. apply earliest_In in H. apply filter_In in H.
  destruct H as [H1 H2]. split; [exact H1 | apply Z.leb_le; exact H2].
Qed.

Lemma Inv_runDue (fuel : nat) (T : Z) (w : World) : Inv w -> Inv (runDue fuel T w).
Proof.
  revert w. induction fuel as [|f IH]; intros w HI; simpl.
  - exact HI.
  - destruct (nextDue T (timers w)) as [t|] eqn:E; [|exact HI].
    apply IH. apply Inv_fireTimer; [exact HI|]. apply (nextDue_In T _ _ E).
Qed.

Lemma Inv_step (U : string -> option string) (a : Action) (w : World) :
  Inv w -> Inv (step U a w).
Proof.
  intros HI. destruct a; simpl.
  - unfold handleLinkHover. destruct (locateHover U e w) as [[l url]|]; [|exact HI].
    apply Inv_hoverLink. exact HI.
  - revert HI. apply Inv_same; reflexivity.
  - unfold onKeydown. cbv zeta.
    assert (H1 : Inv (if String.eqb key "Escape" && isSome (activePreview w)
                      then cleanupActivePreview w else w)).
    { destruct (String.eqb key "Escape" && isSome (activePreview w));
        [apply Inv_cleanupActivePreview|]; exact HI. }
    destruct (requireModifierKey _ && isModifierKeyEvent _ key);
      [apply Inv_handleModifierKeyDown|]; exact H1.
  - unfold onKeyup, handleModifierKeyUp.
    destruct (requireModifierKey (settings w) && isModifierKeyEvent (settings w) key);
      [|exact HI].
    destruct (closeOnModifierRelease (settings w)); [apply Inv_cleanupActivePreview|]; exact HI.
  - apply Inv_dispatchMouseleave. exact HI.
  - destruct (popupExists p w); [apply Inv_cancelCleanupTimer|]; exact HI.
  - destruct (popupExists p w); [apply Inv_startCleanupTimer|]; exact HI.
  - destruct (popupExists p w); [apply Inv_setTimeout_settle|]; exact HI.
  - destruct (popupExists p w); [apply Inv_onIframeError|]; exact HI.
  - destruct (find (fun t => Pos.eqb (tid t) id) (timers w)) as [t|] eqn:E; [|exact HI].
    apply Inv_fireTimer; [exact HI|]. apply find_some in E. apply E.
  - apply Inv_set_now. apply Inv_runDue. exact HI.
  - revert HI. apply Inv_same; reflexivity.
  - revert HI. apply Inv_same; reflexivity.
  - apply Inv_cleanupActivePreview. exact HI.
Qed.

Lemma reachable_Inv (U : string -> option string) (w : World) : reachable U w -> Inv w.
Proof.
  induction 1 as [s e|a w _ IH].
  - apply Inv_initialWorld.
  - apply Inv_step. exact IH.
Qed.

Lemma reachable_run (U : string -> option string) (acts : list Action) (w : World) :
  reachable U w -> reachable U (run U acts w).
Proof.
  unfold run. revert w. induction acts as [|a acts IH]; intros w H; simpl.
  - exact H.
  - apply IH. apply reachable_step. exact H.
Qed.

(* ================================================================== *)
(** ** Properties of the lifecycle *)

Lemma existsb_false_iff {A : Type} (f : A -> bool) (l : list A) :
  existsb f l = false <-> (forall x, In x l -> f x = false).
Proof.
  induction l as [|a l IH]; simpl.
  - split; [intros _ x []|reflexivity].
  - rewrite orb_false_iff, IH. split.
    + intros [Ha Hl] x [<-|Hx]; [exact Ha | apply Hl; exact Hx].
    + intros H. split; [apply H; left; reflexivity | intros x Hx; apply H; right; exact Hx].
Qed.

Lemma filter_none {A : Type} (f : A -> bool) (l : list A) :
  (forall x, In x l -> f x = false) -> filter f l = [].
Proof.
  induction l as [|a l IH]; simpl; intros H.
  - reflexivity.
  - rewrite (H a (or_introl eq_refl)). apply IH. intros x Hx. apply H. right. exact Hx.
Qed.

Lemma filter_all {A : Type} (f : A -> bool) (l : list A) :
  (forall x, In x l -> f x = true) -> filter f l = l.
Proof.
  induction l as [|a l IH]; simpl; intros H.
  - reflexivity.
  - rewrite (H a (or_introl eq_refl)). f_equal. apply IH.
    intros x Hx. apply H. right. exact Hx.
Qed.

Lemma set_timers_same (w : World) : set_timers (timers w) w = w.
Proof. destruct w; reflexivity. Qed.

(** What [cleanupActivePreview] leaves alone. *)
Lemma cleanupActivePreview_frame (w : World) :
  settings (cleanupActivePreview w) = settings w
  /\ now (cleanupActivePreview w) = now w
  /\ nextTimerId (cleanupActivePreview w) = nextTimerId w
  /\ mouseleaveListeners (cleanupActivePreview w) = mouseleaveListeners w
  /\ env (cleanupActivePreview w) = env w.
Proof.
  unfold cleanupActivePreview. destruct w as [s a h c x y n ts nx ps ls e]. cbn.
  destruct a; cbn; destruct h; cbn; destruct c; cbn; repeat split.
Qed.

(** While a preview is active the handle in [hoverTimeout] names no pending
    timer, so clearing it changes nothing. *)
Lemma clearIfSet_hover_active (w : World) :
  Inv w -> isSome (activePreview w) = true -> clearIfSet (hoverTimeout w) w = w.
Proof.
  intros HI Ha. destruct (hoverTimeout w) as [h|] eqn:Eh; simpl; [|reflexivity].
  unfold clearTimeout. rewrite filter_all; [apply set_timers_same|].
  intros t Ht. apply negb_true_iff. apply Pos.eqb_neq. intros E.
  assert (Hk : isShowTimer t = true) by (apply (inv_hover_kind w HI t Ht); congruence).
  destruct (inv_show w HI t Ht Hk) as [_ Hn]. rewrite Hn in Ha. discriminate.
Qed.

(** Cancelling the cleanup timer removes the cleanup timers and nothing
    else. *)
Lemma cancelCleanupTimer_timers (w : World) :
  Inv w ->
  cancelCleanupTimer w
  = set_cleanupTimeout None
      (set_timers (filter (fun t => negb (isCleanupTimer t)) (timers w)) w).
Proof.
  intros HI. unfold cancelCleanupTimer. destruct (cleanupTimeout w) as [c|] eqn:Ec.
  - unfold clearTimeout. f_equal. f_equal. apply filter_ext_in.
    intros t Ht. f_equal. destruct (isCleanupTimer t) eqn:E.
    + apply Pos.eqb_eq. pose proof (inv_cleanup w HI t Ht E). congruence.
    + apply Pos.eqb_neq. intros Heq.
      assert (isCleanupTimer t = true) by (apply (inv_cleanup_kind w HI t Ht); congruence).
      congruence.
  - rewrite filter_all.
    + rewrite set_timers_same. destruct w; cbn in *. subst. reflexivity.
    + intros t Ht. apply negb_true_iff. apply (noCleanupTimer_unset w HI Ec t Ht).
Qed.

(** C1. In every world the plugin can reach, by any sequence of hover
    events, key events, pointer departures, timer firings and changes of
    settings or layout: at most one popup is in the document, and it is the
    one the controller holds; while a show timer is pending there is no
    active preview and no popup; and a hover that locates a link other than
    the active preview's owner tears the preview down before its show timer
    is armed, that timer being the only show timer pending afterwards. *)
Theorem at_most_one_active_preview :
  forall (U : string -> option string) (w : World),
    reachable U w ->
    (List.length (attachedPopups w) <= 1)%nat
    /\ attachedPopups w = heldPopups w
    /\ (showTimerPending w = true -> activePreview w = None /\ attachedPopups w = [])
    /\ (forall e linkElement url,
          locateHover U e w = Some (linkElement, url) ->
          ownsActivePreview (nodeId linkElement) w = false ->
          let w' := handleLinkHover U e w in
          activePreview w' = None /\ attachedPopups w' = []
          /\ filter isShowTimer (timers w')
             = [mkTimer (nextTimerId w) (now w + Z.max 0 (hoverDelay (settings w)))
                  (CbShowPreview (nodeId linkElement) url)]).
Proof.
  intros U w Hr. pose proof (reachable_Inv U w Hr) as HI.
  pose proof (inv_panels w HI) as Hp.
  split; [|split; [exact Hp|split]].
  - rewrite Hp. unfold heldPopups. destruct (activePreview w); simpl; lia.
  - intros Hs. unfold showTimerPending in Hs. apply existsb_exists in Hs.
    destruct Hs as [t [Ht Hshow]].
    destruct (inv_show w HI t Ht Hshow) as [_ Ha].
    split; [exact Ha|]. rewrite Hp. unfold heldPopups. rewrite Ha. reflexivity.
  - intros e el url Hloc Hown. cbv zeta.
    unfold handleLinkHover. rewrite Hloc. unfold hoverLink. cbv zeta.
    set (w1 := clearIfSet (hoverTimeout w) w).
    assert (H1 : Inv w1) by (apply Inv_clearIfSet; exact HI).
    assert (E1 : ownsActivePreview (nodeId el) w1 = false).
    { unfold ownsActivePreview, w1. rewrite activePreview_clearIfSet. exact Hown. }
    assert (F1 : settings w1 = settings w /\ now w1 = now w /\ nextTimerId w1 = nextTimerId w).
    { unfold w1. destruct (hoverTimeout w); repeat split. }
    rewrite E1. clearbody w1.
    destruct (cleanupActivePreview_idle w1 H1) as [H2 [Ha [_ [_ [Hno [_ Hatt]]]]]].
    destruct (cleanupActivePreview_frame w1) as [Fs [Fn [Fx _]]].
    destruct F1 as [Gs [Gn Gx]].
    set (w2 := cleanupActivePreview w1) in *. clearbody w2.
    unfold armShowTimer, attachedPopups, noShowTimer in *. destruct w2. cbn in *.
    split; [exact Ha|]. split; [exact Hatt|].
    rewrite filter_app. rewrite (filter_none _ _ Hno). cbn. congruence.
Qed.

(** C4 (amended). An ESC key-down forces teardown whenever an active preview
    exists, that is in Visible and in HidePending: the popup is detached,
    both timers are cancelled and the controller is idle.  With no active
    preview, in particular in ShowPending, the ESC key-down changes nothing:
    the show timer stays armed. *)
Theorem escape_tears_down_active_preview :
  forall (U : string -> option string) (w : World),
    reachable U w ->
    (Visible w \/ HidePending w -> Idle (step U (Keydown "Escape") w))
    /\ (activePreview w = None -> step U (Keydown "Escape") w = w)
    /\ (ShowPending w -> ShowPending (step U (Keydown "Escape") w)).
Proof.
  intros U w Hr. pose proof (reachable_Inv U w Hr) as HI.
  assert (Hmod : forall s, isModifierKeyEvent s "Escape" = false).
  { intros s. unfold isModifierKeyEvent. destruct (modifierKey s); reflexivity. }
  assert (Hnone : activePreview w = None -> step U (Keydown "Escape") w = w).
  { intros Ha. simpl. unfold onKeydown. rewrite Ha. simpl.
    rewrite Hmod, andb_false_r. reflexivity. }
  split; [|split; [exact Hnone|]].
  - intros Hv. assert (Ha : isSome (activePreview w) = true)
      by (destruct Hv as [[Ha _]|[Ha _]]; exact Ha).
    simpl. unfold onKeydown. rewrite Ha. simpl.
    rewrite Hmod, andb_false_r.
    destruct (cleanupActivePreview_idle w HI) as [_ [H1 [_ [_ [H2 [H3 H4]]]]]].
    unfold Idle, showTimerPending, cleanupTimerPending.
    split; [exact H1|]. split; [apply existsb_false_iff; exact H2|].
    split; [apply existsb_false_iff; exact H3 | exact H4].
  - intros [Ha Hs]. rewrite (Hnone Ha). split; assumption.
Qed.

(** C5. In every reachable world, a hover event for which the handler
    locates the very element that owns the active preview changes the world
    in one respect only: the pending cleanup (grace) timer, if any, is
    cancelled and [cleanupTimeout] unset.  No popup is created, no show timer
    is armed or pending, no listener is added and the active preview is
    untouched. *)
Theorem rehover_same_link :
  forall (U : string -> option string) (w : World) (e : MouseEvent)
         (linkElement : Element) (url : string),
    reachable U w ->
    locateHover U e w = Some (linkElement, url) ->
    ownsActivePreview (nodeId linkElement) w = true ->
    let w' := handleLinkHover U e w in
    w' = set_cleanupTimeout None
           (set_timers (filter (fun t => negb (isCleanupTimer t)) (timers w)) w)
    /\ popups w' = popups w
    /\ activePreview w' = activePreview w
    /\ hoverTimeout w' = hoverTimeout w
    /\ mouseleaveListeners w' = mouseleaveListeners w
    /\ showTimerPending w' = false
    /\ cleanupTimerPending w' = false.
Proof.
  intros U w e el url Hr Hloc Hown. cbv zeta.
  pose proof (reachable_Inv U w Hr) as HI.
  assert (Ha : isSome (activePreview w) = true).
  { unfold ownsActivePreview in Hown. destruct (activePreview w); [reflexivity|discriminate]. }
  assert (E : handleLinkHover U e w
              = set_cleanupTimeout None
                  (set_timers (filter (fun t => negb (isCleanupTimer t)) (timers w)) w)).
  { unfold handleLinkHover. rewrite Hloc. unfold hoverLink. cbv zeta.
    rewrite (clearIfSet_hover_active w HI Ha), Hown.
    apply cancelCleanupTimer_timers. exact HI. }
  rewrite E. split; [reflexivity|]. cbn.
  split; [reflexivity|]. split; [reflexivity|]. split; [reflexivity|].
  split; [reflexivity|]. unfold showTimerPending, cleanupTimerPending. cbn. split.
  - apply existsb_false_iff. intros t Ht. apply filter_In in Ht.
    apply (noShowTimer_active w HI Ha t). apply Ht.
  - apply existsb_false_iff. intros t Ht. apply filter_In in Ht.
    apply negb_true_iff. apply Ht.
Qed.

(** C10. With the require-modifier setting disabled no key-up changes the
    world, whatever the close-on-release setting and whatever the key: in
    particular the active preview survives.  A key-up changes the world only
    when require-modifier and close-on-release are both enabled and the key
    is the configured modifier. *)
Theorem keyup_ignored_without_require_modifier :
  forall (U : string -> option string) (key : string) (w : World),
    (requireModifierKey (settings w) = false -> step U (Keyup key) w = w)
    /\ (step U (Keyup key) w <> w ->
        requireModifierKey (settings w) = true
        /\ closeOnModifierRelease (settings w) = true
        /\ isModifierKeyEvent (settings w) key = true).
Proof.
  intros U key w. simpl. unfold onKeyup, handleModifierKeyUp. split.
  - intros H. rewrite H. reflexivity.
  - intros H.
    destruct (requireModifierKey (settings w)); simpl in *; [|congruence].
    destruct (isModifierKeyEvent (settings w) key); [|congruence].
    destruct (closeOnModifierRelease (settings w)); [|congruence].
    repeat split.
Qed.

(* ================================================================== *)
(** ** The hover-delay scenarios *)

Lemma NodeId_eqb_refl (n : NodeId) : NodeId_eqb n n = true.
Proof. destruct n; simpl; apply Nat.eqb_refl. Qed.

Section Scenario.

Variable U : string -> option string.
Variables (s : LinkPreviewSettings) (ev : Env) (e : MouseEvent).
Variables (el : Element) (url : string).

Hypothesis Hdelay : hoverDelay s = 500.
Hypothesis Hloc : locateHover U e (initialWorld s ev) = Some (el, url).

Lemma hover_arms :
  step U (Mouseover e) (initialWorld s ev) = armedWorld s ev (nodeId el) url.
Proof.
  simpl. unfold handleLinkHover. rewrite Hloc. unfold hoverLink. cbn.
  unfold armShowTimer. cbn. rewrite Hdelay. reflexivity.
Qed.

Lemma armed_waits (T : Z) :
  T < 500 ->
  advanceTo T (armedWorld s ev (nodeId el) url)
  = set_now (Z.max 0 T) (armedWorld s ev (nodeId el) url).
Proof.
  intros H. unfold advanceTo. cbn. unfold nextDue. cbn.
  destruct (Z.leb_spec 500 T); [lia|]. reflexivity.
Qed.

Lemma armed_shows (T : Z) :
  500 <= T ->
  popups (advanceTo T (armedWorld s ev (nodeId el) url)) = [firstPanel s ev (nodeId el) url]
  /\ activePreview (advanceTo T (armedWorld s ev (nodeId el) url))
     = Some (mkActive 0 (nodeId el)).
Proof.
  intros H. unfold advanceTo. cbn. unfold nextDue. cbn.
  destruct (Z.leb_spec 500 T); [|lia]. cbn. split; reflexivity.
Qed.

Lemma pointer_departs (toElement : option Path) (x y a : Z) :
  0 <= a < 500 ->
  run U [TimePasses a; Mousemove x y; LinkMouseleave (nodeId el) toElement]
    (armedWorld s ev (nodeId el) url)
  = departedWorld s ev (nodeId el) url x y a.
Proof.
  intros H. unfold run. simpl fold_left.
  rewrite armed_waits by lia. rewrite Z.max_r by lia.
  unfold dispatchMouseleave. cbn. rewrite NodeId_eqb_refl.
  unfold handleMouseLeave. cbn. destruct toElement; cbn; rewrite NodeId_eqb_refl; reflexivity.
Qed.


Lemma nextDue_show_first (a T : Z) :
  200 <= a -> 500 <= T -> nextDue T [(scenarioShowTimer (nodeId el) url); scenarioGraceTimer a] = Some (scenarioShowTimer (nodeId el) url).
Proof.
  intros Ha HT. unfold nextDue. simpl.
  destruct (Z.leb_spec 500 T); [|lia].
  destruct (Z.leb_spec (a + 300) T); simpl; [|reflexivity].
  destruct (Z.ltb_spec (a + 300) 500); [lia | reflexivity].
Qed.

Lemma nextDue_grace_first (a T : Z) :
  a < 200 -> a + 300 <= T -> nextDue T [(scenarioShowTimer (nodeId el) url); scenarioGraceTimer a] = Some (scenarioGraceTimer a).
Proof.
  intros Ha HT. unfold nextDue. simpl.
  destruct (Z.leb_spec (a + 300) T); [|lia].
  destruct (Z.leb_spec 500 T); simpl; [|reflexivity].
  destruct (Z.ltb_spec (a + 300) 500); [reflexivity | lia].
Qed.

Lemma nextDue_neither (a T : Z) :
  T < 500 -> T < a + 300 -> nextDue T [(scenarioShowTimer (nodeId el) url); scenarioGraceTimer a] = None.
Proof.
  intros H1 H2. unfold nextDue. simpl.
  destruct (Z.leb_spec 500 T); [lia|].
  destruct (Z.leb_spec (a + 300) T); [lia | reflexivity].
Qed.

Lemma nextDue_grace (a T : Z) :
  nextDue T [scenarioGraceTimer a] = if a + 300 <=? T then Some (scenarioGraceTimer a) else None.
Proof. unfold nextDue. simpl. destruct (a + 300 <=? T); reflexivity. Qed.

(** Whenever the pointer leaves, nothing is shown before the show timer is
    due. *)
Lemma departed_waits (x y a T : Z) :
  0 <= a < 500 -> T < 500 ->
  popups (advanceTo T (departedWorld s ev (nodeId el) url x y a)) = [].
Proof.
  intros Ha HT. unfold advanceTo.
  change (timers (departedWorld s ev (nodeId el) url x y a)) with [(scenarioShowTimer (nodeId el) url); scenarioGraceTimer a].
  simpl List.length. unfold runDue.
  change (timers (departedWorld s ev (nodeId el) url x y a)) with [(scenarioShowTimer (nodeId el) url); scenarioGraceTimer a].
  destruct (Z.leb_spec (a + 300) T).
  - rewrite (nextDue_grace_first a T) by lia.
    change (timers (fireTimer (scenarioGraceTimer a) (departedWorld s ev (nodeId el) url x y a)))
      with (@nil Timer).
    reflexivity.
  - rewrite (nextDue_neither a T) by lia. reflexivity.
Qed.

(** The grace timer firing on the freshly shown popup: the popup is removed
    when the pointer is outside it and the link. *)
Lemma grace_after_show_hides (x y a : Z) :
  inRect x y (getBoundingClientRect ev (PopupNode 0)) = false ->
  inRect x y (getBoundingClientRect ev (nodeId el)) = false ->
  fireTimer (scenarioGraceTimer a)
    (fireTimer (scenarioShowTimer (nodeId el) url) (departedWorld s ev (nodeId el) url x y a))
  = set_cleanupTimeout None
      (cleanupActivePreview
         (set_now (Z.max (Z.max a 500) (a + 300))
            (clearTimeout 2
               (fireTimer (scenarioShowTimer (nodeId el) url)
                  (departedWorld s ev (nodeId el) url x y a))))).
Proof.
  intros Hp Hl.
  assert (E : isMouseOverPreviewOrLink
                (set_now (Z.max (Z.max a 500) (a + 300)) (clearTimeout 2
                   (fireTimer (scenarioShowTimer (nodeId el) url) (departedWorld s ev (nodeId el) url x y a)))) = false).
  { unfold isMouseOverPreviewOrLink. simpl activePreview. cbv iota.
    simpl element. simpl link. simpl lastMouseX. simpl lastMouseY. simpl env.
    rewrite Hp, Hl. reflexivity. }
  unfold fireTimer at 1. simpl callback. cbv iota zeta.
  unfold cleanupTimerFired.
  change (Z.max (now (fireTimer (scenarioShowTimer (nodeId el) url) (departedWorld s ev (nodeId el) url x y a)))
            (due (scenarioGraceTimer a))) with (Z.max (Z.max a 500) (a + 300)).
  change (tid (scenarioGraceTimer a)) with 2%positive.
  rewrite E, andb_false_r. reflexivity.
Qed.

(** Wherever the pointer is, the grace timer firing on the freshly shown
    popup leaves a popup for the link's URL in the plugin's record: kept, or
    removed from the document. *)
Lemma grace_after_show_keeps_record (x y a : Z) :
  map iframeSrc
    (popups (fireTimer (scenarioGraceTimer a)
               (fireTimer (scenarioShowTimer (nodeId el) url)
                  (departedWorld s ev (nodeId el) url x y a))))
  = [url].
Proof.
  unfold fireTimer at 1. simpl callback. cbv iota zeta.
  unfold cleanupTimerFired.
  change (Z.max (now (fireTimer (scenarioShowTimer (nodeId el) url) (departedWorld s ev (nodeId el) url x y a)))
            (due (scenarioGraceTimer a))) with (Z.max (Z.max a 500) (a + 300)).
  change (tid (scenarioGraceTimer a)) with 2%positive.
  destruct (isSome _ && isMouseOverPreviewOrLink _); reflexivity.
Qed.

(** Leaving at or after 200 ms: the show timer fires at 500 ms all the
    same; at 200 ms exactly both timers are due at 500 ms and the show
    timer, armed first, runs first. *)
Lemma departed_late_shows (x y a T : Z) :
  200 <= a < 500 ->
  500 <= T < a + 300 ->
  popups (advanceTo T (departedWorld s ev (nodeId el) url x y a))
  = [firstPanel s ev (nodeId el) url]
  /\ activePreview (advanceTo T (departedWorld s ev (nodeId el) url x y a))
     = Some (mkActive 0 (nodeId el)).
Proof.
  intros Ha H. unfold advanceTo.
  change (timers (departedWorld s ev (nodeId el) url x y a)) with [(scenarioShowTimer (nodeId el) url); scenarioGraceTimer a].
  simpl List.length. unfold runDue.
  change (timers (departedWorld s ev (nodeId el) url x y a)) with [(scenarioShowTimer (nodeId el) url); scenarioGraceTimer a].
  rewrite (nextDue_show_first a T) by lia.
  change (timers (fireTimer (scenarioShowTimer (nodeId el) url) (departedWorld s ev (nodeId el) url x y a)))
    with [scenarioGraceTimer a].
  rewrite nextDue_grace. destruct (Z.leb_spec (a + 300) T); [lia|].
  split; reflexivity.
Qed.

(** ... and the grace timer removes the popup 300 ms after the pointer left
    when the pointer is then outside the popup and the link. *)
Lemma departed_late_hides (x y a T : Z) :
  200 <= a < 500 ->
  inRect x y (getBoundingClientRect ev (PopupNode 0)) = false ->
  inRect x y (getBoundingClientRect ev (nodeId el)) = false ->
  500 <= T -> a + 300 <= T ->
  popups (advanceTo T (departedWorld s ev (nodeId el) url x y a))
  = [detach (firstPanel s ev (nodeId el) url)]
  /\ activePreview (advanceTo T (departedWorld s ev (nodeId el) url x y a)) = None.
Proof.
  intros Ha Hp Hl H H'. unfold advanceTo.
  change (timers (departedWorld s ev (nodeId el) url x y a)) with [(scenarioShowTimer (nodeId el) url); scenarioGraceTimer a].
  simpl List.length. unfold runDue.
  change (timers (departedWorld s ev (nodeId el) url x y a)) with [(scenarioShowTimer (nodeId el) url); scenarioGraceTimer a].
  rewrite (nextDue_show_first a T) by lia.
  change (timers (fireTimer (scenarioShowTimer (nodeId el) url) (departedWorld s ev (nodeId el) url x y a)))
    with [scenarioGraceTimer a].
  rewrite nextDue_grace. destruct (Z.leb_spec (a + 300) T); [|lia].
  rewrite (grace_after_show_hides x y a Hp Hl). split; reflexivity.
Qed.

(** Leaving at or after 200 ms, wherever the pointer goes: from 500 ms on
    the plugin has created exactly one popup, for the link's URL. *)
Lemma departed_late_creates (x y a T : Z) :
  200 <= a < 500 ->
  500 <= T ->
  map iframeSrc (popups (advanceTo T (departedWorld s ev (nodeId el) url x y a))) = [url].
Proof.
  intros Ha H. unfold advanceTo.
  change (timers (departedWorld s ev (nodeId el) url x y a)) with [(scenarioShowTimer (nodeId el) url); scenarioGraceTimer a].
  simpl List.length. unfold runDue.
  change (timers (departedWorld s ev (nodeId el) url x y a)) with [(scenarioShowTimer (nodeId el) url); scenarioGraceTimer a].
  rewrite (nextDue_show_first a T) by lia.
  change (timers (fireTimer (scenarioShowTimer (nodeId el) url) (departedWorld s ev (nodeId el) url x y a)))
    with [scenarioGraceTimer a].
  rewrite nextDue_grace. destruct (Z.leb_spec (a + 300) T).
  - change (popups (set_now ?n ?w)) with (popups w).
    apply grace_after_show_keeps_record.
  - reflexivity.
Qed.

(** Leaving more than 300 ms before the show timer is due: the grace timer
    fires first and cancels it. *)
Lemma departed_early_never_shows (x y a T : Z) :
  0 <= a < 200 ->
  popups (advanceTo T (departedWorld s ev (nodeId el) url x y a)) = []
  /\ activePreview (advanceTo T (departedWorld s ev (nodeId el) url x y a)) = None.
Proof.
  intros H. unfold advanceTo.
  change (timers (departedWorld s ev (nodeId el) url x y a)) with [(scenarioShowTimer (nodeId el) url); scenarioGraceTimer a].
  simpl List.length. unfold runDue.
  change (timers (departedWorld s ev (nodeId el) url x y a)) with [(scenarioShowTimer (nodeId el) url); scenarioGraceTimer a].
  destruct (Z.leb_spec (a + 300) T).
  - rewrite (nextDue_grace_first a T) by lia.
    change (timers (fireTimer (scenarioGraceTimer a) (departedWorld s ev (nodeId el) url x y a)))
      with (@nil Timer).
    split; reflexivity.
  - rewrite (nextDue_neither a T) by lia. split; reflexivity.
Qed.

End Scenario.

(** C2 (amended). With a hover delay of 500 ms, on a fresh plugin whose hover
    handler locates a link: hovering continuously creates no popup before
    500 ms and exactly one from then on (so at 600 ms), whose iframe targets
    the link's resolved URL.  Moving the pointer away from the link [a] ms
    after entering it, [a < 500], does not cancel the show timer, it only
    arms the 300 ms grace timer; whether a popup is created depends on which
    timer runs first.  Nothing is created before 500 ms in any case.  When
    the pointer leaves before 200 ms the grace timer fires first and cancels
    the show timer: no popup is ever created.  When it leaves at 200 ms or
    later (so also at 400 ms) the show timer runs first and the popup is
    created at 500 ms, wherever the pointer has gone: from 500 ms on the
    plugin has created exactly one popup, for the link's URL; it is shown
    and active until [a + 300] ms, and from [a + 300] ms on it is removed
    from the document when the pointer is then outside the popup and the
    link.  At 200 ms exactly both timers are due at 500 ms and run in the
    order they were armed, the show timer first, so the popup is created and
    the grace timer runs on it at once. *)
Theorem hover_delay_scenario :
  forall (U : string -> option string) (s : LinkPreviewSettings) (ev : Env)
         (e : MouseEvent) (el : Element) (url : string)
         (toElement : option Path) (x y : Z),
    hoverDelay s = 500 ->
    locateHover U e (initialWorld s ev) = Some (el, url) ->
    (forall T, T < 500 -> popups (hoverThenStay U e T (initialWorld s ev)) = [])
    /\ (forall T, 500 <= T ->
          popups (hoverThenStay U e T (initialWorld s ev))
          = [firstPanel s ev (nodeId el) url]
          /\ activePreview (hoverThenStay U e T (initialWorld s ev))
             = Some (mkActive 0 (nodeId el)))
    /\ (forall a T, 0 <= a < 500 -> T < 500 ->
          popups (hoverThenLeave U e (nodeId el) toElement x y a T (initialWorld s ev)) = [])
    /\ (forall a T, 200 <= a < 500 -> 500 <= T ->
          map iframeSrc
            (popups (hoverThenLeave U e (nodeId el) toElement x y a T (initialWorld s ev)))
          = [url])
    /\ (forall a T, 200 <= a < 500 -> 500 <= T < a + 300 ->
          popups (hoverThenLeave U e (nodeId el) toElement x y a T (initialWorld s ev))
          = [firstPanel s ev (nodeId el) url]
          /\ activePreview
               (hoverThenLeave U e (nodeId el) toElement x y a T (initialWorld s ev))
             = Some (mkActive 0 (nodeId el)))
    /\ (inRect x y (getBoundingClientRect ev (PopupNode 0)) = false ->
        inRect x y (getBoundingClientRect ev (nodeId el)) = false ->
        forall a T, 200 <= a < 500 -> 500 <= T -> a + 300 <= T ->
          popups (hoverThenLeave U e (nodeId el) toElement x y a T (initialWorld s ev))
          = [detach (firstPanel s ev (nodeId el) url)]
          /\ activePreview
               (hoverThenLeave U e (nodeId el) toElement x y a T (initialWorld s ev))
             = None)
    /\ (forall a T, 0 <= a < 200 ->
          popups (hoverThenLeave U e (nodeId el) toElement x y a T (initialWorld s ev)) = []
          /\ activePreview
               (hoverThenLeave U e (nodeId el) toElement x y a T (initialWorld s ev))
             = None).
Proof.
  intros U s ev e el url toElement x y Hdelay Hloc.
  assert (Estay : forall T, hoverThenStay U e T (initialWorld s ev)
                            = advanceTo T (armedWorld s ev (nodeId el) url)).
  { intros T.
    change (hoverThenStay U e T (initialWorld s ev))
      with (advanceTo T (step U (Mouseover e) (initialWorld s ev))).
    rewrite (hover_arms U s ev e el url Hdelay Hloc). reflexivity. }
  assert (Eleave : forall a T, 0 <= a < 500 ->
            hoverThenLeave U e (nodeId el) toElement x y a T (initialWorld s ev)
            = advanceTo T (departedWorld s ev (nodeId el) url x y a)).
  { intros a T Ha.
    rewrite <- (pointer_departs U s ev el url toElement x y a Ha).
    rewrite <- (hover_arms U s ev e el url Hdelay Hloc). reflexivity. }
  split; [|split; [|split; [|split; [|split; [|split]]]]].
  - intros T HT. rewrite Estay, (armed_waits s ev el url T HT). reflexivity.
  - intros T HT. rewrite Estay. exact (armed_shows s ev el url T HT).
  - intros a T Ha HT. rewrite Eleave by lia. exact (departed_waits s ev el url x y a T Ha HT).
  - intros a T Ha HT. rewrite Eleave by lia.
    exact (departed_late_creates s ev el url x y a T Ha HT).
  - intros a T Ha HT. rewrite Eleave by lia.
    exact (departed_late_shows s ev el url x y a T Ha HT).
  - intros Hp Hl a T Ha HT HT'. rewrite Eleave by lia.
    exact (departed_late_hides s ev el url x y a T Ha Hp Hl HT HT').
  - intros a T Ha. rewrite Eleave by lia.
    exact (departed_early_never_shows s ev el url x y a T Ha).
Qed.

(** On the example document: one popup for [https://example.com/] after a
    continuous hover of 600 ms, none when the pointer leaves after 100 ms,
    and one when it leaves after 200 ms, where both timers are due at
    500 ms. *)
Lemma hover_delay_scenario_witness :
  (popups (hoverThenStay URL_href_simple exampleHover 600 exampleWorld)
   = [firstPanel exampleSettings exampleEnv (DocNode 1) "https://example.com/"])
  /\ popups (hoverThenLeave URL_href_simple exampleHover (DocNode 1) None 1000 600
               100 5000 exampleWorld) = []
  /\ map iframeSrc
       (popups (hoverThenLeave URL_href_simple exampleHover (DocNode 1) None 1000 600
                  200 500 exampleWorld)) = ["https://example.com/"].
Proof.
  pose proof (hover_delay_scenario URL_href_simple exampleSettings exampleEnv
                exampleHover exampleLink "https://example.com/" None 1000 600
                eq_refl eq_refl) as [_ [H2 [_ [H4 [_ [_ H7]]]]]].
  split; [|split].
  - destruct (H2 600) as [H _]; [lia | exact H].
  - destruct (H7 100 5000) as [H _]; [lia | exact H].
  - apply (H4 200 500); lia.
Defined.

(** C2 as stated fails: the pointer leaves the link 400 ms after entering it,
    and at 500 ms a popup targeting the link exists and is in the
    document. *)
Lemma leaving_after_400ms_still_creates_panel :
  popups (hoverThenLeave URL_href_simple exampleHover (DocNode 1) None 1000 600
            400 500 exampleWorld) <> []
  /\ map iframeSrc
       (popups (hoverThenLeave URL_href_simple exampleHover (DocNode 1) None 1000 600
                  400 500 exampleWorld)) = ["https://example.com/"]
  /\ attachedPopups
       (hoverThenLeave URL_href_simple exampleHover (DocNode 1) None 1000 600
          400 500 exampleWorld) = [0%nat].
Proof.
  split; [|split].
  - vm_compute. discriminate.
  - vm_compute. reflexivity.
  - vm_compute. reflexivity.
Qed.

(* ================================================================== *)
(** ** [advanceTo] fires every timer that is due *)

Lemma clearTimeout_length (id : positive) (w : World) :
  (List.length (timers (clearTimeout id w)) <= List.length (timers w))%nat.
Proof. unfold clearTimeout. cbn. apply filter_length_le. Qed.

Lemma cleared_length_lt (t : Timer) (ts : list Timer) :
  In t ts ->
  (List.length (filter (fun u => negb (Pos.eqb (tid u) (tid t))) ts) < List.length ts)%nat.
Proof.
  induction ts as [|a ts IH]; intros H; simpl.
  - contradiction.
  - destruct H as [->|H].
    + rewrite Pos.eqb_refl. simpl.
      pose proof (filter_length_le (fun u => negb (Pos.eqb (tid u) (tid t))) ts). lia.
    + specialize (IH H). destruct (negb (Pos.eqb (tid a) (tid t))); simpl; lia.
Qed.

Lemma cleanupActivePreview_length (w : World) :
  (List.length (timers (cleanupActivePreview w)) <= List.length (timers w))%nat.
Proof.
  unfold cleanupActivePreview. destruct w as [s a h c x y n ts nx ps ls e]. cbn.
  destruct a; cbn; destruct h; cbn; destruct c; cbn;
    repeat (etransitivity; [apply filter_length_le|]); apply Nat.le_refl.
Qed.

(** No callback arms a timer: firing one shortens the queue. *)
Lemma fireTimer_length (t : Timer) (w : World) :
  In t (timers w) ->
  (List.length (timers (fireTimer t w)) < List.length (timers w))%nat.
Proof.
  intros Hin. pose proof (cleared_length_lt t (timers w) Hin) as Hlt.
  unfold fireTimer. cbv zeta.
  set (w1 := set_now (Z.max (now w) (due t)) (clearTimeout (tid t) w)).
  assert (E : timers w1 = filter (fun u => negb (Pos.eqb (tid u) (tid t))) (timers w))
    by reflexivity.
  destruct (callback t).
  - change (timers (showPreview linkElement url w1)) with (timers w1). rewrite E. exact Hlt.
  - unfold cleanupTimerFired.
    destruct (isSome (activePreview w1) && isMouseOverPreviewOrLink w1).
    + change (timers (set_cleanupTimeout None w1)) with (timers w1). rewrite E. exact Hlt.
    + change (timers (set_cleanupTimeout None (cleanupActivePreview w1)))
        with (timers (cleanupActivePreview w1)).
      pose proof (cleanupActivePreview_length w1). rewrite E in H. lia.
  - change (timers (set_popups (updatePopup p markLoaded (popups w1)) w1)) with (timers w1).
    rewrite E. exact Hlt.
Qed.

Lemma earliest_None (ts : list Timer) : earliest ts = None -> ts = [].
Proof.
  destruct ts as [|a ts]; simpl; [reflexivity|].
  destruct (earliest ts) as [u|]; [destruct (due u <? due a)|]; discriminate.
Qed.

Lemma runDue_complete (fuel : nat) (T : Z) (w : World) :
  (List.length (timers w) <= fuel)%nat ->
  nextDue T (timers (runDue fuel T w)) = None.
Proof.
  revert w. induction fuel as [|f IH]; intros w H; simpl.
  - destruct (timers w); [reflexivity | simpl in H; lia].
  - destruct (nextDue T (timers w)) as [t|] eqn:E; [|exact E].
    apply IH. pose proof (fireTimer_length t w (proj1 (nextDue_In T _ _ E))). lia.
Qed.

(** After [advanceTo T] every pending timer is due later than [T]. *)
Lemma advanceTo_complete (T : Z) (w : World) :
  forall t, In t (timers (advanceTo T w)) -> T < due t.
Proof.
  intros t Ht. unfold advanceTo in Ht.
  change (timers (set_now (Z.max (now w) T) (runDue (List.length (timers w)) T w)))
    with (timers (runDue (List.length (timers w)) T w)) in Ht.
  pose proof (runDue_complete (List.length (timers w)) T w (Nat.le_refl _)) as Hn.
  unfold nextDue in Hn. apply earliest_None in Hn.
  destruct (Z.leb_spec (due t) T) as [Hle|Hgt]; [|exact Hgt].
  assert (Hin : In t (filter (fun u => due u <=? T)
                        (timers (runDue (List.length (timers w)) T w)))).
  { apply filter_In. split; [exact Ht | apply Z.leb_le; exact Hle]. }
  rewrite Hn in Hin. contradiction.
Qed.

(* ================================================================== *)
(** ** Worked examples *)

Lemma visibleWorld_reachable : reachable URL_href_simple visibleWorld.
Proof. apply reachable_run. apply reachable_init. Qed.

Lemma hidePendingWorld_reachable : reachable URL_href_simple hidePendingWorld.
Proof. apply reachable_run. apply reachable_init. Qed.

(** A preview of [exampleLink] is up and the pointer enters [otherLink]: one
    popup before, none after, the preview gone. *)
Lemma at_most_one_active_preview_witness :
  (List.length (attachedPopups visibleWorld) <= 1)%nat
  /\ attachedPopups (handleLinkHover URL_href_simple otherHover visibleWorld) = []
  /\ activePreview (handleLinkHover URL_href_simple otherHover visibleWorld) = None.
Proof.
  destruct (at_most_one_active_preview URL_href_simple visibleWorld visibleWorld_reachable)
    as [H1 [_ [_ H4]]].
  destruct (H4 otherHover otherLink "https://github.com/ovitrif" eq_refl eq_refl)
    as [Ha [Hb _]].
  exact (conj H1 (conj Hb Ha)).
Defined.

(** ESC with the preview of [exampleLink] up. *)
Lemma escape_tears_down_active_preview_witness :
  Idle (step URL_href_simple (Keydown "Escape") visibleWorld).
Proof.
  apply (proj1 (escape_tears_down_active_preview URL_href_simple visibleWorld
                  visibleWorld_reachable)).
  left. split; reflexivity.
Defined.

(** C4 as stated fails in ShowPending: the ESC key-down leaves the world as
    it is, the show timer stays armed, and 500 ms after the hover the popup
    is created. *)
Lemma escape_leaves_show_timer_armed :
  ShowPending showPendingWorld
  /\ step URL_href_simple (Keydown "Escape") showPendingWorld = showPendingWorld
  /\ ~ Idle (step URL_href_simple (Keydown "Escape") showPendingWorld)
  /\ map iframeSrc
       (popups (run URL_href_simple [Keydown "Escape"; TimePasses 500] showPendingWorld))
     = ["https://example.com/"].
Proof.
  split; [split; reflexivity|]. split; [reflexivity|]. split.
  - intros [_ [H _]]. vm_compute in H. discriminate.
  - vm_compute. reflexivity.
Qed.

(** The pointer left [exampleLink] with its preview up, the grace timer is
    pending, and the pointer enters the link again. *)
Lemma rehover_same_link_witness :
  cleanupTimerPending hidePendingWorld = true
  /\ popups (handleLinkHover URL_href_simple exampleHover hidePendingWorld)
     = popups hidePendingWorld
  /\ activePreview (handleLinkHover URL_href_simple exampleHover hidePendingWorld)
     = activePreview hidePendingWorld
  /\ cleanupTimerPending (handleLinkHover URL_href_simple exampleHover hidePendingWorld)
     = false.
Proof.
  destruct (rehover_same_link URL_href_simple hidePendingWorld exampleHover exampleLink
              "https://example.com/" hidePendingWorld_reachable eq_refl eq_refl)
    as [_ [H2 [H3 [_ [_ [_ H7]]]]]].
  split; [reflexivity|]. exact (conj H2 (conj H3 H7)).
Defined.

(** A preview is up, require-modifier is off and close-on-release is on: the
    release of Control changes nothing. *)
Lemma keyup_ignored_without_require_modifier_witness :
  isSome (activePreview visibleWithoutModifier) = true
  /\ closeOnModifierRelease (settings visibleWithoutModifier) = true
  /\ step URL_href_simple (Keyup "Control") visibleWithoutModifier = visibleWithoutModifier.
Proof.
  split; [reflexivity|]. split; [reflexivity|].
  apply (proj1 (keyup_ignored_without_require_modifier URL_href_simple "Control"
                  visibleWithoutModifier)).
  reflexivity.
Defined.

(* ================================================================== *)
(** ** Bounds calculator: orientation *)

(** X1. The popup goes above the anchor exactly when the space below is
    smaller than the popup's height and smaller than the space above; a space
    below equal to the height resolves to below.  Whenever the height fits
    below, the popup is placed below and starts at or under the anchor's
    bottom edge; when it is placed above and the height fits above, it ends
    at or over the anchor's top edge: in both cases it does not cover the
    anchor. *)
Theorem calculatePreviewBounds_orientation :
  forall (s : LinkPreviewSettings) (r : DOMRect) (vw vh : Z),
    let b := calculatePreviewBounds s r vw vh in
    let spaceBelow := vh - rect_bottom r - margin in
    let spaceAbove := rect_top r - margin in
    (showAbove b = true <-> spaceBelow < height b /\ spaceBelow < spaceAbove)
    /\ (height b <= spaceBelow -> showAbove b = false /\ rect_bottom r <= top b)
    /\ (showAbove b = true -> height b <= spaceAbove -> top b + height b <= rect_top r).
Proof.
  intros s r vw vh. unfold calculatePreviewBounds, margin. cbn zeta.
  cbn [left top width height showAbove].
  set (h := Z.min (maxPreviewHeight s) (vh - 5 * 2)).
  destruct (Z.ltb_spec (vh - rect_bottom r - 5) h) as [Hlt|Hge];
    destruct (Z.gtb_spec (rect_top r - 5) (vh - rect_bottom r - 5)) as [Hgt|Hle];
    cbn [andb]; (split; [split; [intros; try discriminate; lia | intros; try reflexivity; lia]|]);
    split; intros; try discriminate; try lia; split; try reflexivity; lia.
Qed.

(** In a window 2000 px high the default popup (960 px) fits below
    [exampleLinkRect]: it is placed below and starts under the link. *)
Lemma calculatePreviewBounds_orientation_witness :
  showAbove (calculatePreviewBounds exampleSettings exampleLinkRect 1280 tallWindowHeight) = false
  /\ rect_bottom exampleLinkRect
     <= top (calculatePreviewBounds exampleSettings exampleLinkRect 1280 tallWindowHeight).
Proof.
  apply (proj1 (proj2 (calculatePreviewBounds_orientation exampleSettings exampleLinkRect
                         1280 tallWindowHeight))).
  vm_compute. discriminate.
Defined.

(* ================================================================== *)
(** ** White space and normalization *)

Lemma trimEnd_idempotent (s : string) : trimEnd (trimEnd s) = trimEnd s.
Proof.
  induction s as [|c s IH]; simpl.
  - reflexivity.
  - destruct (trimEnd s) as [|d t] eqn:E.
    + destruct (isWhiteSpace c) eqn:Ec; simpl; [reflexivity|]. rewrite Ec. reflexivity.
    + simpl. simpl in IH. rewrite IH. reflexivity.
Qed.

Lemma trimStart_head (s : string) :
  match trimStart s with
  | EmptyString => True
  | String c _ => isWhiteSpace c = false
  end.
Proof.
  induction s as [|c s IH]; simpl.
  - exact I.
  - destruct (isWhiteSpace c) eqn:E; [exact IH | exact E].
Qed.

Lemma trimEnd_keeps_head (c : ascii) (r : string) :
  isWhiteSpace c = false -> exists r', trimEnd (String c r) = String c r'.
Proof.
  intros H. simpl. destruct (trimEnd r).
  - rewrite H. eexists. reflexivity.
  - eexists. reflexivity.
Qed.

Lemma trim_idempotent (s : string) : trim (trim s) = trim s.
Proof.
  unfold trim. pose proof (trimStart_head s) as H.
  destruct (trimStart s) as [|c r] eqn:E.
  - reflexivity.
  - destruct (trimEnd_keeps_head c r H) as [r' Hr']. rewrite Hr'.
    simpl trimStart. rewrite H. rewrite <- Hr'. apply trimEnd_idempotent.
Qed.

Lemma trimStart_allWhiteSpace (ws s : string) :
  allWhiteSpace ws = true -> trimStart (ws ++ s) = trimStart s.
Proof.
  induction ws as [|c ws IH]; simpl; intros H.
  - reflexivity.
  - apply andb_true_iff in H. destruct H as [Hc Hw]. rewrite Hc. apply IH. exact Hw.
Qed.

Lemma trimEnd_allWhiteSpace (ws : string) : allWhiteSpace ws = true -> trimEnd ws = "".
Proof.
  induction ws as [|c ws IH]; simpl; intros H.
  - reflexivity.
  - apply andb_true_iff in H. destruct H as [Hc Hw]. rewrite (IH Hw), Hc. reflexivity.
Qed.

Lemma trimEnd_app_allWhiteSpace (s ws : string) :
  allWhiteSpace ws = true -> trimEnd (s ++ ws) = trimEnd s.
Proof.
  intros H. induction s as [|c s IH]; simpl.
  - apply trimEnd_allWhiteSpace. exact H.
  - rewrite IH. reflexivity.
Qed.

Lemma trimStart_app (s ws : string) :
  allWhiteSpace ws = true ->
  trimEnd (trimStart (s ++ ws)) = trimEnd (trimStart s).
Proof.
  intros H. induction s as [|c s IH]; simpl.
  - assert (E : trimStart ws = "").
    { clear - H. induction ws as [|c ws IH]; simpl in *; [reflexivity|].
      apply andb_true_iff in H. destruct H as [Hc Hw]. rewrite Hc. apply IH. exact Hw. }
    rewrite E. reflexivity.
  - destruct (isWhiteSpace c); [exact IH|].
    change (String c (s ++ ws)) with (String c s ++ ws).
    apply trimEnd_app_allWhiteSpace. exact H.
Qed.

(** [trim] removes the white space around a string and nothing else. *)
Lemma trim_surrounded (ws1 s ws2 : string) :
  allWhiteSpace ws1 = true -> allWhiteSpace ws2 = true ->
  trim (ws1 ++ s ++ ws2) = trim s.
Proof.
  intros H1 H2. unfold trim. rewrite (trimStart_allWhiteSpace ws1 _ H1).
  apply trimStart_app. exact H2.
Qed.

Section Normalization.

Variable URL_href : string -> option string.

(** X3. White space around a candidate never matters to [normalizeUrl]: a
    candidate wrapped in any white space normalizes like the candidate, and
    a candidate normalizes like its trimmed form. *)
Theorem normalizeUrl_ignores_surrounding_whitespace :
  forall (ws1 u ws2 : string),
    allWhiteSpace ws1 = true -> allWhiteSpace ws2 = true ->
    normalizeUrl URL_href (ws1 ++ u ++ ws2) = normalizeUrl URL_href u
    /\ normalizeUrl URL_href (trim u) = normalizeUrl URL_href u.
Proof.
  intros ws1 u ws2 H1 H2. unfold normalizeUrl.
  rewrite (trim_surrounded ws1 u ws2 H1 H2), trim_idempotent. split; reflexivity.
Qed.

Lemma firstAttributeUrl_normalized (names : list string) (el : Element) (u : string) :
  firstAttributeUrl URL_href names el = Some u ->
  exists attr value, In attr names /\ getAttribute attr el = Some value
                     /\ normalizeUrl URL_href value = Some u.
Proof.
  induction names as [|a names IH]; simpl; intros H.
  - discriminate.
  - destruct (truthy (attributeUrl URL_href a el)) eqn:E.
    + unfold attributeUrl in H. destruct (getAttribute a el) as [v|] eqn:Ev; [|discriminate].
      destruct (isEmpty v); [discriminate|].
      exists a, v. split; [left; reflexivity|]. split; [exact Ev | exact H].
    + destruct (IH H) as [attr [v [Hin Hv]]]. exists attr, v.
      split; [right; exact Hin | exact Hv].
Qed.

Lemma ancestorUrl_normalized (chain : Path) (u : string) :
  ancestorUrl URL_href chain = Some (Some u) ->
  exists c, normalizeUrl URL_href c = Some u.
Proof.
  induction chain as [|a chain IH]; simpl; intros H.
  - discriminate.
  - destruct (isDocumentBody a); [discriminate|].
    destruct (isHTMLAnchorElement a && negb (isEmpty (href a))).
    + injection H as H. exists (href a). exact H.
    + destruct (hasClass "external-link" a || hasClass "cm-link" a); [|exact (IH H)].
      destruct (querySelector_a_href a) as [d|]; [|exact (IH H)].
      destruct (info_isHTMLAnchorElement d && negb (isEmpty (info_href d))); [|exact (IH H)].
      injection H as H. exists (info_href d). exact H.
Qed.

(** X4. For an element that is not a native anchor, every URL that
    [extractUrlFromElement] returns is the normalization of some candidate
    (an attribute value, an anchor's href met on the ancestor walk, or the
    element's text): the candidate, trimmed, starts with [http://] or
    [https://] in any letter case and the URL parser accepted it.  Nothing
    that fails normalization is ever returned for such an element. *)
Theorem extractUrlFromElement_only_normalized :
  forall (el : Element) (ancestors : Path) (u : string),
    isHTMLAnchorElement el = false ->
    extractUrlFromElement URL_href el ancestors = Some u ->
    exists c, normalizeUrl URL_href c = Some u
              /\ hasHttpPrefix (trim c) = true /\ URL_href (trim c) = Some u.
Proof.
  intros el ancestors u Ha H.
  assert (Hc : exists c, normalizeUrl URL_href c = Some u).
  { unfold extractUrlFromElement in H. rewrite Ha in H.
    destruct (firstAttributeUrl URL_href attributeNames el) as [v|] eqn:Ef.
    - injection H as ->. destruct (firstAttributeUrl_normalized _ _ _ Ef) as [a [v [_ [_ Hv]]]].
      exists v. exact Hv.
    - destruct (ancestorUrl URL_href (el :: ancestors)) as [r|] eqn:Ea.
      + subst r. apply (ancestorUrl_normalized _ _ Ea).
      + destruct (isEmpty (trim (textContent el))); [discriminate|].
        exists (trim (textContent el)). exact H. }
  destruct Hc as [c Hc]. exists c. split; [exact Hc|].
  apply normalizeUrl_prefix. exact Hc.
Qed.

End Normalization.

(** A URL wrapped in blanks normalizes like the bare URL, to the URL
    itself. *)
Lemma normalizeUrl_ignores_surrounding_whitespace_witness :
  normalizeUrl URL_href_simple ("  " ++ "https://example.com/" ++ " ")
  = normalizeUrl URL_href_simple "https://example.com/"
  /\ normalizeUrl URL_href_simple ("  " ++ "https://example.com/" ++ " ")
     = Some "https://example.com/".
Proof.
  split.
  - apply (proj1 (normalizeUrl_ignores_surrounding_whitespace URL_href_simple
                    "  " "https://example.com/" " " eq_refl eq_refl)).
  - reflexivity.
Defined.

(** [mailtoSpan]: the [data-href] value does not normalize, the text does. *)
Lemma extractUrlFromElement_only_normalized_witness :
  exists c, normalizeUrl URL_href_simple c = Some "https://example.com/page"
            /\ hasHttpPrefix (trim c) = true
            /\ URL_href_simple (trim c) = Some "https://example.com/page".
Proof.
  apply (extractUrlFromElement_only_normalized URL_href_simple mailtoSpan [exampleBody]
           "https://example.com/page" eq_refl eq_refl).
Defined.

(* ================================================================== *)
(** ** Link locator *)

Section Locator.

Variable URL_href : string -> option string.

(** X5. Whatever [findLinkElement] returns is sound: the element is on the
    walk from the target, strictly below [document.body], an [HTMLElement]
    matching the link selector, and does not contain the related target; the
    URL is not empty and comes either from the editor's text (only for an
    element inside a [.cm-editor]) or from [extractUrlFromElement]. *)
Theorem findLinkElement_sound :
  forall (e : Env) (chain : Path) (related : option Path) (el : Element) (u : string),
    findLinkElement URL_href e chain related = Some (el, u) ->
    exists pre post,
      chain = (pre ++ el :: post)%list
      /\ (forall x, In x pre -> isDocumentBody x = false)
      /\ isDocumentBody el = false
      /\ isHTMLElement el = true
      /\ matchesLinkSelector el post = true
      /\ (forall r, related = Some r -> contains (nodeId el) r = false)
      /\ isEmpty u = false
      /\ ((closest_cm_editor (el :: post) = true
           /\ getUrlFromEditorByText URL_href e el = Some u)
          \/ extractUrlFromElement URL_href el post = Some u).
Proof.
  intros e chain related el u. induction chain as [|a chain IH]; intros H.
  - discriminate.
  - cbn [findLinkElement] in H.
    destruct (isDocumentBody a) eqn:Eb; [discriminate|].
    assert (Hrec : findLinkElement URL_href e chain related = Some (el, u) ->
                   exists pre post,
                     (a :: chain = pre ++ el :: post)%list
                     /\ (forall x, In x pre -> isDocumentBody x = false)
                     /\ isDocumentBody el = false
                     /\ isHTMLElement el = true
                     /\ matchesLinkSelector el post = true
                     /\ (forall r, related = Some r -> contains (nodeId el) r = false)
                     /\ isEmpty u = false
                     /\ ((closest_cm_editor (el :: post) = true
                          /\ getUrlFromEditorByText URL_href e el = Some u)
                         \/ extractUrlFromElement URL_href el post = Some u)).
    { intros Hr. destruct (IH Hr) as [pre [post [E [Hpre Hrest]]]].
      exists (a :: pre), post. split; [rewrite E; reflexivity|].
      split; [|exact Hrest]. intros x [<-|Hx]; [exact Eb | apply Hpre; exact Hx]. }
    destruct (isHTMLElement a) eqn:Eh; cbn [negb] in H; [|exact (Hrec H)].
    destruct (matchesLinkSelector a chain) eqn:Em; cbn [negb] in H; [|exact (Hrec H)].
    destruct (match related with
              | Some r => contains (nodeId a) r
              | None => false
              end) eqn:Er; [discriminate|].
    set (url0 := if closest_cm_editor (a :: chain)
                 then getUrlFromEditorByText URL_href e a else None) in *.
    destruct (truthy url0) eqn:Et; cbn [negb] in H.
    + destruct url0 as [v|] eqn:Ev; [|discriminate].
      cbn [truthy] in Et. destruct (isEmpty v) eqn:Eempty; [discriminate|].
      injection H as <- <-. exists [], chain.
      split; [reflexivity|]. split; [intros x []|].
      split; [exact Eb|]. split; [exact Eh|]. split; [exact Em|].
      split; [intros r ->; exact Er|]. split; [exact Eempty|].
      left. unfold url0 in Ev. destruct (closest_cm_editor (a :: chain)); [|discriminate].
      split; [reflexivity | exact Ev].
    + destruct (extractUrlFromElement URL_href a chain) as [v|] eqn:Ex; [|exact (Hrec H)].
      destruct (isEmpty v) eqn:Eempty; [exact (Hrec H)|].
      injection H as <- <-. exists [], chain.
      split; [reflexivity|]. split; [intros x []|].
      split; [exact Eb|]. split; [exact Eh|]. split; [exact Em|].
      split; [intros r ->; exact Er|]. split; [exact Eempty|].
      right. exact Ex.
Qed.

Lemma findLinkElement_walks_past (e : Env) (pre rest : Path) (related : option Path) :
  allWalkedPast pre rest = true ->
  findLinkElement URL_href e (pre ++ rest)%list related
  = findLinkElement URL_href e rest related.
Proof.
  induction pre as [|x pre IH]; simpl; intros H.
  - reflexivity.
  - apply andb_true_iff in H. destruct H as [Hx Hpre].
    unfold walkedPast in Hx. apply andb_true_iff in Hx. destruct Hx as [Hb Hs].
    apply negb_true_iff in Hb. rewrite Hb.
    destruct (isHTMLElement x); simpl in *.
    + rewrite Hs. simpl. apply IH. exact Hpre.
    + apply IH. exact Hpre.
Qed.

(** X6. A pointer move inside one link is not a hover: when the first
    element on the walk that matches the link selector contains the related
    target (the node the pointer came from), [findLinkElement] returns
    nothing, whatever lies further up. *)
Theorem findLinkElement_ignores_moves_within_link :
  forall (e : Env) (pre : Path) (el : Element) (post r : Path),
    allWalkedPast pre (el :: post) = true ->
    isDocumentBody el = false ->
    isHTMLElement el = true ->
    matchesLinkSelector el post = true ->
    contains (nodeId el) r = true ->
    findLinkElement URL_href e (pre ++ el :: post)%list (Some r) = None.
Proof.
  intros e pre el post r Hpre Hb Hh Hm Hc.
  rewrite (findLinkElement_walks_past e pre (el :: post) (Some r) Hpre).
  simpl. rewrite Hb, Hh, Hm, Hc. reflexivity.
Qed.

(** X7. Outside the editor a native anchor is located with its resolved
    [href] verbatim, whatever its scheme: when the first element on the walk
    that matches the link selector is an anchor with a non-empty [href], no
    [.cm-editor] encloses it and it does not contain the related target,
    [findLinkElement] returns that anchor and that [href]. *)
Theorem findLinkElement_anchor :
  forall (e : Env) (pre : Path) (a : Element) (post : Path) (related : option Path),
    allWalkedPast pre (a :: post) = true ->
    isDocumentBody a = false ->
    isHTMLAnchorElement a = true ->
    matchesLinkSelector a post = true ->
    closest_cm_editor (a :: post) = false ->
    isEmpty (href a) = false ->
    (forall r, related = Some r -> contains (nodeId a) r = false) ->
    findLinkElement URL_href e (pre ++ a :: post)%list related = Some (a, href a).
Proof.
  intros e pre a post related Hpre Hb Ha Hm Hc He Hr.
  rewrite (findLinkElement_walks_past e pre (a :: post) related Hpre).
  assert (Hh : isHTMLElement a = true).
  { unfold isHTMLAnchorElement in Ha. apply andb_true_iff in Ha. apply Ha. }
  assert (Er : match related with
               | Some r => contains (nodeId a) r
               | None => false
               end = false).
  { destruct related as [r|]; [apply Hr|]; reflexivity. }
  cbn [findLinkElement]. rewrite Hb, Hh, Hm, Er, Hc. cbn [negb truthy].
  unfold extractUrlFromElement. rewrite Ha, He. reflexivity.
Qed.

End Locator.

(** The pointer enters the icon inside [exampleLink]: the link is found. *)
Lemma findLinkElement_sound_witness :
  exists pre post,
    nestedPath = (pre ++ exampleLink :: post)%list
    /\ (forall x, In x pre -> isDocumentBody x = false)
    /\ isDocumentBody exampleLink = false
    /\ isHTMLElement exampleLink = true
    /\ matchesLinkSelector exampleLink post = true
    /\ (forall r, None = Some r -> contains (nodeId exampleLink) r = false)
    /\ isEmpty "https://example.com/" = false
    /\ ((closest_cm_editor (exampleLink :: post) = true
         /\ getUrlFromEditorByText URL_href_simple exampleEnv exampleLink
            = Some "https://example.com/")
        \/ extractUrlFromElement URL_href_simple exampleLink post
           = Some "https://example.com/").
Proof.
  apply (findLinkElement_sound URL_href_simple exampleEnv nestedPath None exampleLink
           "https://example.com/" eq_refl).
Defined.

(** The pointer moves from the [strong] inside [exampleLink] to the icon
    inside it. *)
Lemma findLinkElement_ignores_moves_within_link_witness :
  findLinkElement URL_href_simple exampleEnv nestedPath
    (Some [strongInLink; exampleLink; exampleParagraph; exampleBody]) = None.
Proof.
  apply (findLinkElement_ignores_moves_within_link URL_href_simple exampleEnv
           [iconInLink; strongInLink] exampleLink [exampleParagraph; exampleBody]
           [strongInLink; exampleLink; exampleParagraph; exampleBody]);
    reflexivity.
Defined.

Lemma findLinkElement_anchor_witness :
  findLinkElement URL_href_simple exampleEnv nestedPath None
  = Some (exampleLink, "https://example.com/").
Proof.
  apply (findLinkElement_anchor URL_href_simple exampleEnv
           [iconInLink; strongInLink] exampleLink [exampleParagraph; exampleBody] None);
    try reflexivity.
  intros r H. discriminate.
Defined.

(* ================================================================== *)
(** ** The inline-link pattern and the editor's text *)

Lemma append_assoc (a b c : string) : (a ++ b) ++ c = a ++ b ++ c.
Proof. induction a as [|x a IH]; simpl; [reflexivity | rewrite IH; reflexivity]. Qed.

Lemma length_append (a b : string) :
  String.length (a ++ b) = (String.length a + String.length b)%nat.
Proof. induction a as [|x a IH]; simpl; [reflexivity | rewrite IH; reflexivity]. Qed.


Lemma splitAtFirst_complete (c : ascii) (run after : string) :
  hasChar c run = false -> splitAtFirst c (run ++ String c after) = Some (run, after).
Proof.
  induction run as [|d run IH]; simpl; intros H.
  - rewrite Ascii.eqb_refl. reflexivity.
  - apply orb_false_iff in H. destruct H as [Hd Hr]. rewrite Hd, (IH Hr). reflexivity.
Qed.


Lemma matchScheme_complete (scheme tail : string) :
  scheme = "https://" \/ scheme = "http://" ->
  matchScheme (scheme ++ tail) = Some (scheme, tail).
Proof. intros [->| ->]; reflexivity. Qed.

Lemma isEmpty_false_length (s : string) : isEmpty s = false -> s <> "".
Proof. destruct s; [discriminate | discriminate]. Qed.


Lemma inlineLink_unfold (label scheme tail rest : string) :
  inlineLink label (scheme ++ tail) ++ rest
  = String ch_lbracket
      (label ++ String ch_rbracket (String ch_lparen (scheme ++ tail ++ String ch_rparen rest))).
Proof.
  unfold inlineLink, ch_lbracket, ch_rbracket, ch_lparen, ch_rparen. simpl.
  f_equal. rewrite !append_assoc. simpl. rewrite !append_assoc. reflexivity.
Qed.

Lemma matchLinkAt_complete (label url rest : string) :
  linkWellFormed label url ->
  matchLinkAt (inlineLink label url ++ rest)
  = Some (label, url, String.length (inlineLink label url)).
Proof.
  intros [El [Hl [tail [Hs [Et Ht]]]]].
  assert (Hs' : exists scheme, (scheme = "https://" \/ scheme = "http://")
                               /\ url = scheme ++ tail).
  { destruct Hs as [->| ->]; eexists; split; try reflexivity; [left | right]; reflexivity. }
  destruct Hs' as [scheme [Hscheme ->]].
  rewrite inlineLink_unfold. unfold matchLinkAt.
  rewrite Ascii.eqb_refl, (splitAtFirst_complete _ _ _ Hl), El, Ascii.eqb_refl.
  rewrite (matchScheme_complete scheme _ Hscheme).
  rewrite (splitAtFirst_complete _ _ _ Ht), Et.
  f_equal. f_equal. unfold inlineLink. simpl. rewrite !length_append. simpl.
  rewrite !length_append. simpl. lia.
Qed.

Lemma execAll_skip (a b : string) : execAll (String.length a) (a ++ b) = execAll O b.
Proof. induction a as [|c a IH]; simpl; [reflexivity | exact IH]. Qed.


Lemma execAll_first (pre label url post : string) :
  hasChar ch_lbracket pre = false ->
  linkWellFormed label url ->
  execAll O (pre ++ inlineLink label url ++ post) = (label, url) :: execAll O post.
Proof.
  intros Hpre Hw. induction pre as [|c pre IH].
  - cbn [append].
    pose proof (matchLinkAt_complete label url post Hw) as Hm.
    destruct (inlineLink label url) as [|d body] eqn:Eb; [discriminate|].
    cbn [append] in *. cbn [execAll]. rewrite Hm. f_equal.
    cbn [String.length Nat.pred]. apply execAll_skip.
  - simpl in Hpre. apply orb_false_iff in Hpre. destruct Hpre as [Hc Hp].
    cbn [append execAll]. unfold matchLinkAt at 1. rewrite Hc. exact (IH Hp).
Qed.


Section EditorText.

Variable URL_href : string -> option string.

(** X8. Text-based resolution picks the first inline link.  When the editor's
    text is some text without an opening bracket, then a well-formed inline
    link [[label](url)], then anything, and the hovered element's trimmed
    text is not empty and equals the label, contains it or is contained in
    it, [getUrlFromEditorByText] returns that link's URL, whatever links
    follow in the document. *)
Theorem getUrlFromEditorByText_first_link :
  forall (e : Env) (el : Element) (pre label url post : string),
    editorValue e = Some (pre ++ inlineLink label url ++ post) ->
    hasChar ch_lbracket pre = false ->
    linkWellFormed label url ->
    isEmpty (trim (textContent el)) = false ->
    (label = trim (textContent el)
     \/ includes (trim (textContent el)) label = true
     \/ includes label (trim (textContent el)) = true) ->
    getUrlFromEditorByText URL_href e el = Some url.
Proof.
  intros e el pre label url post He Hpre Hw Hne Hm.
  unfold getUrlFromEditorByText. rewrite He, Hne, (execAll_first _ _ _ _ Hpre Hw).
  cbn [find].
  assert (E : String.eqb label (trim (textContent el))
              || includes (trim (textContent el)) label
              || includes label (trim (textContent el)) = true).
  { destruct Hm as [->|[H|H]].
    - rewrite String.eqb_refl. reflexivity.
    - rewrite H. apply orb_true_iff. left. apply orb_true_r.
    - rewrite H. apply orb_true_r. }
  rewrite E. reflexivity.
Qed.


End EditorText.

(** The line [See [Example](https://example.org) now] and the span rendered
    for its label. *)
Lemma getUrlFromEditorByText_first_link_witness :
  getUrlFromEditorByText URL_href_simple editorEnv editorSpan = Some "https://example.org".
Proof.
  apply (getUrlFromEditorByText_first_link URL_href_simple editorEnv editorSpan
           "See " "Example" "https://example.org" " now").
  - reflexivity.
  - reflexivity.
  - split; [reflexivity|]. split; [reflexivity|]. exists "example.org".
    split; [left; reflexivity|]. split; reflexivity.
  - reflexivity.
  - left. reflexivity.
Defined.


(* ================================================================== *)
(** ** The timer set *)

Lemma timersOk_filter (f : Timer -> bool) (ts : list Timer) (next : positive) :
  timersOk ts next -> timersOk (filter f ts) next.
Proof.
  intros [Hn Hf]. split.
  - clear Hf. induction ts as [|t ts IH]; simpl; [constructor|].
    inversion Hn as [|x l Hx Hl]; subst.
    destruct (f t); simpl; [|apply IH; exact Hl].
    constructor; [|apply IH; exact Hl].
    intros Hin. apply Hx. apply in_map_iff in Hin. destruct Hin as [u [Eu Hu]].
    apply filter_In in Hu. apply in_map_iff. exists u. split; [exact Eu | apply Hu].
  - intros t Ht. apply filter_In in Ht. apply Hf. apply Ht.
Qed.

Lemma timersOk_arm (ts : list Timer) (next : positive) (d : Z) (cb : Callback) :
  timersOk ts next -> timersOk (ts ++ [mkTimer next d cb]) (Pos.succ next).
Proof.
  intros [Hn Hf]. split.
  - rewrite map_app. simpl. apply NoDup_app.
    + exact Hn.
    + constructor; [intros []|constructor].
    + intros a Ha [<-|[]]. apply in_map_iff in Ha. destruct Ha as [u [Eu Hu]].
      specialize (Hf u Hu). rewrite Eu in Hf. lia.
  - intros t Ht. apply in_app_or in Ht. destruct Ht as [Ht|[<-|[]]].
    + specialize (Hf t Ht). lia.
    + simpl. lia.
Qed.

Lemma timersOk_same (w w' : World) :
  timers w' = timers w -> nextTimerId w' = nextTimerId w ->
  timersOk (timers w) (nextTimerId w) -> timersOk (timers w') (nextTimerId w').
Proof. intros -> ->. trivial. Qed.

Lemma timersOk_clearTimeout (id : positive) (w : World) :
  timersOk (timers w) (nextTimerId w) ->
  timersOk (timers (clearTimeout id w)) (nextTimerId (clearTimeout id w)).
Proof. intros H. apply (timersOk_filter _ _ _ H). Qed.

Lemma timersOk_clearIfSet (h : option positive) (w : World) :
  timersOk (timers w) (nextTimerId w) ->
  timersOk (timers (clearIfSet h w)) (nextTimerId (clearIfSet h w)).
Proof. destruct h; simpl; [apply timersOk_clearTimeout | trivial]. Qed.

Lemma timersOk_cancelCleanupTimer (w : World) :
  timersOk (timers w) (nextTimerId w) ->
  timersOk (timers (cancelCleanupTimer w)) (nextTimerId (cancelCleanupTimer w)).
Proof.
  intros H. unfold cancelCleanupTimer. destruct (cleanupTimeout w); [|exact H].
  apply (timersOk_filter _ _ _ H).
Qed.

Lemma timersOk_cleanupActivePreview (w : World) :
  timersOk (timers w) (nextTimerId w) ->
  timersOk (timers (cleanupActivePreview w)) (nextTimerId (cleanupActivePreview w)).
Proof.
  unfold cleanupActivePreview. destruct w as [s a h c x y n ts nx ps ls e]. cbn.
  intros H. destruct a; cbn; destruct h; cbn; destruct c; cbn;
    repeat apply timersOk_filter; exact H.
Qed.

Lemma timersOk_setTimeout (cb : Callback) (delay : Z) (w : World) :
  timersOk (timers w) (nextTimerId w) ->
  timersOk (timers (snd (setTimeout cb delay w))) (nextTimerId (snd (setTimeout cb delay w))).
Proof. intros H. apply (timersOk_arm _ _ _ _ H). Qed.

Lemma timersOk_startCleanupTimer (w : World) :
  timersOk (timers w) (nextTimerId w) ->
  timersOk (timers (startCleanupTimer w)) (nextTimerId (startCleanupTimer w)).
Proof.
  intros H. unfold startCleanupTimer.
  apply (timersOk_setTimeout CbCleanup 300 _ (timersOk_clearIfSet (cleanupTimeout w) w H)).
Qed.

Lemma timersOk_armShowTimer (l : NodeId) (url : string) (w : World) :
  timersOk (timers w) (nextTimerId w) ->
  timersOk (timers (armShowTimer l url w)) (nextTimerId (armShowTimer l url w)).
Proof.
  intros H. unfold armShowTimer.
  apply (timersOk_setTimeout (CbShowPreview l url) (hoverDelay (settings w)) w H).
Qed.

Lemma timersOk_hoverLink (l : NodeId) (url : string) (w : World) :
  timersOk (timers w) (nextTimerId w) ->
  timersOk (timers (hoverLink l url w)) (nextTimerId (hoverLink l url w)).
Proof.
  intros H. unfold hoverLink. cbv zeta.
  pose proof (timersOk_clearIfSet (hoverTimeout w) w H) as H1.
  destruct (ownsActivePreview l (clearIfSet (hoverTimeout w) w)).
  - apply timersOk_cancelCleanupTimer. exact H1.
  - apply (timersOk_armShowTimer l url _ (timersOk_cleanupActivePreview _ H1)).
Qed.

Lemma timersOk_handleMouseLeave (l : NodeId) (toElement : option Path) (w : World) :
  timersOk (timers w) (nextTimerId w) ->
  timersOk (timers (handleMouseLeave l toElement w))
           (nextTimerId (handleMouseLeave l toElement w)).
Proof.
  intros H. unfold handleMouseLeave.
  destruct (match toElement with
            | Some t => match activePreview w with
                        | Some ap => contains (PopupNode (element ap)) t
                        | None => false
                        end
            | None => false
            end); [exact H|].
  apply (timersOk_startCleanupTimer w H).
Qed.

Lemma timersOk_dispatchMouseleave (l : NodeId) (toElement : option Path) (w : World) :
  timersOk (timers w) (nextTimerId w) ->
  timersOk (timers (dispatchMouseleave l toElement w))
           (nextTimerId (dispatchMouseleave l toElement w)).
Proof.
  unfold dispatchMouseleave. generalize (mouseleaveListeners w) as ls. intros ls.
  revert w. induction ls as [|x ls IH]; intros w H; simpl.
  - exact H.
  - apply IH. destruct (NodeId_eqb x l); [apply timersOk_handleMouseLeave|]; exact H.
Qed.

Lemma timersOk_handleModifierKeyDown (U : string -> option string) (w : World) :
  timersOk (timers w) (nextTimerId w) ->
  timersOk (timers (handleModifierKeyDown U w)) (nextTimerId (handleModifierKeyDown U w)).
Proof.
  intros H. unfold handleModifierKeyDown.
  destruct (isSome (activePreview w)); [exact H|].
  destruct (elementFromPoint (env w) (lastMouseX w) (lastMouseY w)); [|exact H].
  destruct (findLinkElement U (env w) p None) as [[el url]|]; [|exact H].
  apply timersOk_armShowTimer. apply timersOk_clearIfSet. exact H.
Qed.

Lemma timersOk_fireTimer (t : Timer) (w : World) :
  timersOk (timers w) (nextTimerId w) ->
  timersOk (timers (fireTimer t w)) (nextTimerId (fireTimer t w)).
Proof.
  intros H. unfold fireTimer. cbv zeta.
  pose proof (timersOk_clearTimeout (tid t) w H) as H1.
  destruct (callback t).
  - exact H1.
  - unfold cleanupTimerFired.
    destruct (isSome _ && isMouseOverPreviewOrLink _); [exact H1|].
    apply (timersOk_cleanupActivePreview
             (set_now (Z.max (now w) (due t)) (clearTimeout (tid t) w)) H1).
  - exact H1.
Qed.

Lemma timersOk_runDue (fuel : nat) (T : Z) (w : World) :
  timersOk (timers w) (nextTimerId w) ->
  timersOk (timers (runDue fuel T w)) (nextTimerId (runDue fuel T w)).
Proof.
  revert w. induction fuel as [|f IH]; intros w H; simpl.
  - exact H.
  - destruct (nextDue T (timers w)); [|exact H]. apply IH. apply timersOk_fireTimer. exact H.
Qed.

Lemma timersOk_step (U : string -> option string) (a : Action) (w : World) :
  timersOk (timers w) (nextTimerId w) ->
  timersOk (timers (step U a w)) (nextTimerId (step U a w)).
Proof.
  intros H. destruct a; simpl.
  - unfold handleLinkHover. destruct (locateHover U e w) as [[l url]|]; [|exact H].
    apply timersOk_hoverLink. exact H.
  - exact H.
  - unfold onKeydown. cbv zeta.
    assert (H1 : timersOk
                   (timers (if String.eqb key "Escape" && isSome (activePreview w)
                            then cleanupActivePreview w else w))
                   (nextTimerId (if String.eqb key "Escape" && isSome (activePreview w)
                                 then cleanupActivePreview w else w))).
    { destruct (String.eqb key "Escape" && isSome (activePreview w));
        [apply timersOk_cleanupActivePreview|]; exact H. }
    destruct (requireModifierKey _ && isModifierKeyEvent _ key);
      [apply timersOk_handleModifierKeyDown|]; exact H1.
  - unfold onKeyup, handleModifierKeyUp.
    destruct (requireModifierKey (settings w) && isModifierKeyEvent (settings w) key);
      [|exact H].
    destruct (closeOnModifierRelease (settings w));
      [apply timersOk_cleanupActivePreview|]; exact H.
  - apply timersOk_dispatchMouseleave. exact H.
  - destruct (popupExists p w); [apply timersOk_cancelCleanupTimer|]; exact H.
  - destruct (popupExists p w); [apply timersOk_startCleanupTimer|]; exact H.
  - destruct (popupExists p w); [apply timersOk_setTimeout|]; exact H.
  - destruct (popupExists p w); exact H.
  - destruct (find (fun t => Pos.eqb (tid t) id) (timers w)); [|exact H].
    apply timersOk_fireTimer. exact H.
  - apply (timersOk_runDue (List.length (timers w)) T w H).
  - exact H.
  - exact H.
  - apply timersOk_cleanupActivePreview. exact H.
Qed.

Lemma reachable_timersOk (U : string -> option string) (w : World) :
  reachable U w -> timersOk (timers w) (nextTimerId w).
Proof.
  induction 1 as [s e|a w _ IH].
  - split; [constructor | intros t []].
  - apply timersOk_step. exact IH.
Qed.

Lemma same_handle_same_timer (ts : list Timer) (t u : Timer) :
  NoDup (map tid ts) -> In t ts -> In u ts -> tid t = tid u -> t = u.
Proof.
  induction ts as [|a ts IH]; intros Hn Ht Hu E; [destruct Ht|].
  inversion Hn as [|x l Hx Hl]; subst.
  destruct Ht as [<-|Ht]; destruct Hu as [<-|Hu].
  - reflexivity.
  - exfalso. apply Hx. rewrite E. apply in_map. exact Hu.
  - exfalso. apply Hx. rewrite <- E. apply in_map. exact Ht.
  - apply IH; assumption.
Qed.

Lemma at_most_one_with_handle (f : Timer -> bool) (c : positive) (ts : list Timer) :
  NoDup (map tid ts) ->
  (forall t, In t ts -> f t = true -> tid t = c) ->
  (List.length (filter f ts) <= 1)%nat.
Proof.
  intros Hn Hc.
  destruct (filter f ts) as [|a [|b l]] eqn:E; simpl; try lia.
  exfalso.
  assert (Ha : In a (filter f ts)) by (rewrite E; left; reflexivity).
  assert (Hb : In b (filter f ts)) by (rewrite E; right; left; reflexivity).
  apply filter_In in Ha. apply filter_In in Hb.
  assert (Eab : a = b).
  { apply (same_handle_same_timer ts); try tauto.
    rewrite (Hc a), (Hc b); tauto. }
  subst b.
  assert (Hnd : NoDup (filter f ts)).
  { apply NoDup_filter. apply (NoDup_map_inv tid). exact Hn. }
  rewrite E in Hnd. inversion Hnd as [|x l' Hx Hl]; subst. apply Hx. left. reflexivity.
Qed.

(** X10. In every reachable world the timer handles in the queue are pairwise
    distinct, at most one show timer is pending and at most one cleanup
    (grace) timer is pending: re-arming either first cancels the one
    before. *)
Theorem one_timer_of_each_kind :
  forall (U : string -> option string) (w : World),
    reachable U w ->
    NoDup (map tid (timers w))
    /\ (List.length (filter isShowTimer (timers w)) <= 1)%nat
    /\ (List.length (filter isCleanupTimer (timers w)) <= 1)%nat.
Proof.
  intros U w Hr. pose proof (reachable_Inv U w Hr) as HI.
  destruct (reachable_timersOk U w Hr) as [Hn _].
  split; [exact Hn|]. split.
  - destruct (hoverTimeout w) as [h|] eqn:Eh.
    + apply (at_most_one_with_handle _ h _ Hn).
      intros t Ht Hs. destruct (inv_show w HI t Ht Hs) as [E _]. congruence.
    + rewrite (filter_none _ _ (noShowTimer_unset w HI Eh)). simpl. lia.
  - destruct (cleanupTimeout w) as [c|] eqn:Ec.
    + apply (at_most_one_with_handle _ c _ Hn).
      intros t Ht Hs. pose proof (inv_cleanup w HI t Ht Hs). congruence.
    + rewrite (filter_none _ _ (noCleanupTimer_unset w HI Ec)). simpl. lia.
Qed.

(** The pointer left [exampleLink] and its popup twice over: one grace timer
    is pending. *)
Lemma one_timer_of_each_kind_witness :
  (List.length
     (filter isCleanupTimer
        (timers (run URL_href_simple [PopupMouseleave 0; TimePasses 700; PopupMouseleave 0]
                   hidePendingWorld))) <= 1)%nat.
Proof.
  apply (one_timer_of_each_kind URL_href_simple).
  apply reachable_run. exact hidePendingWorld_reachable.
Defined.

(* ================================================================== *)
(** ** Explicit teardown *)

Lemma Idle_cleanupActivePreview (w : World) : Inv w -> Idle (cleanupActivePreview w).
Proof.
  intros HI. destruct (cleanupActivePreview_idle w HI) as [_ [H1 [_ [_ [H2 [H3 H4]]]]]].
  unfold Idle, showTimerPending, cleanupTimerPending.
  split; [exact H1|]. split; [apply existsb_false_iff; exact H2|].
  split; [apply existsb_false_iff; exact H3 | exact H4].
Qed.

(** X11. Unloading the plugin from any reachable world leaves the controller
    idle: no active preview, no popup in the document, no show timer and no
    cleanup timer pending. *)
Theorem onunload_leaves_idle :
  forall (U : string -> option string) (w : World),
    reachable U w -> Idle (step U Unload w).
Proof.
  intros U w Hr. apply Idle_cleanupActivePreview. apply (reachable_Inv U w Hr).
Qed.

Lemma onunload_leaves_idle_witness : Idle (step URL_href_simple Unload hidePendingWorld).
Proof. apply onunload_leaves_idle. exact hidePendingWorld_reachable. Defined.

(** X12. In modifier-required mode with close-on-release enabled, releasing
    the configured modifier key tears everything down at once, from any
    reachable world and wherever the pointer is: the controller is idle
    afterwards.  With close-on-release disabled the same key-up changes
    nothing. *)
Theorem modifier_release_tears_down :
  forall (U : string -> option string) (key : string) (w : World),
    reachable U w ->
    requireModifierKey (settings w) = true ->
    isModifierKeyEvent (settings w) key = true ->
    (closeOnModifierRelease (settings w) = true -> Idle (step U (Keyup key) w))
    /\ (closeOnModifierRelease (settings w) = false -> step U (Keyup key) w = w).
Proof.
  intros U key w Hr Hreq Hkey. simpl. unfold onKeyup, handleModifierKeyUp.
  rewrite Hreq, Hkey. simpl. split; intros Hc; rewrite Hc.
  - apply Idle_cleanupActivePreview. apply (reachable_Inv U w Hr).
  - reflexivity.
Qed.

Lemma modifier_release_tears_down_witness :
  Idle (step URL_href_simple (Keyup "Control") visibleWorld).
Proof.
  apply (proj1 (modifier_release_tears_down URL_href_simple "Control" visibleWorld
                  visibleWorld_reachable eq_refl eq_refl)).
  reflexivity.
Defined.

(* ================================================================== *)
(** ** Time passing *)

Lemma showTimerPending_false (w : World) : showTimerPending w = false <-> noShowTimer w.
Proof. apply existsb_false_iff. Qed.

Lemma cleanupTimerPending_false (w : World) :
  cleanupTimerPending w = false <-> noCleanupTimer w.
Proof. apply existsb_false_iff. Qed.

(** A property kept by every firing of a due timer is kept by [runDue]. *)
Lemma runDue_invariant (R : World -> Prop) (T : Z) :
  (forall w t, R w -> In t (timers w) -> due t <= T -> R (fireTimer t w)) ->
  forall fuel w, R w -> R (runDue fuel T w).
Proof.
  intros Hstep fuel. induction fuel as [|f IH]; intros w H; simpl.
  - exact H.
  - destruct (nextDue T (timers w)) as [t|] eqn:E; [|exact H].
    apply nextDue_In in E. apply IH. apply Hstep; tauto.
Qed.

Lemma callback_settle (t : Timer) :
  isShowTimer t = false -> isCleanupTimer t = false -> exists p, callback t = CbSettle p.
Proof.
  unfold isShowTimer, isCleanupTimer. destruct (callback t); try discriminate.
  intros _ _. eexists. reflexivity.
Qed.

(** With no show and no cleanup timer in the queue, a firing timer is a
    settle timer: the controller and the set of attached popups stay as they
    are. *)
Lemma fireTimer_quiet (t : Timer) (w : World) :
  noShowTimer w -> noCleanupTimer w -> In t (timers w) ->
  noShowTimer (fireTimer t w) /\ noCleanupTimer (fireTimer t w)
  /\ activePreview (fireTimer t w) = activePreview w
  /\ attachedPopups (fireTimer t w) = attachedPopups w.
Proof.
  intros Hs Hc Hin. destruct (callback_settle t (Hs t Hin) (Hc t Hin)) as [p Ep].
  unfold fireTimer. rewrite Ep. cbv zeta.
  split; [|split; [|split]].
  - intros u Hu. apply In_cleared in Hu. apply Hs. apply Hu.
  - intros u Hu. apply In_cleared in Hu. apply Hc. apply Hu.
  - reflexivity.
  - unfold attachedPopups. cbn. apply attachedPopups_update; reflexivity.
Qed.

Lemma advanceTo_quiet (T : Z) (w : World) :
  noShowTimer w -> noCleanupTimer w ->
  noShowTimer (advanceTo T w) /\ noCleanupTimer (advanceTo T w)
  /\ activePreview (advanceTo T w) = activePreview w
  /\ attachedPopups (advanceTo T w) = attachedPopups w.
Proof.
  intros Hs Hc.
  apply (runDue_invariant
           (fun w' => noShowTimer w' /\ noCleanupTimer w'
                      /\ activePreview w' = activePreview w
                      /\ attachedPopups w' = attachedPopups w) T).
  - intros w' t [Hs' [Hc' [Ha Hp]]] Hin _.
    destruct (fireTimer_quiet t w' Hs' Hc' Hin) as [H1 [H2 [H3 H4]]].
    split; [exact H1|]. split; [exact H2|]. split; congruence.
  - split; [exact Hs|]. split; [exact Hc|]. split; reflexivity.
Qed.

(** X13. Time alone never dismisses a visible preview and never creates one:
    from a reachable world in Visible (an active preview, no cleanup timer
    pending), any passage of time without input leaves the same preview
    active and attached, still Visible; from an idle world it leaves the
    world idle. *)
Theorem time_keeps_visible_and_idle :
  forall (U : string -> option string) (w : World) (T : Z),
    reachable U w ->
    (Visible w ->
       Visible (step U (TimePasses T) w)
       /\ activePreview (step U (TimePasses T) w) = activePreview w
       /\ attachedPopups (step U (TimePasses T) w) = attachedPopups w)
    /\ (Idle w -> Idle (step U (TimePasses T) w)).
Proof.
  intros U w T Hr. pose proof (reachable_Inv U w Hr) as HI. simpl. split.
  - intros [Ha Hc].
    assert (Hs : noShowTimer w) by (apply noShowTimer_active; assumption).
    assert (Hc' : noCleanupTimer w) by (apply cleanupTimerPending_false; exact Hc).
    destruct (advanceTo_quiet T w Hs Hc') as [H1 [H2 [H3 H4]]].
    split; [|split; assumption]. split.
    + rewrite H3. exact Ha.
    + apply cleanupTimerPending_false. exact H2.
  - intros [Ha [Hs [Hc Hp]]].
    assert (Hs' : noShowTimer w) by (apply showTimerPending_false; exact Hs).
    assert (Hc' : noCleanupTimer w) by (apply cleanupTimerPending_false; exact Hc).
    destruct (advanceTo_quiet T w Hs' Hc') as [H1 [H2 [H3 H4]]].
    split; [congruence|]. split; [apply showTimerPending_false; exact H1|].
    split; [apply cleanupTimerPending_false; exact H2 | congruence].
Qed.

Lemma time_keeps_visible_and_idle_witness :
  activePreview (step URL_href_simple (TimePasses 3600000) visibleWorld)
  = activePreview visibleWorld.
Proof.
  destruct (proj1 (time_keeps_visible_and_idle URL_href_simple visibleWorld 3600000
                     visibleWorld_reachable)) as [_ [H _]].
  - split; reflexivity.
  - exact H.
Defined.

(** X14. Entering the popup during the grace window rescues the preview: from
    a reachable world in HidePending, the popup's [mouseenter] cancels the
    grace timer, the world is Visible, and however much time then passes
    without input the same preview stays active and attached. *)
Theorem popup_mouseenter_rescues_preview :
  forall (U : string -> option string) (w : World) (p : nat) (T : Z),
    reachable U w ->
    HidePending w ->
    popupExists p w = true ->
    Visible (step U (PopupMouseenter p) w)
    /\ activePreview (run U [PopupMouseenter p; TimePasses T] w) = activePreview w
    /\ attachedPopups (run U [PopupMouseenter p; TimePasses T] w) = attachedPopups w.
Proof.
  intros U w p T Hr [Ha Hc] Hp. pose proof (reachable_Inv U w Hr) as HI.
  unfold run. simpl fold_left. cbn [step]. rewrite Hp. unfold onPopupMouseenter.
  assert (Hex : exists c, cleanupTimeout w = Some c).
  { unfold cleanupTimerPending in Hc. apply existsb_exists in Hc.
    destruct Hc as [t [Ht Hk]]. exists (tid t). apply (inv_cleanup w HI t Ht Hk). }
  destruct Hex as [c Ec].
  assert (Hc1 : noCleanupTimer (cancelCleanupTimer w)).
  { unfold cancelCleanupTimer. rewrite Ec.
    exact (noCleanupTimer_cleared w c HI Ec). }
  assert (Hs1 : noShowTimer (cancelCleanupTimer w)).
  { unfold cancelCleanupTimer. rewrite Ec. intros t Ht. apply In_cleared in Ht.
    apply (noShowTimer_active w HI Ha). apply Ht. }
  assert (Ha1 : activePreview (cancelCleanupTimer w) = activePreview w)
    by (unfold cancelCleanupTimer; rewrite Ec; reflexivity).
  assert (Hp1 : attachedPopups (cancelCleanupTimer w) = attachedPopups w)
    by (unfold cancelCleanupTimer; rewrite Ec; reflexivity).
  split.
  - split; [rewrite Ha1; exact Ha | apply cleanupTimerPending_false; exact Hc1].
  - destruct (advanceTo_quiet T _ Hs1 Hc1) as [_ [_ [H3 H4]]]. split; congruence.
Qed.

Lemma popup_mouseenter_rescues_preview_witness :
  activePreview (run URL_href_simple [PopupMouseenter 0; TimePasses 100000] hidePendingWorld)
  = activePreview hidePendingWorld.
Proof.
  apply (popup_mouseenter_rescues_preview URL_href_simple hidePendingWorld 0 100000
           hidePendingWorld_reachable).
  - split; reflexivity.
  - reflexivity.
Defined.

(* ================================================================== *)
(** ** The grace timer *)

Lemma isMouseOverPreviewOrLink_same (w w' : World) :
  activePreview w' = activePreview w -> env w' = env w ->
  lastMouseX w' = lastMouseX w -> lastMouseY w' = lastMouseY w ->
  isMouseOverPreviewOrLink w' = isMouseOverPreviewOrLink w.
Proof. intros E1 E2 E3 E4. unfold isMouseOverPreviewOrLink. rewrite E1, E2, E3, E4. reflexivity. Qed.

Lemma gracePending_other_timer (w w' : World) (t t' : Timer) :
  isSome (activePreview w) = true -> isCleanupTimer t = true ->
  gracePending w t w' -> In t' (timers w') -> t' <> t ->
  gracePending w t (fireTimer t' w').
Proof.
  intros Ha Hk [HI [Hok [Ea [Ee [Ex [Ey Hin]]]]]] Hin' Hne.
  assert (Hs : isShowTimer t' = false).
  { apply (noShowTimer_active w' HI); [rewrite Ea; exact Ha | exact Hin']. }
  assert (Hc : isCleanupTimer t' = false).
  { destruct (isCleanupTimer t') eqn:E; [|reflexivity]. exfalso. apply Hne.
    apply (same_handle_same_timer (timers w')); try assumption; [apply Hok|].
    pose proof (inv_cleanup w' HI t Hin Hk). pose proof (inv_cleanup w' HI t' Hin' E).
    congruence. }
  destruct (callback_settle t' Hs Hc) as [p Ep].
  split; [apply Inv_fireTimer; assumption|].
  split; [apply timersOk_fireTimer; exact Hok|].
  unfold fireTimer. rewrite Ep. cbv zeta. cbn.
  split; [exact Ea|]. split; [exact Ee|]. split; [exact Ex|]. split; [exact Ey|].
  apply filter_In. split; [exact Hin|]. apply negb_true_iff. apply Pos.eqb_neq.
  intros E. apply Hne. symmetry.
  apply (same_handle_same_timer (timers w')); try assumption. apply Hok.
Qed.

Lemma gracePending_fires (w w' : World) (t : Timer) :
  Inv w -> isSome (activePreview w) = true -> isCleanupTimer t = true ->
  gracePending w t w' -> graceOutcome w (fireTimer t w').
Proof.
  intros HIw Ha Hk [HI [Hok [Ea [Ee [Ex [Ey Hin]]]]]].
  assert (Ecb : callback t = CbCleanup).
  { unfold isCleanupTimer in Hk. destruct (callback t); try discriminate. reflexivity. }
  pose proof (inv_cleanup w' HI t Hin Hk) as Ec.
  set (w1 := set_now (Z.max (now w') (due t)) (clearTimeout (tid t) w')).
  assert (H1 : Inv w1) by (apply Inv_set_now; apply Inv_clearTimeout; exact HI).
  assert (Hs1 : noShowTimer w1).
  { intros u Hu. apply In_cleared in Hu.
    apply (noShowTimer_active w' HI); [rewrite Ea; exact Ha | apply Hu]. }
  assert (Hc1 : noCleanupTimer w1) by exact (noCleanupTimer_cleared w' (tid t) HI Ec).
  assert (Eover : isMouseOverPreviewOrLink w1 = isMouseOverPreviewOrLink w).
  { apply isMouseOverPreviewOrLink_same; assumption. }
  assert (Ea1 : activePreview w1 = activePreview w) by exact Ea.
  unfold graceOutcome, fireTimer. rewrite Ecb. cbv zeta. fold w1.
  unfold cleanupTimerFired. rewrite Ea1, Ha, Eover. cbn [andb].
  destruct (isMouseOverPreviewOrLink w).
  - split; [exact Hs1|]. split; [exact Hc1|]. split; [exact Ea|].
    change (attachedPopups (set_cleanupTimeout None w1)) with (attachedPopups w').
    rewrite (inv_panels w' HI), (inv_panels w HIw). unfold heldPopups. rewrite Ea. reflexivity.
  - destruct (cleanupActivePreview_idle w1 H1) as [_ [Hn [_ [_ [Hs [Hc Hp]]]]]].
    split; [exact Hs|]. split; [exact Hc|]. split; [exact Hn | exact Hp].
Qed.

Lemma graceOutcome_step (w w' : World) (t' : Timer) :
  graceOutcome w w' -> In t' (timers w') -> graceOutcome w (fireTimer t' w').
Proof.
  intros [Hs [Hc Ho]] Hin. destruct (fireTimer_quiet t' w' Hs Hc Hin) as [H1 [H2 [H3 H4]]].
  split; [exact H1|]. split; [exact H2|].
  destruct (isMouseOverPreviewOrLink w); destruct Ho as [Ho1 Ho2]; split; congruence.
Qed.

(** X15. The grace timer decides at fire time.  From a reachable world with
    an active preview and a pending grace timer, with no further input:
    before the timer is due the preview stays active and attached; once it
    is due, the preview is torn down and the controller is idle if the last
    known pointer position is outside both the popup's and the link's
    rectangle, and otherwise the preview survives, Visible again with no
    grace timer left. *)
Theorem grace_timer_outcome :
  forall (U : string -> option string) (w : World) (t : Timer) (T : Z),
    reachable U w ->
    isSome (activePreview w) = true ->
    In t (timers w) ->
    isCleanupTimer t = true ->
    (T < due t ->
       activePreview (step U (TimePasses T) w) = activePreview w
       /\ attachedPopups (step U (TimePasses T) w) = attachedPopups w)
    /\ (due t <= T -> isMouseOverPreviewOrLink w = false ->
        Idle (step U (TimePasses T) w))
    /\ (due t <= T -> isMouseOverPreviewOrLink w = true ->
        Visible (step U (TimePasses T) w)
        /\ activePreview (step U (TimePasses T) w) = activePreview w
        /\ attachedPopups (step U (TimePasses T) w) = attachedPopups w).
Proof.
  intros U w t T Hr Ha Hin Hk.
  pose proof (reachable_Inv U w Hr) as HI.
  pose proof (reachable_timersOk U w Hr) as Hok.
  assert (H0 : gracePending w t w).
  { split; [exact HI|]. split; [exact Hok|]. repeat split. exact Hin. }
  cbn [step].
  assert (Hlate : due t <= T -> graceOutcome w (advanceTo T w)).
  { intros Hdue.
    assert (R : gracePending w t (runDue (List.length (timers w)) T w)
                \/ graceOutcome w (runDue (List.length (timers w)) T w)).
    { apply (runDue_invariant (fun w' => gracePending w t w' \/ graceOutcome w w') T).
      - intros w' t' [Hp|Ho] Hin' _.
        + destruct (Pos.eq_dec (tid t') (tid t)) as [E|E].
          * assert (t' = t).
            { destruct Hp as [_ [Hok' [_ [_ [_ [_ Hint]]]]]].
              apply (same_handle_same_timer (timers w')); try assumption. apply Hok'. }
            subst t'. right. apply gracePending_fires; assumption.
          * left. apply gracePending_other_timer; try assumption. congruence.
        + right. apply graceOutcome_step; assumption.
      - left. exact H0. }
    destruct R as [Hp|Ho]; [|exact Ho].
    exfalso. destruct Hp as [_ [_ [_ [_ [_ [_ Hint]]]]]].
    pose proof (advanceTo_complete T w t Hint). lia. }
  split; [|split].
  - intros Hearly.
    assert (R : gracePending w t (runDue (List.length (timers w)) T w)).
    { apply (runDue_invariant (gracePending w t) T); [|exact H0].
      intros w' t' Hp Hin' Hdue.
      apply gracePending_other_timer; try assumption. intros ->. lia. }
    destruct R as [HI' [_ [Ea _]]].
    split; [exact Ea|].
    change (attachedPopups (advanceTo T w))
      with (attachedPopups (runDue (List.length (timers w)) T w)).
    rewrite (inv_panels _ HI'), (inv_panels w HI). unfold heldPopups. rewrite Ea. reflexivity.
  - intros Hdue Hout. destruct (Hlate Hdue) as [Hs [Hc Ho]]. rewrite Hout in Ho.
    destruct Ho as [Hn Hp]. split; [exact Hn|].
    split; [apply showTimerPending_false; exact Hs|].
    split; [apply cleanupTimerPending_false; exact Hc | exact Hp].
  - intros Hdue Hover. destruct (Hlate Hdue) as [Hs [Hc Ho]]. rewrite Hover in Ho.
    destruct Ho as [Hn Hp]. split; [|split; assumption].
    split; [rewrite Hn; exact Ha | apply cleanupTimerPending_false; exact Hc].
Qed.

(** In [hidePendingWorld] the grace timer is due at 900 ms and the pointer
    is at the origin, outside the link and the popup. *)
Lemma grace_timer_outcome_witness :
  Idle (step URL_href_simple (TimePasses 900) hidePendingWorld).
Proof.
  destruct (grace_timer_outcome URL_href_simple hidePendingWorld (mkTimer 2 900 CbCleanup)
              900 hidePendingWorld_reachable eq_refl) as [_ [H _]].
  - vm_compute. left. reflexivity.
  - reflexivity.
  - apply H; [simpl; lia | reflexivity].
Defined.

(* ================================================================== *)
(** ** A preview opened from the keyboard *)

Lemma dispatchMouseleave_no_listener (l : NodeId) (toElement : option Path) (w : World) :
  (forall x, In x (mouseleaveListeners w) -> NodeId_eqb x l = false) ->
  dispatchMouseleave l toElement w = w.
Proof.
  unfold dispatchMouseleave. generalize (mouseleaveListeners w) as ls. intros ls.
  induction ls as [|x ls IH]; intros H; simpl.
  - reflexivity.
  - rewrite (H x (or_introl eq_refl)). apply IH. intros z Hz. apply H. right. exact Hz.
Qed.

Lemma advanceTo_no_timers (T : Z) (w : World) :
  timers w = [] -> advanceTo T w = set_now (Z.max (now w) T) w.
Proof. intros H. unfold advanceTo. rewrite H. reflexivity. Qed.

(** X16. A preview opened by pressing the modifier key over a link is not
    tied to the link: [handleModifierKeyDown] arms the show timer without
    registering a [mouseleave] listener.  On a fresh plugin in
    modifier-required mode, with the pointer resting on a link, the
    modifier's key-down shows the preview after the hover delay, and the
    pointer then leaving the link arms no grace timer: with no further input
    the preview stays active, with an empty timer queue, however much time
    passes. *)
Theorem keydown_preview_outlives_link_departure :
  forall (U : string -> option string) (s : LinkPreviewSettings) (ev : Env)
         (key : string) (x y : Z) (path : Path) (el : Element) (url : string)
         (toElement : option Path) (T : Z),
    requireModifierKey s = true ->
    isModifierKeyEvent s key = true ->
    0 <= hoverDelay s ->
    elementFromPoint ev x y = Some path ->
    findLinkElement U ev path None = Some (el, url) ->
    let w := run U [Mousemove x y; Keydown key; TimePasses (hoverDelay s);
                    LinkMouseleave (nodeId el) toElement; TimePasses T]
               (initialWorld s ev) in
    activePreview w = Some (mkActive 0 (nodeId el))
    /\ popups w = [firstPanel s ev (nodeId el) url]
    /\ timers w = []
    /\ mouseleaveListeners w = [].
Proof.
  intros U s ev key x y path el url toElement T Hreq Hkey Hd Hpt Hfind. cbv zeta.
  set (W2 := {| settings := s; activePreview := None; hoverTimeout := Some 1%positive;
                cleanupTimeout := None; lastMouseX := x; lastMouseY := y; now := 0;
                timers := [mkTimer 1 (hoverDelay s) (CbShowPreview (nodeId el) url)];
                nextTimerId := 2%positive; popups := []; mouseleaveListeners := [];
                env := ev |}).
  assert (E2 : run U [Mousemove x y; Keydown key] (initialWorld s ev) = W2).
  { unfold run. cbn [fold_left step]. unfold onMousemove, onKeydown. cbn.
    rewrite andb_false_r. cbn. rewrite Hreq, Hkey. cbn. unfold handleModifierKeyDown. cbn.
    rewrite Hpt, Hfind. unfold armShowTimer. cbn. rewrite Z.max_r by exact Hd. reflexivity. }
  change (run U [Mousemove x y; Keydown key; TimePasses (hoverDelay s);
                 LinkMouseleave (nodeId el) toElement; TimePasses T] (initialWorld s ev))
    with (advanceTo T
            (dispatchMouseleave (nodeId el) toElement
               (advanceTo (hoverDelay s)
                  (run U [Mousemove x y; Keydown key] (initialWorld s ev))))).
  rewrite E2.
  assert (E3 : nextDue (hoverDelay s) (timers W2)
               = Some (mkTimer 1 (hoverDelay s) (CbShowPreview (nodeId el) url))).
  { unfold nextDue. cbn. rewrite Z.leb_refl. reflexivity. }
  assert (F : timers (advanceTo (hoverDelay s) W2) = []
              /\ popups (advanceTo (hoverDelay s) W2) = [firstPanel s ev (nodeId el) url]
              /\ activePreview (advanceTo (hoverDelay s) W2) = Some (mkActive 0 (nodeId el))
              /\ mouseleaveListeners (advanceTo (hoverDelay s) W2) = []).
  { unfold advanceTo. change (List.length (timers W2)) with 1%nat. cbn [runDue].
    rewrite E3. cbn. repeat split. }
  destruct F as [F1 [F2 [F3 F4]]].
  rewrite dispatchMouseleave_no_listener by (rewrite F4; intros z []).
  rewrite (advanceTo_no_timers T _ F1). cbn.
  split; [exact F3|]. split; [exact F2|]. split; [exact F1 | exact F4].
Qed.

(** The pointer rests on [exampleLink], Control goes down, the preview
    shows, the pointer leaves the link, an hour passes. *)
Lemma keydown_preview_outlives_link_departure_witness :
  activePreview (keydownRun 3600000) = Some (mkActive 0 (DocNode 1)).
Proof.
  apply (keydown_preview_outlives_link_departure URL_href_simple exampleSettings exampleEnv
           "Control" 120 210 examplePath exampleLink "https://example.com/" None 3600000);
    try reflexivity.
  discriminate.
Defined.

(* ================================================================== *)
(** ** Where popups come from *)

Lemma iframeSrc_updatePopup (p : nat) (f : Popup -> Popup) (ps : list Popup) :
  (forall q, iframeSrc (f q) = iframeSrc q) ->
  map iframeSrc (updatePopup p f ps) = map iframeSrc ps.
Proof.
  intros H. unfold updatePopup. rewrite map_map. apply map_ext.
  intros q. destruct (Nat.eqb (popupId q) p); [apply H | reflexivity].
Qed.

Lemma popupUrls_cleanupActivePreview (w : World) :
  popupUrls (cleanupActivePreview w) = popupUrls w.
Proof.
  unfold cleanupActivePreview, popupUrls. destruct w as [s a h c x y n ts nx ps ls e]. cbn.
  destruct a; cbn; destruct h; cbn; destruct c; cbn;
    try reflexivity; apply iframeSrc_updatePopup; reflexivity.
Qed.

Lemma popupUrls_clearIfSet (h : option positive) (w : World) :
  popupUrls (clearIfSet h w) = popupUrls w.
Proof. destruct h; reflexivity. Qed.

Lemma popupUrls_cancelCleanupTimer (w : World) :
  popupUrls (cancelCleanupTimer w) = popupUrls w.
Proof. unfold cancelCleanupTimer. destruct (cleanupTimeout w); reflexivity. Qed.

Lemma popupUrls_startCleanupTimer (w : World) :
  popupUrls (startCleanupTimer w) = popupUrls w.
Proof. unfold startCleanupTimer. destruct (cleanupTimeout w); reflexivity. Qed.

Lemma popupUrls_hoverLink (l : NodeId) (url : string) (w : World) :
  popupUrls (hoverLink l url w) = popupUrls w.
Proof.
  unfold hoverLink. cbv zeta.
  destruct (ownsActivePreview l (clearIfSet (hoverTimeout w) w)).
  - rewrite popupUrls_cancelCleanupTimer. apply popupUrls_clearIfSet.
  - change (popupUrls (cleanupActivePreview (clearIfSet (hoverTimeout w) w)) = popupUrls w).
    rewrite popupUrls_cleanupActivePreview. apply popupUrls_clearIfSet.
Qed.

Lemma popupUrls_dispatchMouseleave (l : NodeId) (toElement : option Path) (w : World) :
  popupUrls (dispatchMouseleave l toElement w) = popupUrls w.
Proof.
  unfold dispatchMouseleave. generalize (mouseleaveListeners w) as ls. intros ls.
  revert w. induction ls as [|x ls IH]; intros w; simpl.
  - reflexivity.
  - rewrite IH. destruct (NodeId_eqb x l); [|reflexivity].
    unfold handleMouseLeave.
    destruct (match toElement with
              | Some t => match activePreview w with
                          | Some ap => contains (PopupNode (element ap)) t
                          | None => false
                          end
              | None => false
              end); [reflexivity|].
    change (popupUrls (startCleanupTimer w) = popupUrls w).
    apply popupUrls_startCleanupTimer.
Qed.

Lemma popupUrls_handleModifierKeyDown (U : string -> option string) (w : World) :
  popupUrls (handleModifierKeyDown U w) = popupUrls w.
Proof.
  unfold handleModifierKeyDown.
  destruct (isSome (activePreview w)); [reflexivity|].
  destruct (elementFromPoint (env w) (lastMouseX w) (lastMouseY w)); [|reflexivity].
  destruct (findLinkElement U (env w) p None) as [[el url]|]; [|reflexivity].
  change (popupUrls (clearIfSet (hoverTimeout w) w) = popupUrls w).
  apply popupUrls_clearIfSet.
Qed.

(** X17. Popups come from the show timer only.  No input event (hover,
    pointer move, key, pointer departure, iframe load or failure, change of
    settings or layout, unload) adds a popup or alters a popup's target,
    even with a hover delay of zero; and a firing timer adds exactly one
    popup, targeting its URL, when it is a show timer, and none otherwise. *)
Theorem popups_come_from_show_timer :
  forall (U : string -> option string) (a : Action) (w : World),
    (isTimerAction a = false -> popupUrls (step U a w) = popupUrls w)
    /\ (forall t, popupUrls (fireTimer t w)
                  = (popupUrls w
                     ++ match callback t with
                        | CbShowPreview _ url => [url]
                        | _ => []
                        end)%list).
Proof.
  intros U a w. split.
  - intros Ha. destruct a; try discriminate; cbn [step].
    + unfold handleLinkHover. destruct (locateHover U e w) as [[l url]|]; [|reflexivity].
      apply popupUrls_hoverLink.
    + reflexivity.
    + unfold onKeydown. cbv zeta.
      assert (E : popupUrls (if String.eqb key "Escape" && isSome (activePreview w)
                             then cleanupActivePreview w else w) = popupUrls w).
      { destruct (String.eqb key "Escape" && isSome (activePreview w));
          [apply popupUrls_cleanupActivePreview | reflexivity]. }
      destruct (requireModifierKey _ && isModifierKeyEvent _ key); [|exact E].
      rewrite popupUrls_handleModifierKeyDown. exact E.
    + unfold onKeyup, handleModifierKeyUp.
      destruct (requireModifierKey (settings w) && isModifierKeyEvent (settings w) key);
        [|reflexivity].
      destruct (closeOnModifierRelease (settings w));
        [apply popupUrls_cleanupActivePreview | reflexivity].
    + apply popupUrls_dispatchMouseleave.
    + destruct (popupExists p w); [apply popupUrls_cancelCleanupTimer | reflexivity].
    + destruct (popupExists p w); [apply popupUrls_startCleanupTimer | reflexivity].
    + destruct (popupExists p w); reflexivity.
    + destruct (popupExists p w); [|reflexivity].
      unfold onIframeError, popupUrls. cbn. apply iframeSrc_updatePopup. reflexivity.
    + reflexivity.
    + reflexivity.
    + apply popupUrls_cleanupActivePreview.
  - intros t. unfold fireTimer. cbv zeta. destruct (callback t).
    + unfold popupUrls, showPreview. cbn. rewrite map_app. reflexivity.
    + rewrite app_nil_r. unfold cleanupTimerFired.
      destruct (isSome _ && isMouseOverPreviewOrLink _); [reflexivity|].
      change (popupUrls (cleanupActivePreview
                           (set_now (Z.max (now w) (due t)) (clearTimeout (tid t) w)))
              = popupUrls w).
      rewrite popupUrls_cleanupActivePreview. reflexivity.
    + rewrite app_nil_r. unfold popupUrls. cbn. apply iframeSrc_updatePopup. reflexivity.
Qed.

(** A second hover while the first preview is up adds no popup. *)
Lemma popups_come_from_show_timer_witness :
  popupUrls (step URL_href_simple (Mouseover otherHover) visibleWorld)
  = popupUrls visibleWorld.
Proof.
  apply (proj1 (popups_come_from_show_timer URL_href_simple (Mouseover otherHover)
                  visibleWorld)).
  reflexivity.
Defined.

(* ================================================================== *)
(** ** The [mouseleave] listeners *)

Lemma NodeId_eqb_eq (a b : NodeId) : NodeId_eqb a b = true <-> a = b.
Proof.
  destruct a, b; simpl; split; intros H; try discriminate.
  - apply Nat.eqb_eq in H. congruence.
  - injection H as ->. apply Nat.eqb_refl.
  - apply Nat.eqb_eq in H. congruence.
  - injection H as ->. apply Nat.eqb_refl.
Qed.

Lemma removeListener_first (l : NodeId) (pre rest : list NodeId) :
  (forall x, In x pre -> NodeId_eqb x l = false) ->
  removeListener l (pre ++ l :: rest) = (pre ++ rest)%list.
Proof.
  induction pre as [|x pre IH]; simpl; intros H.
  - rewrite NodeId_eqb_refl. reflexivity.
  - rewrite (H x (or_introl eq_refl)). f_equal. apply IH.
    intros z Hz. apply H. right. exact Hz.
Qed.

Lemma movesIntoPopup_handleMouseLeave (l : NodeId) (toElement : option Path) (w : World) :
  movesIntoPopup toElement (handleMouseLeave l toElement w) = movesIntoPopup toElement w.
Proof.
  unfold handleMouseLeave. fold (movesIntoPopup toElement w).
  destruct (movesIntoPopup toElement w) eqn:E; [exact E|].
  unfold movesIntoPopup, startCleanupTimer in *.
  destruct (cleanupTimeout w); exact E.
Qed.

Lemma dispatch_listeners (l : NodeId) (toElement : option Path) (todo : list NodeId) :
  forall (w : World) (pre : list NodeId),
    movesIntoPopup toElement w = false ->
    (forall x, In x pre -> NodeId_eqb x l = false) ->
    mouseleaveListeners w = (pre ++ todo)%list ->
    mouseleaveListeners
      (fold_left (fun w' l' => if NodeId_eqb l' l then handleMouseLeave l toElement w' else w')
                 todo w)
    = (pre ++ filter (fun x => negb (NodeId_eqb x l)) todo)%list.
Proof.
  induction todo as [|x todo IH]; intros w pre Hm Hpre E; simpl.
  - exact E.
  - destruct (NodeId_eqb x l) eqn:Ex; simpl.
    + apply NodeId_eqb_eq in Ex. subst x. apply IH.
      * rewrite movesIntoPopup_handleMouseLeave. exact Hm.
      * exact Hpre.
      * unfold handleMouseLeave. fold (movesIntoPopup toElement w). rewrite Hm.
        change (mouseleaveListeners
                  (set_mouseleaveListeners
                     (removeListener l (mouseleaveListeners (startCleanupTimer w)))
                     (startCleanupTimer w)))
          with (removeListener l (mouseleaveListeners (startCleanupTimer w))).
        assert (El : mouseleaveListeners (startCleanupTimer w) = mouseleaveListeners w)
          by (unfold startCleanupTimer; destruct (cleanupTimeout w); reflexivity).
        rewrite El, E. apply removeListener_first. exact Hpre.
    + rewrite (IH w (pre ++ [x])%list Hm).
      * rewrite <- app_assoc. reflexivity.
      * intros z Hz. apply in_app_or in Hz. destruct Hz as [Hz|[<-|[]]]; [apply Hpre; exact Hz | exact Ex].
      * rewrite E, <- app_assoc. reflexivity.
Qed.

(** X18. The [mouseleave] listeners remove themselves.  When the pointer
    leaves a link for anywhere but the popup of the active preview, every
    listener registered on that link runs and is removed, however many
    hovers registered one, and the listeners on other links are untouched;
    if at least one ran, a grace timer is pending afterwards.  When the
    pointer leaves the link for the active preview's popup, nothing changes
    at all: no grace timer is armed and the listeners stay. *)
Theorem mouseleave_listeners_remove_themselves :
  forall (l : NodeId) (toElement : option Path) (w : World),
    (movesIntoPopup toElement w = false ->
       mouseleaveListeners (dispatchMouseleave l toElement w)
       = filter (fun x => negb (NodeId_eqb x l)) (mouseleaveListeners w)
       /\ (In l (mouseleaveListeners w) ->
           cleanupTimerPending (dispatchMouseleave l toElement w) = true))
    /\ (movesIntoPopup toElement w = true -> dispatchMouseleave l toElement w = w).
Proof.
  intros l toElement w. split.
  - intros Hm. split.
    + apply (dispatch_listeners l toElement (mouseleaveListeners w) w [] Hm);
        [intros x [] | reflexivity].
    + unfold dispatchMouseleave. generalize (mouseleaveListeners w) as ls. intros ls.
      assert (G : forall ls w0,
                 movesIntoPopup toElement w0 = false ->
                 (In l ls \/ cleanupTimerPending w0 = true) ->
                 cleanupTimerPending
                   (fold_left (fun w' l' => if NodeId_eqb l' l
                                            then handleMouseLeave l toElement w' else w')
                              ls w0) = true).
      { clear. induction ls as [|x ls IH]; intros w0 Hm H; simpl.
        - destruct H as [[]|H]. exact H.
        - destruct (NodeId_eqb x l) eqn:Ex.
          + apply IH; [rewrite movesIntoPopup_handleMouseLeave; exact Hm|].
            right. unfold handleMouseLeave. fold (movesIntoPopup toElement w0). rewrite Hm.
            unfold cleanupTimerPending, startCleanupTimer.
            destruct (cleanupTimeout w0); cbn; rewrite existsb_app; cbn;
              apply orb_true_r.
          + apply IH; [exact Hm|]. destruct H as [[->|H]|H].
            * rewrite NodeId_eqb_refl in Ex. discriminate.
            * left. exact H.
            * right. exact H. }
      intros Hin. apply G; [exact Hm | left; exact Hin].
  - intros Hm. unfold dispatchMouseleave. generalize (mouseleaveListeners w) as ls.
    intros ls. induction ls as [|x ls IH]; simpl; [reflexivity|].
    destruct (NodeId_eqb x l); [|exact IH].
    unfold handleMouseLeave. fold (movesIntoPopup toElement w). rewrite Hm. exact IH.
Qed.

(** Two hovers registered a listener each on [exampleLink]; the pointer
    leaves it for the page. *)
Lemma mouseleave_listeners_remove_themselves_witness :
  mouseleaveListeners
    (dispatchMouseleave (DocNode 1) None
       (run URL_href_simple [Mouseover exampleHover; Mouseover otherHover;
                             Mouseover exampleHover] exampleWorld))
  = [DocNode 3].
Proof.
  apply (proj1 (proj1 (mouseleave_listeners_remove_themselves (DocNode 1) None
                         (run URL_href_simple [Mouseover exampleHover; Mouseover otherHover;
                                               Mouseover exampleHover] exampleWorld))
                 eq_refl)).
Defined.

(* ================================================================== *)
(** ** The embedded content's load *)

Lemma In_updatePopup (p : nat) (f : Popup -> Popup) (ps : list Popup) (q : Popup) :
  In q (updatePopup p f ps) ->
  exists q0, In q0 ps /\ q = if Nat.eqb (popupId q0) p then f q0 else q0.
Proof.
  unfold updatePopup. intros H. apply in_map_iff in H. destruct H as [q0 [E Hin]].
  exists q0. split; [exact Hin | symmetry; exact E].
Qed.

Lemma length_updatePopup (p : nat) (f : Popup -> Popup) (ps : list Popup) :
  List.length (updatePopup p f ps) = List.length ps.
Proof. unfold updatePopup. apply length_map. Qed.

(** An update that keeps popup numbers and never undoes a load keeps
    [popupLoaded]. *)
Lemma loaded_updatePopup (p p' : nat) (f : Popup -> Popup) (ps : list Popup) :
  (forall q, popupId (f q) = popupId q) ->
  (forall q, iframeIsLoaded q = true /\ loadingAttached q = false ->
             iframeIsLoaded (f q) = true /\ loadingAttached (f q) = false) ->
  (forall q, In q ps -> popupId q = p ->
             iframeIsLoaded q = true /\ loadingAttached q = false) ->
  forall q, In q (updatePopup p' f ps) -> popupId q = p ->
            iframeIsLoaded q = true /\ loadingAttached q = false.
Proof.
  intros Hid Hkeep H q Hq Ep. apply In_updatePopup in Hq. destruct Hq as [q0 [Hin ->]].
  destruct (Nat.eqb (popupId q0) p').
  - apply Hkeep. apply (H q0 Hin). rewrite Hid in Ep. exact Ep.
  - apply (H q0 Hin Ep).
Qed.

Lemma loaded_cleanupActivePreview (p : nat) (w : World) :
  popupLoaded p w -> popupLoaded p (cleanupActivePreview w).
Proof.
  unfold popupLoaded, cleanupActivePreview. destruct w as [s a h c x y n ts nx ps ls e]. cbn.
  intros H. destruct a; cbn; destruct h; cbn; destruct c; cbn; try exact H;
    apply loaded_updatePopup; try exact H; try reflexivity; intros q Hq; exact Hq.
Qed.

Lemma length_popups_cleanupActivePreview (w : World) :
  List.length (popups (cleanupActivePreview w)) = List.length (popups w).
Proof.
  unfold cleanupActivePreview. destruct w as [s a h c x y n ts nx ps ls e]. cbn.
  destruct a; cbn; destruct h; cbn; destruct c; cbn;
    try reflexivity; apply length_updatePopup.
Qed.

(** Firing any timer keeps an existing popup in existence and loaded. *)
Lemma loaded_fireTimer (p : nat) (t : Timer) (w : World) :
  (p < List.length (popups w))%nat /\ popupLoaded p w ->
  (p < List.length (popups (fireTimer t w)))%nat /\ popupLoaded p (fireTimer t w).
Proof.
  intros [Hlt H]. unfold fireTimer. cbv zeta.
  set (w1 := set_now (Z.max (now w) (due t)) (clearTimeout (tid t) w)).
  assert (H1 : popupLoaded p w1) by exact H.
  assert (L1 : (p < List.length (popups w1))%nat) by exact Hlt.
  clearbody w1. destruct (callback t).
  - split.
    + unfold showPreview. cbn. rewrite length_app. simpl. lia.
    + unfold popupLoaded, showPreview. cbn. intros q Hq Ep.
      apply in_app_or in Hq. destruct Hq as [Hq|[<-|[]]]; [exact (H1 q Hq Ep)|].
      cbn in Ep. lia.
  - unfold cleanupTimerFired.
    destruct (isSome (activePreview w1) && isMouseOverPreviewOrLink w1).
    + split; [exact L1 | exact H1].
    + split.
      * change (p < List.length (popups (cleanupActivePreview w1)))%nat.
        rewrite length_popups_cleanupActivePreview. exact L1.
      * exact (loaded_cleanupActivePreview p w1 H1).
  - split.
    + cbn. rewrite length_updatePopup. exact L1.
    + unfold popupLoaded. cbn. apply loaded_updatePopup; try exact H1; try reflexivity.
      intros q _. split; reflexivity.
Qed.

Lemma length_popups_fireTimer (t : Timer) (w : World) :
  (List.length (popups w) <= List.length (popups (fireTimer t w)))%nat.
Proof.
  unfold fireTimer. cbv zeta.
  set (w1 := set_now (Z.max (now w) (due t)) (clearTimeout (tid t) w)).
  change (popups w) with (popups w1). clearbody w1. destruct (callback t).
  - unfold showPreview. cbn. rewrite length_app. lia.
  - unfold cleanupTimerFired.
    destruct (isSome (activePreview w1) && isMouseOverPreviewOrLink w1); [apply Nat.le_refl|].
    change (List.length (popups w1) <= List.length (popups (cleanupActivePreview w1)))%nat.
    rewrite length_popups_cleanupActivePreview. apply Nat.le_refl.
  - cbn. rewrite length_updatePopup. apply Nat.le_refl.
Qed.

(** A settle timer is not touched by [cleanupActivePreview]: the handles it
    clears name a show and a cleanup timer. *)
Lemma settle_survives_cleanup (ts : Timer) (w : World) :
  Inv w -> In ts (timers w) -> isShowTimer ts = false -> isCleanupTimer ts = false ->
  In ts (timers (cleanupActivePreview w)).
Proof.
  intros HI Hin Hs Hc.
  pose proof (inv_hover_kind w HI ts Hin) as Hk.
  pose proof (inv_cleanup_kind w HI ts Hin) as Hck.
  assert (Nh : forall h, hoverTimeout w = Some h -> negb (Pos.eqb (tid ts) h) = true).
  { intros h Eh. apply negb_true_iff. apply Pos.eqb_neq. intros E.
    rewrite Hk in Hs; [discriminate | congruence]. }
  assert (Nc : forall c, cleanupTimeout w = Some c -> negb (Pos.eqb (tid ts) c) = true).
  { intros c Ec. apply negb_true_iff. apply Pos.eqb_neq. intros E.
    rewrite Hck in Hc; [discriminate | congruence]. }
  clear Hk Hck HI. unfold cleanupActivePreview.
  destruct w as [s a h c x y n tms nx ps ls e]. cbn in *.
  destruct a; cbn; destruct h; cbn; destruct c; cbn;
    repeat (apply filter_In; split); try exact Hin;
    try (apply Nh; reflexivity); try (apply Nc; reflexivity).
Qed.

Lemma settle_survives_fireTimer (ts t' : Timer) (w : World) :
  Inv w -> In ts (timers w) -> In t' (timers w) ->
  isShowTimer ts = false -> isCleanupTimer ts = false ->
  tid t' <> tid ts ->
  In ts (timers (fireTimer t' w)).
Proof.
  intros HI Hin Hin' Hs Hc Hne.
  set (w1 := set_now (Z.max (now w) (due t')) (clearTimeout (tid t') w)).
  assert (Hin1 : In ts (timers w1)).
  { unfold w1. cbn. apply filter_In. split; [exact Hin|].
    apply negb_true_iff. apply Pos.eqb_neq. congruence. }
  assert (HI1 : Inv w1) by (apply Inv_set_now; apply Inv_clearTimeout; exact HI).
  unfold fireTimer. cbv zeta. fold w1. clearbody w1. destruct (callback t').
  - exact Hin1.
  - unfold cleanupTimerFired.
    destruct (isSome (activePreview w1) && isMouseOverPreviewOrLink w1); [exact Hin1|].
    exact (settle_survives_cleanup ts w1 HI1 Hin1 Hs Hc).
  - exact Hin1.
Qed.

Lemma fire_settle_loads (t : Timer) (p : nat) (w : World) :
  callback t = CbSettle p -> (p < List.length (popups w))%nat ->
  (p < List.length (popups (fireTimer t w)))%nat /\ popupLoaded p (fireTimer t w).
Proof.
  intros E Hl. unfold fireTimer. rewrite E. cbv zeta. split.
  - change (p < List.length (updatePopup p markLoaded (popups w)))%nat.
    rewrite length_updatePopup. exact Hl.
  - unfold popupLoaded. intros q Hq Ep.
    change (In q (updatePopup p markLoaded (popups w))) in Hq.
    apply In_updatePopup in Hq. destruct Hq as [q0 [_ ->]].
    destruct (Nat.eqb (popupId q0) p) eqn:E0; [split; reflexivity|].
    apply Nat.eqb_neq in E0. contradiction.
Qed.

(** X19. The content settles 50 ms after it loads.  When the iframe of an
    existing popup reports its load in a reachable world and at least 50 ms
    then pass, that popup's iframe is marked loaded and its loading
    indicator is removed, whatever other timers fire in between (also when
    the popup has been torn down meanwhile). *)
Theorem iframe_load_settles :
  forall (U : string -> option string) (w : World) (p : nat) (T : Z),
    reachable U w ->
    popupExists p w = true ->
    now w + 50 <= T ->
    popupLoaded p (run U [IframeLoad p; TimePasses T] w).
Proof.
  intros U w p T Hr Hp HT. unfold run. cbn [fold_left step]. rewrite Hp.
  set (ts := mkTimer (nextTimerId w) (now w + 50) (CbSettle p)).
  assert (HI1 : Inv (onIframeLoad p w)).
  { apply Inv_setTimeout_settle. apply (reachable_Inv U w Hr). }
  assert (Hok1 : timersOk (timers (onIframeLoad p w)) (nextTimerId (onIframeLoad p w))).
  { apply (timersOk_setTimeout (CbSettle p) 50 w). apply (reachable_timersOk U w Hr). }
  assert (Hin1 : In ts (timers (onIframeLoad p w))).
  { unfold onIframeLoad. cbn. apply in_or_app. right. left. reflexivity. }
  assert (L1 : (p < List.length (popups (onIframeLoad p w)))%nat).
  { unfold popupExists in Hp. apply Nat.ltb_lt in Hp. exact Hp. }
  set (w1 := onIframeLoad p w) in *. clearbody w1.
  assert (R : (In ts (timers (runDue (List.length (timers w1)) T w1)))
              \/ popupLoaded p (runDue (List.length (timers w1)) T w1)).
  { assert (R' : (Inv (runDue (List.length (timers w1)) T w1)
                  /\ timersOk (timers (runDue (List.length (timers w1)) T w1))
                              (nextTimerId (runDue (List.length (timers w1)) T w1))
                  /\ In ts (timers (runDue (List.length (timers w1)) T w1))
                  /\ (p < List.length (popups (runDue (List.length (timers w1)) T w1)))%nat)
                 \/ ((p < List.length (popups (runDue (List.length (timers w1)) T w1)))%nat
                     /\ popupLoaded p (runDue (List.length (timers w1)) T w1))).
    { apply (runDue_invariant
               (fun w' => (Inv w' /\ timersOk (timers w') (nextTimerId w')
                           /\ In ts (timers w') /\ (p < List.length (popups w'))%nat)
                          \/ ((p < List.length (popups w'))%nat /\ popupLoaded p w')) T).
      - intros w' t' [[HI [Hok [Hin Hl]]]|Hdone] Hin' _.
        + destruct (Pos.eq_dec (tid t') (tid ts)) as [E|E].
          * assert (t' = ts)
              by (apply (same_handle_same_timer (timers w')); try assumption; apply Hok).
            subst t'. right. apply fire_settle_loads; [reflexivity | exact Hl].
          * left. split; [apply Inv_fireTimer; assumption|].
            split; [apply timersOk_fireTimer; exact Hok|]. split.
            -- apply settle_survives_fireTimer; try assumption; reflexivity.
            -- pose proof (length_popups_fireTimer t' w'). lia.
        + right. apply loaded_fireTimer. exact Hdone.
      - left. split; [exact HI1|]. split; [exact Hok1|]. split; [exact Hin1 | exact L1]. }
    destruct R' as [[_ [_ [Hin _]]]|[_ Hl]]; [left; exact Hin | right; exact Hl]. }
  destruct R as [Hin|Hl].
  - exfalso. pose proof (advanceTo_complete T w1 ts Hin) as Hlt. cbn in Hlt. lia.
  - exact Hl.
Qed.

(** The iframe of the visible preview loads; 50 ms later it shows. *)
Lemma iframe_load_settles_witness :
  popupLoaded 0 (run URL_href_simple [IframeLoad 0; TimePasses 650] visibleWorld).
Proof.
  apply (iframe_load_settles URL_href_simple visibleWorld 0 650 visibleWorld_reachable).
  - reflexivity.
  - vm_compute. discriminate.
Defined.

(* ================================================================== *)
(** ** The ancestor walk of the URL extractor *)

Section AncestorWalk.

Variable URL_href : string -> option string.

Lemma ancestorUrl_plain (pre rest : Path) :
  forallb plainAncestor pre = true ->
  ancestorUrl URL_href (pre ++ rest)%list = ancestorUrl URL_href rest.
Proof.
  induction pre as [|x pre IH]; simpl; intros H.
  - reflexivity.
  - apply andb_true_iff in H. destruct H as [Hx Hpre].
    unfold plainAncestor in Hx.
    apply andb_true_iff in Hx. destruct Hx as [Hx Hc].
    apply andb_true_iff in Hx. destruct Hx as [Hb Ha].
    apply negb_true_iff in Hb, Ha, Hc. rewrite Hb, Ha, Hc. apply IH. exact Hpre.
Qed.

(** X20. For an element that is not an anchor and has no usable attribute,
    the nearest enclosing anchor decides: when only plain elements lie
    between, [extractUrlFromElement] returns the normalization of that
    anchor's [href] and nothing else, so an anchor whose [href] does not
    normalize yields no URL even if the element's own text is one.  The text
    is used only when the walk reaches [document.body] or the root through
    plain elements: then the result is the normalization of the trimmed
    text, and nothing for blank text. *)
Theorem extractUrlFromElement_ancestor_walk :
  forall (el : Element) (pre : Path),
    isHTMLAnchorElement el = false ->
    firstAttributeUrl URL_href attributeNames el = None ->
    forallb plainAncestor (el :: pre) = true ->
    (forall (a : Element) (post : Path),
        isDocumentBody a = false -> isHTMLAnchorElement a = true ->
        isEmpty (href a) = false ->
        extractUrlFromElement URL_href el (pre ++ a :: post)%list
        = normalizeUrl URL_href (href a))
    /\ (forall (rest : Path),
          match rest with
          | [] => True
          | b :: _ => isDocumentBody b = true
          end ->
          extractUrlFromElement URL_href el (pre ++ rest)%list
          = if isEmpty (trim (textContent el)) then None
            else normalizeUrl URL_href (trim (textContent el))).
Proof.
  intros el pre Ha Hf Hplain. split.
  - intros a post Hb Hanchor He. unfold extractUrlFromElement. rewrite Ha, Hf.
    change (el :: (pre ++ a :: post)%list) with ((el :: pre) ++ a :: post)%list.
    rewrite (ancestorUrl_plain _ _ Hplain). cbn [ancestorUrl].
    rewrite Hb, Hanchor, He. reflexivity.
  - intros rest Hrest. unfold extractUrlFromElement. rewrite Ha, Hf.
    change (el :: (pre ++ rest)%list) with ((el :: pre) ++ rest)%list.
    rewrite (ancestorUrl_plain _ _ Hplain).
    destruct rest as [|b rest]; cbn [ancestorUrl]; [reflexivity|].
    rewrite Hrest. reflexivity.
Qed.

End AncestorWalk.

(** The [strong] inside [exampleLink] resolves to the link's [href]. *)
Lemma extractUrlFromElement_ancestor_walk_witness :
  extractUrlFromElement URL_href_simple strongInLink
    [exampleLink; exampleParagraph; exampleBody]
  = normalizeUrl URL_href_simple "https://example.com/".
Proof.
  apply (proj1 (extractUrlFromElement_ancestor_walk URL_href_simple strongInLink []
                  eq_refl eq_refl eq_refl) exampleLink [exampleParagraph; exampleBody]);
    reflexivity.
Defined.
